(** * ralph-tui: session persistence and Qwen output scanning

    A shallow embedding of
    - the session store (the module "Session persistence for Ralph TUI":
      the per-cwd session file, its pure mutators, load and save), and
    - the JSON object scanner of the Qwen CLI agent plugin
      ([extractJsonObjects]),
    together with the properties the specification states about them; and
    of the code around them:
    - the rest of the session store (existence check, deletion, summary)
      and the status command's search for the session,
    - the Qwen plugin's display events ([parseQwenEvent] and its wrappers),
      the buffering of its output stream in [execute], and its
      configuration ([initialize], [buildArgs], [validateModel],
      [validateSetup]),
    with properties read off that code.

    Modelling conventions.
    - JavaScript strings are Rocq [string]s, one [ascii] per code unit, so
      the model covers code units below 256.
    - JavaScript numbers are mathematical integers [Z]: the session code only
      counts and copies them, and on the integers up to [2^53] in absolute
      value [JSON.stringify] and [JSON.parse] agree with the decimal
      notation used here.  Numbers with a fraction or an exponent are
      outside the model.  Where a number is shown to the user (ToString)
      the digits are those of Number::toString at every size.
    - An optional field ([pausedAt?: string]) is an [option]: [None] stands
      both for an absent key and for a key holding [undefined], which the
      code itself does not tell apart ([model: options.model]) and which
      [JSON.stringify] writes the same way.
    - [new Date().toISOString()] is an input [now] of every function that
      reads the clock; timestamps are ordered by [String.le], which on the
      fixed-width ISO-8601 form is the chronological order.
    - File-system calls act on an explicit [World]: the files, the log of
      calls issued, and the console.  A call fails with the code of the
      look-up of its path: ENOENT for an absent entry, EISDIR on a
      directory, and the code of an unreachable path (ENOTDIR, EACCES, a
      missing directory). *)

From Stdlib Require Import String Ascii ZArith List Bool Lia.
From Stdlib Require Import DecimalString DecimalFacts DecimalZ.
From stdpp Require Import base option gmap strings list.
Import ListNotations.
Local Open Scope string_scope.
Local Open Scope list_scope.
Local Open Scope Z_scope.

(** ** Data model *)

(** Modelled from the spec: the union [SessionStatus] is imported from
    [./types.js], which is not part of the sources at hand; the five
    literals are those of the specification's PersistedSession and of the
    union written out in [src/session/registry.test.ts]. *)
Inductive SessionStatus : Set :=
| Running | Paused | Interrupted | Completed | Failed.

(** [TrackerTaskStatus] and [IterationResult['status']] are imported from
    modules outside the sources at hand; the session code only copies their
    values and writes the literal ['completed'], so they stay strings, as
    they are at run time. *)
Definition TrackerTaskStatus := string.
Definition IterationStatus := string.

(** The fields of a [TrackerTask] that the session store reads. *)
Record TrackerTask := mkTrackerTask {
  task_id : string;
  task_title : string;
  task_status : TrackerTaskStatus
}.

Record TaskStatusSnapshot := mkTaskStatusSnapshot {
  snap_id : string;
  snap_title : string;
  snap_status : TrackerTaskStatus;
  completedInSession : bool
}.

Record TrackerStateSnapshot := mkTrackerStateSnapshot {
  plugin : string;
  epicId : option string;
  prdPath : option string;
  totalTasks : Z;
  tasks : list TaskStatusSnapshot
}.

Record PersistedIterationResult := mkPersistedIterationResult {
  pir_iteration : Z;
  pir_status : IterationStatus;
  pir_taskId : string;
  pir_taskTitle : string;
  pir_taskCompleted : bool;
  pir_durationMs : Z;
  pir_error : option string;
  pir_startedAt : string;
  pir_endedAt : string
}.

(** The fields of an engine [IterationResult] that the session store reads. *)
Record IterationResult := mkIterationResult {
  ir_iteration : Z;
  ir_status : IterationStatus;
  ir_task : TrackerTask;
  ir_taskCompleted : bool;
  ir_durationMs : Z;
  ir_error : option string;
  ir_startedAt : string;
  ir_endedAt : string
}.

Record PersistedSessionState := mkPersistedSessionState {
  version : Z;
  sessionId : string;
  status : SessionStatus;
  startedAt : string;
  updatedAt : string;
  pausedAt : option string;
  currentIteration : Z;
  maxIterations : Z;
  tasksCompleted : Z;
  isPaused : bool;
  agentPlugin : string;
  model : option string;
  trackerState : TrackerStateSnapshot;
  iterations : list PersistedIterationResult;
  skippedTaskIds : list string;
  cwd : string
}.

(** The argument object of [createPersistedSession]. *)
Record CreateOptions := mkCreateOptions {
  opt_sessionId : string;
  opt_agentPlugin : string;
  opt_model : option string;
  opt_trackerPlugin : string;
  opt_epicId : option string;
  opt_prdPath : option string;
  opt_maxIterations : Z;
  opt_tasks : list TrackerTask;
  opt_cwd : string
}.

(** ** Pure mutators *)

Definition createPersistedSession (now : string) (options : CreateOptions)
  : PersistedSessionState :=
  {| version := 1;
     sessionId := opt_sessionId options;
     status := Running;
     startedAt := now;
     updatedAt := now;
     pausedAt := None;
     currentIteration := 0;
     maxIterations := opt_maxIterations options;
     tasksCompleted := 0;
     isPaused := false;
     agentPlugin := opt_agentPlugin options;
     model := opt_model options;
     trackerState :=
       {| plugin := opt_trackerPlugin options;
          epicId := opt_epicId options;
          prdPath := opt_prdPath options;
          totalTasks := Z.of_nat (length (opt_tasks options));
          tasks := map (fun task =>
                          {| snap_id := task_id task;
                             snap_title := task_title task;
                             snap_status := task_status task;
                             completedInSession := false |})
                       (opt_tasks options) |};
     iterations := [];
     skippedTaskIds := [];
     cwd := opt_cwd options |}.

Definition iterationRecord (result : IterationResult) : PersistedIterationResult :=
  {| pir_iteration := ir_iteration result;
     pir_status := ir_status result;
     pir_taskId := task_id (ir_task result);
     pir_taskTitle := task_title (ir_task result);
     pir_taskCompleted := ir_taskCompleted result;
     pir_durationMs := ir_durationMs result;
     pir_error := ir_error result;
     pir_startedAt := ir_startedAt result;
     pir_endedAt := ir_endedAt result |}.

(** The callback of [state.trackerState.tasks.map] in
    [updateSessionAfterIteration]. *)
Definition markTask (result : IterationResult) (task : TaskStatusSnapshot)
  : TaskStatusSnapshot :=
  if String.eqb (snap_id task) (task_id (ir_task result)) && ir_taskCompleted result
  then {| snap_id := snap_id task;
          snap_title := snap_title task;
          snap_status := "completed";
          completedInSession := true |}
  else task.

Definition updatedTasks (state : PersistedSessionState) (result : IterationResult)
  : list TaskStatusSnapshot :=
  map (markTask result) (tasks (trackerState state)).

Definition updateSessionAfterIteration
  (state : PersistedSessionState) (result : IterationResult)
  : PersistedSessionState :=
  {| version := version state;
     sessionId := sessionId state;
     status := status state;
     startedAt := startedAt state;
     updatedAt := updatedAt state;
     pausedAt := pausedAt state;
     currentIteration := ir_iteration result;
     maxIterations := maxIterations state;
     tasksCompleted :=
       if ir_taskCompleted result
       then tasksCompleted state + 1
       else tasksCompleted state;
     isPaused := isPaused state;
     agentPlugin := agentPlugin state;
     model := model state;
     trackerState :=
       {| plugin := plugin (trackerState state);
          epicId := epicId (trackerState state);
          prdPath := prdPath (trackerState state);
          totalTasks := totalTasks (trackerState state);
          tasks := updatedTasks state result |};
     iterations := iterations state ++ [iterationRecord result];
     skippedTaskIds := skippedTaskIds state;
     cwd := cwd state |}.

(** The spread [{...state, status, isPaused, pausedAt}] shared by
    [pauseSession] and [resumePersistedSession]. *)
Definition withPause (state : PersistedSessionState)
  (st : SessionStatus) (paused : bool) (at_ : option string)
  : PersistedSessionState :=
  {| version := version state;
     sessionId := sessionId state;
     status := st;
     startedAt := startedAt state;
     updatedAt := updatedAt state;
     pausedAt := at_;
     currentIteration := currentIteration state;
     maxIterations := maxIterations state;
     tasksCompleted := tasksCompleted state;
     isPaused := paused;
     agentPlugin := agentPlugin state;
     model := model state;
     trackerState := trackerState state;
     iterations := iterations state;
     skippedTaskIds := skippedTaskIds state;
     cwd := cwd state |}.

Definition pauseSession (now : string) (state : PersistedSessionState)
  : PersistedSessionState :=
  withPause state Paused true (Some now).

Definition resumePersistedSession (state : PersistedSessionState)
  : PersistedSessionState :=
  withPause state Running false None.

Definition completeSession (state : PersistedSessionState)
  : PersistedSessionState :=
  withPause state Completed false (pausedAt state).

(** The [_error] argument is not read. *)
Definition failSession (state : PersistedSessionState) (_error : option string)
  : PersistedSessionState :=
  withPause state Failed false (pausedAt state).

(** [Array.prototype.includes] on a list of strings. *)
Definition includes (l : list string) (x : string) : bool :=
  existsb (String.eqb x) l.

Definition addSkippedTask (state : PersistedSessionState) (taskId : string)
  : PersistedSessionState :=
  if includes (skippedTaskIds state) taskId then state
  else
    {| version := version state;
       sessionId := sessionId state;
       status := status state;
       startedAt := startedAt state;
       updatedAt := updatedAt state;
       pausedAt := pausedAt state;
       currentIteration := currentIteration state;
       maxIterations := maxIterations state;
       tasksCompleted := tasksCompleted state;
       isPaused := isPaused state;
       agentPlugin := agentPlugin state;
       model := model state;
       trackerState := trackerState state;
       iterations := iterations state;
       skippedTaskIds := skippedTaskIds state ++ [taskId];
       cwd := cwd state |}.

Definition SessionStatus_eqb (a b : SessionStatus) : bool :=
  match a, b with
  | Running, Running | Paused, Paused | Interrupted, Interrupted
  | Completed, Completed | Failed, Failed => true
  | _, _ => false
  end.

Definition isSessionResumable (state : PersistedSessionState) : bool :=
  SessionStatus_eqb (status state) Paused
  || SessionStatus_eqb (status state) Running
  || SessionStatus_eqb (status state) Interrupted.

(** The object [updatedState] that [savePersistedSession] serializes:
    [{...state, updatedAt: new Date().toISOString()}]. *)
Definition updatedState (now : string) (state : PersistedSessionState)
  : PersistedSessionState :=
  {| version := version state;
     sessionId := sessionId state;
     status := status state;
     startedAt := startedAt state;
     updatedAt := now;
     pausedAt := pausedAt state;
     currentIteration := currentIteration state;
     maxIterations := maxIterations state;
     tasksCompleted := tasksCompleted state;
     isPaused := isPaused state;
     agentPlugin := agentPlugin state;
     model := model state;
     trackerState := trackerState state;
     iterations := iterations state;
     skippedTaskIds := skippedTaskIds state;
     cwd := cwd state |}.

(** ** JSON values, [JSON.stringify] and [JSON.parse]

    The session file is written with [JSON.stringify(updatedState, null, 2)]
    and read back with [JSON.parse]; the Qwen scanner hands every balanced
    brace span to [JSON.parse].  Both built-ins are modelled on the JSON
    data model below, following ECMA-262 (SerializeJSONProperty,
    QuoteJSONString and the JSON grammar).  An object is the list of its
    own properties in enumeration order. *)

#[local] Unset Elimination Schemes.
Inductive json : Type :=
| JNull
| JBool (b : bool)
| JNum (n : Z)
| JStr (s : string)
| JArr (items : list json)
| JObj (members : list (string * json)).
#[local] Set Elimination Schemes.

Definition dquote : ascii := "034"%char.
Definition backslash : ascii := "\"%char.
Definition newline : ascii := "010"%char.
Definition str1 (c : ascii) : string := String c EmptyString.

Definition hexDigit (n : N) : ascii :=
  if (n <? 10)%N then ascii_of_N (48 + n) else ascii_of_N (87 + n).

(** QuoteJSONString, one code unit at a time. *)
Definition quoteChar (c : ascii) : string :=
  let n := N_of_ascii c in
  if (n =? 8)%N then "\b"
  else if (n =? 9)%N then "\t"
  else if (n =? 10)%N then "\n"
  else if (n =? 12)%N then "\f"
  else if (n =? 13)%N then "\r"
  else if (n =? 34)%N then String backslash (str1 dquote)
  else if (n =? 92)%N then "\\"
  else if (n <? 32)%N then "\u00" +:+ String (hexDigit (n / 16)) (str1 (hexDigit (n mod 16)))
  else str1 c.

Fixpoint quoteBody (s : string) : string :=
  match s with
  | EmptyString => EmptyString
  | String c r => quoteChar c +:+ quoteBody r
  end.

Definition quoteJSONString (s : string) : string :=
  String dquote (quoteBody s +:+ str1 dquote).

(** Number::toString on an integer: decimal digits, a leading minus sign. *)
Definition numberToString (n : Z) : string :=
  NilZero.string_of_int (Z.to_int n).

Definition isEmpty (s : string) : bool :=
  match s with EmptyString => true | _ => false end.

(** SerializeJSONProperty / SerializeJSONObject / SerializeJSONArray with the
    state's [gap] and current [indent]. *)
Fixpoint serializeJSON (gap indent : string) (v : json) {struct v} : string :=
  let stepback := indent in
  let indent := indent +:+ gap in
  let opening := if isEmpty gap then EmptyString else String newline indent in
  let closing := if isEmpty gap then EmptyString else String newline stepback in
  let separator := if isEmpty gap then "," else "," +:+ String newline indent in
  match v with
  | JNull => "null"
  | JBool true => "true"
  | JBool false => "false"
  | JNum n => numberToString n
  | JStr s => quoteJSONString s
  | JArr items =>
      match items with
      | [] => "[]"
      | _ => "[" +:+ opening
             +:+ String.concat separator (map (serializeJSON gap indent) items)
             +:+ closing +:+ "]"
      end
  | JObj members =>
      match members with
      | [] => "{}"
      | _ => "{" +:+ opening
             +:+ String.concat separator
                   (map (fun m => quoteJSONString (fst m) +:+ ":"
                                  +:+ (if isEmpty gap then EmptyString else " ")
                                  +:+ serializeJSON gap indent (snd m))
                        members)
             +:+ closing +:+ "}"
      end
  end.

Fixpoint spaces (n : nat) : string :=
  match n with
  | O => EmptyString
  | S k => String " " (spaces k)
  end.

(** [JSON.stringify(value, null, space)] for a numeric [space]: the gap is
    [min(space, 10)] blanks; [JSON.stringify(value)] is the case [space = 0]. *)
Definition JSON_stringify (v : json) (space : nat) : string :=
  serializeJSON (spaces (Nat.min space 10)) EmptyString v.

(** The own properties of a JavaScript object have distinct names. *)
Fixpoint uniqueKeys (v : json) {struct v} : bool :=
  match v with
  | JArr items => forallb uniqueKeys items
  | JObj members =>
      bool_decide (NoDup (map fst members))
      && forallb (fun m => uniqueKeys (snd m)) members
  | _ => true
  end.

(** The number of values in [v], counting each array element and object
    member once more: the parser's calls on the text of [v]. *)
Fixpoint jsize (v : json) {struct v} : nat :=
  match v with
  | JArr items => S (list_sum (map (fun x => S (jsize x)) items))
  | JObj members => S (list_sum (map (fun m => S (jsize (snd m))) members))
  | _ => 1%nat
  end.

(** *** Parsing *)

Inductive presult (A : Type) : Type :=
| POk (a : A) (rest : string)
| PSyntaxError
| PFuel.
Arguments POk {A} a rest.
Arguments PSyntaxError {A}.
Arguments PFuel {A}.

Definition isWs (c : ascii) : bool :=
  let n := N_of_ascii c in
  (n =? 32)%N || (n =? 9)%N || (n =? 10)%N || (n =? 13)%N.

Fixpoint skipWs (s : string) : string :=
  match s with
  | EmptyString => EmptyString
  | String c r => if isWs c then skipWs r else s
  end.

Definition isDigit (c : ascii) : bool :=
  let n := N_of_ascii c in (48 <=? n)%N && (n <=? 57)%N.

Definition hexValue (c : ascii) : option N :=
  let n := N_of_ascii c in
  if (48 <=? n)%N && (n <=? 57)%N then Some (n - 48)%N
  else if (97 <=? n)%N && (n <=? 102)%N then Some (n - 87)%N
  else if (65 <=? n)%N && (n <=? 70)%N then Some (n - 55)%N
  else None.

(** A [\uXXXX] escape; code units of 256 and above lie outside the modelled
    alphabet and are reported as unreadable. *)
Definition hex4 (a b c d : ascii) : option ascii :=
  match hexValue a, hexValue b, hexValue c, hexValue d with
  | Some x, Some y, Some z, Some w =>
      if ((x =? 0) && (y =? 0))%N then Some (ascii_of_N (z * 16 + w)) else None
  | _, _, _, _ => None
  end.

Definition unescape (c : ascii) : option ascii :=
  let n := N_of_ascii c in
  if (n =? 34)%N then Some dquote
  else if (n =? 92)%N then Some backslash
  else if (n =? 47)%N then Some "/"%char
  else if (n =? 98)%N then Some "008"%char
  else if (n =? 102)%N then Some "012"%char
  else if (n =? 110)%N then Some "010"%char
  else if (n =? 114)%N then Some "013"%char
  else if (n =? 116)%N then Some "009"%char
  else None.

Definition consChar (c : ascii) (r : option (string * string))
  : option (string * string) :=
  match r with
  | Some (s, rest) => Some (String c s, rest)
  | None => None
  end.

(** The characters of a string literal after its opening quote, up to and
    including the closing quote. *)
Fixpoint readStringBody (s : string) : option (string * string) :=
  match s with
  | EmptyString => None
  | String c r =>
      if Ascii.eqb c dquote then Some (EmptyString, r)
      else if Ascii.eqb c backslash then
        match r with
        | EmptyString => None
        | String e r1 =>
            if Ascii.eqb e "u" then
              match r1 with
              | String h1 (String h2 (String h3 (String h4 r2))) =>
                  match hex4 h1 h2 h3 h4 with
                  | Some ch => consChar ch (readStringBody r2)
                  | None => None
                  end
              | _ => None
              end
            else
              match unescape e with
              | Some ch => consChar ch (readStringBody r1)
              | None => None
              end
        end
      else if (N_of_ascii c <? 32)%N then None
      else consChar c (readStringBody r)
  end.

Definition digitOf (c : ascii) (u : Decimal.uint) : Decimal.uint :=
  match (N_of_ascii c - 48)%N with
  | 0 => Decimal.D0 u | 1 => Decimal.D1 u | 2 => Decimal.D2 u
  | 3 => Decimal.D3 u | 4 => Decimal.D4 u | 5 => Decimal.D5 u
  | 6 => Decimal.D6 u | 7 => Decimal.D7 u | 8 => Decimal.D8 u
  | _ => Decimal.D9 u
  end%N.

(** The longest run of decimal digits at the head of [s]. *)
Fixpoint readDigits (s : string) : Decimal.uint * string :=
  match s with
  | EmptyString => (Decimal.Nil, s)
  | String c r =>
      if isDigit c
      then let '(u, rest) := readDigits r in (digitOf c u, rest)
      else (Decimal.Nil, s)
  end.

(** Whether a number token may end before [s]: a fraction or an exponent
    would continue it, and so would a further digit. *)
Definition numberEnds (s : string) : bool :=
  match s with
  | EmptyString => true
  | String c _ =>
      negb (isDigit c || Ascii.eqb c "." || Ascii.eqb c "e" || Ascii.eqb c "E")
  end.

(** The unsigned part of a JSON number: [0] or a digit run without a
    leading zero.  Numbers with a fraction or an exponent are outside the
    integer model and are reported as unreadable. *)
Definition readUnsigned (s : string) : option (Decimal.uint * string) :=
  match readDigits s with
  | (Decimal.Nil, _) => None
  | (Decimal.D0 Decimal.Nil, rest) =>
      if numberEnds rest then Some (Decimal.D0 Decimal.Nil, rest) else None
  | (Decimal.D0 _, _) => None
  | (u, rest) => if numberEnds rest then Some (u, rest) else None
  end.

Definition readNumber (s : string) : option (Z * string) :=
  match s with
  | String c r =>
      if Ascii.eqb c "-" then
        match readUnsigned r with
        | Some (u, rest) => Some (Z.of_int (Decimal.Neg u), rest)
        | None => None
        end
      else
        match readUnsigned s with
        | Some (u, rest) => Some (Z.of_int (Decimal.Pos u), rest)
        | None => None
        end
  | EmptyString => None
  end.

(** CreateDataProperty on the object under construction: a repeated key
    keeps its place and takes the later value. *)
Fixpoint objSet (members : list (string * json)) (k : string) (v : json)
  : list (string * json) :=
  match members with
  | [] => [(k, v)]
  | (k', v') :: ms =>
      if String.eqb k' k then (k', v) :: ms else (k', v') :: objSet ms k v
  end.

(** Whether [s] starts with the literal [lit]; the remainder if so. *)
Fixpoint stripPrefix (lit s : string) : option string :=
  match lit, s with
  | EmptyString, _ => Some s
  | String a l, String b r => if Ascii.eqb a b then stripPrefix l r else None
  | String _ _, EmptyString => None
  end.

Definition expectLiteral (lit : string) (v : json) (s : string) : presult json :=
  match stripPrefix lit s with
  | Some rest => POk v rest
  | None => PSyntaxError
  end.

(** Recursive descent over the JSON grammar.  Every call spends one unit of
    [fuel]; [JSON_parse] supplies more than twice the length of the text,
    which no run uses up. *)
Fixpoint parseValue (fuel : nat) (s : string) {struct fuel} : presult json :=
  match fuel with
  | O => PFuel
  | S fuel =>
      match skipWs s with
      | EmptyString => PSyntaxError
      | String c r =>
          if Ascii.eqb c "{" then
            match skipWs r with
            | String c1 r1 =>
                if Ascii.eqb c1 "}" then POk (JObj []) r1
                else parseMembers fuel r []
            | EmptyString => PSyntaxError
            end
          else if Ascii.eqb c "[" then
            match skipWs r with
            | String c1 r1 =>
                if Ascii.eqb c1 "]" then POk (JArr []) r1
                else parseElements fuel r []
            | EmptyString => PSyntaxError
            end
          else if Ascii.eqb c dquote then
            match readStringBody r with
            | Some (str, rest) => POk (JStr str) rest
            | None => PSyntaxError
            end
          else if Ascii.eqb c "n" then expectLiteral "null" JNull (String c r)
          else if Ascii.eqb c "t" then expectLiteral "true" (JBool true) (String c r)
          else if Ascii.eqb c "f" then expectLiteral "false" (JBool false) (String c r)
          else
            match readNumber (String c r) with
            | Some (n, rest) => POk (JNum n) rest
            | None => PSyntaxError
            end
      end
  end

with parseElements (fuel : nat) (s : string) (acc : list json) {struct fuel}
  : presult json :=
  match fuel with
  | O => PFuel
  | S fuel =>
      match parseValue fuel s with
      | POk v rest =>
          match skipWs rest with
          | String c r =>
              if Ascii.eqb c "," then parseElements fuel r (acc ++ [v])
              else if Ascii.eqb c "]" then POk (JArr (acc ++ [v])) r
              else PSyntaxError
          | EmptyString => PSyntaxError
          end
      | PSyntaxError => PSyntaxError
      | PFuel => PFuel
      end
  end

with parseMembers (fuel : nat) (s : string) (acc : list (string * json))
  {struct fuel} : presult json :=
  match fuel with
  | O => PFuel
  | S fuel =>
      match skipWs s with
      | String q r =>
          if Ascii.eqb q dquote then
            match readStringBody r with
            | Some (key, rest) =>
                match skipWs rest with
                | String c r1 =>
                    if Ascii.eqb c ":" then
                      match parseValue fuel r1 with
                      | POk v rest1 =>
                          match skipWs rest1 with
                          | String c2 r2 =>
                              if Ascii.eqb c2 "," then parseMembers fuel r2 (objSet acc key v)
                              else if Ascii.eqb c2 "}" then POk (JObj (objSet acc key v)) r2
                              else PSyntaxError
                          | EmptyString => PSyntaxError
                          end
                      | PSyntaxError => PSyntaxError
                      | PFuel => PFuel
                      end
                    else PSyntaxError
                | EmptyString => PSyntaxError
                end
            | None => PSyntaxError
            end
          else PSyntaxError
      | EmptyString => PSyntaxError
      end
  end.

(** [JSON.parse(text)]: [None] stands for the SyntaxError it throws. *)
Definition JSON_parse (text : string) : option json :=
  match parseValue (S (2 * String.length text)) text with
  | POk v rest => if isEmpty (skipWs rest) then Some v else None
  | _ => None
  end.

(** *** JavaScript views of a parsed value *)

Definition lookupMember (k : string) (members : list (string * json)) : option json :=
  snd <$> List.find (fun m => String.eqb (fst m) k) members.

(** Reading an own data property; [None] is [undefined].  Names defined by
    no prototype are meant ([version], [status], ...). *)
Definition getProp (k : string) (v : json) : option json :=
  match v with
  | JObj members => lookupMember k members
  | _ => None
  end.

(** ** The session file as JSON *)

Definition SessionStatus_toString (st : SessionStatus) : string :=
  match st with
  | Running => "running"
  | Paused => "paused"
  | Interrupted => "interrupted"
  | Completed => "completed"
  | Failed => "failed"
  end.

Definition SessionStatus_ofString (s : string) : option SessionStatus :=
  if String.eqb s "running" then Some Running
  else if String.eqb s "paused" then Some Paused
  else if String.eqb s "interrupted" then Some Interrupted
  else if String.eqb s "completed" then Some Completed
  else if String.eqb s "failed" then Some Failed
  else None.

(** A property holding [undefined] is left out by [JSON.stringify]. *)
Definition optMember (k : string) (o : option string) : list (string * json) :=
  match o with
  | Some s => [(k, JStr s)]
  | None => []
  end.

Definition snapshotToJson (t : TaskStatusSnapshot) : json :=
  JObj [("id", JStr (snap_id t));
        ("title", JStr (snap_title t));
        ("status", JStr (snap_status t));
        ("completedInSession", JBool (completedInSession t))].

Definition trackerStateToJson (t : TrackerStateSnapshot) : json :=
  JObj ([("plugin", JStr (plugin t))]
        ++ optMember "epicId" (epicId t)
        ++ optMember "prdPath" (prdPath t)
        ++ [("totalTasks", JNum (totalTasks t));
            ("tasks", JArr (map snapshotToJson (tasks t)))]).

Definition iterationToJson (r : PersistedIterationResult) : json :=
  JObj ([("iteration", JNum (pir_iteration r));
         ("status", JStr (pir_status r));
         ("taskId", JStr (pir_taskId r));
         ("taskTitle", JStr (pir_taskTitle r));
         ("taskCompleted", JBool (pir_taskCompleted r));
         ("durationMs", JNum (pir_durationMs r))]
        ++ optMember "error" (pir_error r)
        ++ [("startedAt", JStr (pir_startedAt r));
            ("endedAt", JStr (pir_endedAt r))]).

(** The JSON value of a session object, its properties in the order of the
    interface [PersistedSessionState]. *)
Definition sessionToJson (s : PersistedSessionState) : json :=
  JObj ([("version", JNum (version s));
         ("sessionId", JStr (sessionId s));
         ("status", JStr (SessionStatus_toString (status s)));
         ("startedAt", JStr (startedAt s));
         ("updatedAt", JStr (updatedAt s))]
        ++ optMember "pausedAt" (pausedAt s)
        ++ [("currentIteration", JNum (currentIteration s));
            ("maxIterations", JNum (maxIterations s));
            ("tasksCompleted", JNum (tasksCompleted s));
            ("isPaused", JBool (isPaused s));
            ("agentPlugin", JStr (agentPlugin s))]
        ++ optMember "model" (model s)
        ++ [("trackerState", trackerStateToJson (trackerState s));
            ("iterations", JArr (map iterationToJson (iterations s)));
            ("skippedTaskIds", JArr (map JStr (skippedTaskIds s)));
            ("cwd", JStr (cwd s))]).

(** Reading a parsed value through the interface types: what the property
    accesses [parsed.sessionId], [parsed.trackerState.tasks[i].id], ... hold.
    [None] when a required property is missing or of another type. *)
Definition asStr (v : option json) : option string :=
  match v with Some (JStr s) => Some s | _ => None end.
Definition asNum (v : option json) : option Z :=
  match v with Some (JNum n) => Some n | _ => None end.
Definition asBool (v : option json) : option bool :=
  match v with Some (JBool b) => Some b | _ => None end.
Definition asArr (v : option json) : option (list json) :=
  match v with Some (JArr l) => Some l | _ => None end.
Definition asOptStr (v : option json) : option (option string) :=
  match v with
  | None => Some None
  | Some (JStr s) => Some (Some s)
  | Some _ => None
  end.

Definition readAll {A} (f : json -> option A) (l : list json) : option (list A) :=
  mapM f l.

Definition readString (v : json) : option string := asStr (Some v).

Definition readSnapshot (v : json) : option TaskStatusSnapshot :=
  i ← asStr (getProp "id" v);
  t ← asStr (getProp "title" v);
  st ← asStr (getProp "status" v);
  c ← asBool (getProp "completedInSession" v);
  Some {| snap_id := i; snap_title := t; snap_status := st; completedInSession := c |}.

Definition readTrackerState (v : json) : option TrackerStateSnapshot :=
  p ← asStr (getProp "plugin" v);
  e ← asOptStr (getProp "epicId" v);
  d ← asOptStr (getProp "prdPath" v);
  n ← asNum (getProp "totalTasks" v);
  l ← asArr (getProp "tasks" v);
  ts ← readAll readSnapshot l;
  Some {| plugin := p; epicId := e; prdPath := d; totalTasks := n; tasks := ts |}.

Definition readIteration (v : json) : option PersistedIterationResult :=
  i ← asNum (getProp "iteration" v);
  st ← asStr (getProp "status" v);
  ti ← asStr (getProp "taskId" v);
  tt ← asStr (getProp "taskTitle" v);
  tc ← asBool (getProp "taskCompleted" v);
  d ← asNum (getProp "durationMs" v);
  e ← asOptStr (getProp "error" v);
  sa ← asStr (getProp "startedAt" v);
  ea ← asStr (getProp "endedAt" v);
  Some {| pir_iteration := i; pir_status := st; pir_taskId := ti;
          pir_taskTitle := tt; pir_taskCompleted := tc; pir_durationMs := d;
          pir_error := e; pir_startedAt := sa; pir_endedAt := ea |}.

Definition readSession (v : json) : option PersistedSessionState :=
  ver ← asNum (getProp "version" v);
  sid ← asStr (getProp "sessionId" v);
  st ← asStr (getProp "status" v) ≫= SessionStatus_ofString;
  sa ← asStr (getProp "startedAt" v);
  ua ← asStr (getProp "updatedAt" v);
  pa ← asOptStr (getProp "pausedAt" v);
  ci ← asNum (getProp "currentIteration" v);
  mi ← asNum (getProp "maxIterations" v);
  tc ← asNum (getProp "tasksCompleted" v);
  ip ← asBool (getProp "isPaused" v);
  ap ← asStr (getProp "agentPlugin" v);
  mo ← asOptStr (getProp "model" v);
  tr ← getProp "trackerState" v ≫= readTrackerState;
  its ← asArr (getProp "iterations" v) ≫= readAll readIteration;
  sk ← asArr (getProp "skippedTaskIds" v) ≫= readAll readString;
  cw ← asStr (getProp "cwd" v);
  Some {| version := ver; sessionId := sid; status := st; startedAt := sa;
          updatedAt := ua; pausedAt := pa; currentIteration := ci;
          maxIterations := mi; tasksCompleted := tc; isPaused := ip;
          agentPlugin := ap; model := mo; trackerState := tr;
          iterations := its; skippedTaskIds := sk; cwd := cw |}.

(** ** The file system and the console *)

(** What a path leads to.  [Unreachable code] is a path that cannot be
    looked up: a directory on the way is missing ([ENOENT]), is a regular
    file ([ENOTDIR]) or may not be searched ([EACCES]); every call on such
    a path fails with that code.  A path that is no key of the map has
    its directory but no entry in it.  Permissions of the entry itself and
    a full disk are not modelled. *)
Inductive node : Type :=
| File (content : string)
| Directory
| Unreachable (code : string).

(** The calls of [node:fs/promises]; the session store issues the first
    four, [CallFsync] and [CallRename] are what an atomic replace would add. *)
Inductive FsCall : Type :=
| CallReadFile (path : string)
| CallWriteFile (path data : string)
| CallUnlink (path : string)
| CallAccess (path : string)
| CallFsync (path : string)
| CallRename (oldPath newPath : string).

(** A key of [files] stands for one entry of the file system: path strings
    are taken in one canonical form, so that two strings never name the
    same entry, and no key lies below a path that the store writes. *)
Record World := mkWorld {
  files : gmap string node;
  calls : list FsCall;
  console : list string
}.

Inductive exn : Type :=
| ErrnoException (code : string)
| SyntaxError
| TypeError.

Inductive outcome (A : Type) : Type :=
| Returned (a : A)
| Thrown (e : exn).
Arguments Returned {A} a.
Arguments Thrown {A} e.

Definition logCall (c : FsCall) (w : World) : World :=
  {| files := files w; calls := calls w ++ [c]; console := console w |}.

Definition readFile (path : string) (w : World) : outcome string * World :=
  let w := logCall (CallReadFile path) w in
  match files w !! path with
  | Some (File content) => (Returned content, w)
  | Some Directory => (Thrown (ErrnoException "EISDIR"), w)
  | Some (Unreachable code) => (Thrown (ErrnoException code), w)
  | None => (Thrown (ErrnoException "ENOENT"), w)
  end.

Definition writeFile (path data : string) (w : World) : outcome unit * World :=
  let w := logCall (CallWriteFile path data) w in
  match files w !! path with
  | Some Directory => (Thrown (ErrnoException "EISDIR"), w)
  | Some (Unreachable code) => (Thrown (ErrnoException code), w)
  | _ => (Returned tt,
          {| files := <[path := File data]> (files w);
             calls := calls w; console := console w |})
  end.

Definition console_warn (msg : string) (w : World) : World :=
  {| files := files w; calls := calls w; console := console w ++ [msg] |}.

(** [(error as NodeJS.ErrnoException).code === c] *)
Definition hasCode (e : exn) (c : string) : bool :=
  match e with
  | ErrnoException code => String.eqb code c
  | _ => false
  end.

(** ** ToString *)

(** The decimal digits of a natural number. *)
Definition digitsOf (n : Z) : string := NilZero.string_of_uint (N.to_uint (Z.to_N n)).

Fixpoint stripZeros (s : string) : string :=
  match s with
  | EmptyString => EmptyString
  | String c r =>
      match stripZeros r with
      | EmptyString => if Ascii.eqb c "0" then EmptyString else String c EmptyString
      | r' => String c r'
      end
  end.

(** The Number nearest to the natural number [a]: [a] itself below [2^53],
    and the multiple of the spacing [2^(e-52)] nearest to [a] above, ties to
    the even significand. *)
Definition nearestDouble (a : Z) : Z :=
  if a <? 2 ^ 53 then a
  else
    let u := 2 ^ (Z.log2 a - 52) in
    let q := a / u in
    let r := a mod u in
    let m := if (u <? 2 * r) || ((2 * r =? u) && Z.odd q) then q + 1 else q in
    m * u.

(** Whether the decimal [c] reads back as the Number [x]: it lies between
    the midpoints to the two neighbours of [x], the midpoints included
    when the significand of [x] is even. *)
Definition readsBackAs (x c : Z) : bool :=
  if x <? 2 ^ 53 then c =? x
  else
    let u := 2 ^ (Z.log2 x - 52) in
    let m := x / u in
    let low2 := 2 * x - (if m =? 2 ^ 52 then u / 2 else u) in
    let high2 := 2 * x + u in
    if Z.even m then (low2 <=? 2 * c) && (2 * c <=? high2)
    else (low2 <? 2 * c) && (2 * c <? high2).

(** The decimal with the fewest significant digits that reads back as [x],
    and among these the one nearest to [x], the even one of two: [p] is the
    power of ten of the last digit tried, from the first digit of [x] on. *)
Fixpoint shortestDecimal (fuel : nat) (p x : Z) {struct fuel} : Z :=
  match fuel with
  | O => x
  | S fuel =>
      let s := x / p in
      let c1 := s * p in
      let c2 := (s + 1) * p in
      if readsBackAs x c1 && readsBackAs x c2 then
        if x - c1 <? c2 - x then c1
        else if c2 - x <? x - c1 then c2
        else if Z.even s then c1 else c2
      else if readsBackAs x c1 then c1
      else if readsBackAs x c2 then c2
      else shortestDecimal fuel (p / 10) x
  end.

(** Number::toString(x, 10) of ECMA-262 for the Number nearest to the
    integer [n]: the digits of the shortest decimal, written out in full up
    to 21 digits and with an exponent beyond; [Infinity] from [2^1024]. *)
Definition Number_toString (n : Z) : string :=
  let sign := if n <? 0 then "-" else EmptyString in
  let x := nearestDouble (Z.abs n) in
  if 2 ^ 1024 <=? x then sign +:+ "Infinity"
  else
    let len := String.length (digitsOf x) in
    let v := shortestDecimal len (10 ^ (Z.of_nat len - 1)) x in
    let digits := digitsOf v in
    if v <? 10 ^ 21 then sign +:+ digits
    else
      let exponent := "e+" +:+ digitsOf (Z.of_nat (String.length digits) - 1) in
      match stripZeros digits with
      | String d EmptyString => sign +:+ String d exponent
      | String d rest => sign +:+ String d ("." +:+ rest +:+ exponent)
      | EmptyString => sign +:+ digits
      end.

(** [Array.prototype.join] with a comma, the entries converted from left
    to right by [conv]; the first conversion that throws ends it. *)
Definition joinWith (conv : json -> outcome string)
  : list json -> bool -> outcome string :=
  fix join (l : list json) (first : bool) {struct l} : outcome string :=
    match l with
    | [] => Returned EmptyString
    | x :: rest =>
        match conv x with
        | Thrown e => Thrown e
        | Returned sx =>
            match join rest false with
            | Thrown e => Thrown e
            | Returned sr =>
                Returned ((if first then EmptyString else ",") +:+ sx +:+ sr)
            end
        end
    end.

(** ToString of a parsed value.  An object is converted through its
    [toString]: an own property of that name is not callable and the
    inherited [valueOf] returns the object, so the conversion throws a
    TypeError; otherwise [Object.prototype.toString] answers.  An array is
    joined with commas, [null] entries giving the empty string. *)
Fixpoint jsToString (v : json) {struct v} : outcome string :=
  match v with
  | JNull => Returned "null"
  | JBool true => Returned "true"
  | JBool false => Returned "false"
  | JNum n => Returned (Number_toString n)
  | JStr s => Returned s
  | JArr items =>
      joinWith (fun x => match x with
                         | JNull => Returned EmptyString
                         | _ => jsToString x
                         end) items true
  | JObj members =>
      match lookupMember "toString" members with
      | Some _ => Thrown TypeError
      | None => Returned "[object Object]"
      end
  end.

(** [`${v}`]; [None] is [undefined]. *)
Definition templateToString (v : option json) : outcome string :=
  match v with
  | Some x => jsToString x
  | None => Returned "undefined"
  end.

(** ** Load and save *)

Definition SESSION_FILE : string := ".ralph-tui-session.json".

(** [parsed.version]: a property read on [null] throws a TypeError. *)
Definition getVersion (parsed : json) : outcome (option json) :=
  match parsed with
  | JNull => Thrown TypeError
  | _ => Returned (getProp "version" parsed)
  end.

(** [x !== 1] *)
Definition isNot1 (x : option json) : bool :=
  match x with
  | Some (JNum 1) => false
  | _ => true
  end.

(** The argument of [console.warn]; building it may throw. *)
Definition versionWarning (ver : option json) : outcome string :=
  match templateToString ver with
  | Returned text =>
      Returned (("Unknown session file version: " +:+ text +:+ ". ")
                +:+ "Session may not load correctly.")
  | Thrown e => Thrown e
  end.

Section SessionStore.

(** [join] of [node:path].  The store only relies on equal arguments
    giving equal paths, so the function stays a parameter. *)
Variable join : string -> string -> string.

Definition getSessionFilePath (cwd : string) : string :=
  join cwd SESSION_FILE.

(** The [try] block of [loadPersistedSession]. *)
Definition loadTry (filePath : string) (w : World) : outcome json * World :=
  match readFile filePath w with
  | (Returned content, w) =>
      match JSON_parse content with
      | Some parsed =>
          match getVersion parsed with
          | Returned ver =>
              if isNot1 ver
              then match versionWarning ver with
                   | Returned msg => (Returned parsed, console_warn msg w)
                   | Thrown e => (Thrown e, w)
                   end
              else (Returned parsed, w)
          | Thrown e => (Thrown e, w)
          end
      | None => (Thrown SyntaxError, w)
      end
  | (Thrown e, w) => (Thrown e, w)
  end.

(** [None] is the [null] result. *)
Definition loadPersistedSession (cwd : string) (w : World)
  : outcome (option json) * World :=
  let filePath := getSessionFilePath cwd in
  match loadTry filePath w with
  | (Returned parsed, w) => (Returned (Some parsed), w)
  | (Thrown error, w) =>
      if hasCode error "ENOENT" then (Returned None, w)
      else (Thrown error, w)
  end.

Definition savePersistedSession (now : string) (state : PersistedSessionState)
  (w : World) : outcome unit * World :=
  let filePath := getSessionFilePath (cwd state) in
  let updated := updatedState now state in
  writeFile filePath (JSON_stringify (sessionToJson updated) 2) w.

End SessionStore.



(** [join] on a directory name that is normalized and has no trailing
    slash, for concrete runs. *)
Definition posixJoin (dir name : string) : string :=
  dir +:+ "/" +:+ name.

(** ** Frames of the mutators *)

Inductive Field : Set :=
| F_version | F_sessionId | F_status | F_startedAt | F_updatedAt | F_pausedAt
| F_currentIteration | F_maxIterations | F_tasksCompleted | F_isPaused
| F_agentPlugin | F_model | F_trackerState | F_iterations | F_skippedTaskIds
| F_cwd.

Definition fieldEq (f : Field) (s s' : PersistedSessionState) : Prop :=
  match f with
  | F_version => version s = version s'
  | F_sessionId => sessionId s = sessionId s'
  | F_status => status s = status s'
  | F_startedAt => startedAt s = startedAt s'
  | F_updatedAt => updatedAt s = updatedAt s'
  | F_pausedAt => pausedAt s = pausedAt s'
  | F_currentIteration => currentIteration s = currentIteration s'
  | F_maxIterations => maxIterations s = maxIterations s'
  | F_tasksCompleted => tasksCompleted s = tasksCompleted s'
  | F_isPaused => isPaused s = isPaused s'
  | F_agentPlugin => agentPlugin s = agentPlugin s'
  | F_model => model s = model s'
  | F_trackerState => trackerState s = trackerState s'
  | F_iterations => iterations s = iterations s'
  | F_skippedTaskIds => skippedTaskIds s = skippedTaskIds s'
  | F_cwd => cwd s = cwd s'
  end.

(** [s] and [s'] hold the same value in every field outside [changed]. *)
Definition agreeExcept (changed : list Field) (s s' : PersistedSessionState) : Prop :=
  forall f, ~ In f changed -> fieldEq f s s'.

(** ** Runs of the session store *)

(** Timestamps in chronological order. *)
Definition timeLe (a b : string) : Prop := String.le a b.

(** Whether an iteration result that reports a completed task names a task
    of the snapshot that this session has not completed yet. *)
Definition completesOpenTask (s : PersistedSessionState) (r : IterationResult)
  : bool :=
  negb (ir_taskCompleted r)
  || existsb (fun t => String.eqb (snap_id t) (task_id (ir_task r))
                       && negb (completedInSession t))
             (tasks (trackerState s)).

(** [reachable G t s]: the in-memory session [s] results from
    [createPersistedSession] by mutators and saves, the clock standing at
    [t]; iteration numbers are consecutive from 1, every clock reading is
    at least the previous one, and [G] admits each iteration result. *)
Inductive reachable (G : PersistedSessionState -> IterationResult -> Prop)
  : string -> PersistedSessionState -> Prop :=
| reach_create now options :
    reachable G now (createPersistedSession now options)
| reach_update t s r :
    reachable G t s ->
    ir_iteration r = currentIteration s + 1 ->
    G s r ->
    reachable G t (updateSessionAfterIteration s r)
| reach_pause t s now :
    reachable G t s -> timeLe t now ->
    reachable G now (pauseSession now s)
| reach_resume t s :
    reachable G t s -> reachable G t (resumePersistedSession s)
| reach_complete t s :
    reachable G t s -> reachable G t (completeSession s)
| reach_fail t s err :
    reachable G t s -> reachable G t (failSession s err)
| reach_skip t s taskId :
    reachable G t s -> reachable G t (addSkippedTask s taskId)
| reach_save t s now :
    reachable G t s -> timeLe t now ->
    reachable G now s.

Definition anyResult (_ : PersistedSessionState) (_ : IterationResult) : Prop := True.
Definition openTaskResult (s : PersistedSessionState) (r : IterationResult) : Prop :=
  completesOpenTask s r = true.




(** ** The remote module's constants *)

Record TokenLifetimes := mkTokenLifetimes {
  SERVER_TOKEN_DAYS : Z;
  CONNECTION_TOKEN_HOURS : Z;
  REFRESH_THRESHOLD_HOURS : Z
}.

Record ReconnectConfig := mkReconnectConfig {
  initialDelayMs : Z;
  maxDelayMs : Z;
  backoffMultiplier : Z;
  maxRetries : Z;
  silentRetryThreshold : Z
}.

(** Modelled from the spec: [TOKEN_LIFETIMES] is exported by
    [src/remote/types.ts], which is missing from the sources at hand; the
    values are the specification's token lifetimes. *)
Definition TOKEN_LIFETIMES : TokenLifetimes :=
  {| SERVER_TOKEN_DAYS := 90;
     CONNECTION_TOKEN_HOURS := 24;
     REFRESH_THRESHOLD_HOURS := 1 |}.

(** Modelled from the spec: [DEFAULT_RECONNECT_CONFIG] is exported by
    [src/remote/client.ts], which is missing from the sources at hand; the
    values are the specification's reconnect defaults. *)
Definition DEFAULT_RECONNECT_CONFIG : ReconnectConfig :=
  {| initialDelayMs := 1000;
     maxDelayMs := 30000;
     backoffMultiplier := 2;
     maxRetries := 10;
     silentRetryThreshold := 3 |}.

(** The expectations of [remote.test.ts] ('has correct default values' and
    'metrics structure is correct'), as checks on the two records. *)
Definition test_TOKEN_LIFETIMES (t : TokenLifetimes) : bool :=
  (SERVER_TOKEN_DAYS t =? 90)
  && (CONNECTION_TOKEN_HOURS t =? 24)
  && (REFRESH_THRESHOLD_HOURS t =? 1).

Definition test_DEFAULT_RECONNECT_CONFIG (c : ReconnectConfig) : bool :=
  (initialDelayMs c =? 1000)
  && (maxDelayMs c =? 30000)
  && (backoffMultiplier c =? 2)
  && (maxRetries c =? 10)
  && (silentRetryThreshold c =? 3).

(** ** The Qwen output scanner *)

(** [s.indexOf(c)] for a one-character needle; [None] is [-1]. *)
Fixpoint indexOf (c : ascii) (s : string) : option nat :=
  match s with
  | EmptyString => None
  | String a r =>
      if Ascii.eqb a c then Some O
      else match indexOf c r with
           | Some i => Some (S i)
           | None => None
           end
  end.

Fixpoint dropStr (n : nat) (s : string) : string :=
  match n, s with
  | O, _ => s
  | S k, String _ r => dropStr k r
  | S _, EmptyString => EmptyString
  end.

Fixpoint takeStr (n : nat) (s : string) : string :=
  match n, s with
  | O, _ => EmptyString
  | S k, String a r => String a (takeStr k r)
  | S _, EmptyString => EmptyString
  end.

(** [s.substring(a)] and [s.substring(a, b)] on indices that are natural
    numbers: both are clamped to the length, and swapped when [b < a]. *)
Definition substringFrom (s : string) (a : nat) : string := dropStr a s.
Definition substring2 (s : string) (a b : nat) : string :=
  takeStr (Nat.max a b - Nat.min a b) (dropStr (Nat.min a b) s).

(** The [for] loop of [extractJsonObjects]: [suffix] is the text from index
    [i] on.  The result is the value of [end] after the loop, [None] for
    [-1]. *)
Fixpoint scanObject (suffix : string) (i : nat) (depth : Z)
  (inString escaped : bool) {struct suffix} : option nat :=
  match suffix with
  | EmptyString => None
  | String char rest =>
      if escaped then scanObject rest (S i) depth inString false
      else if Ascii.eqb char backslash then scanObject rest (S i) depth inString true
      else if Ascii.eqb char dquote then scanObject rest (S i) depth (negb inString) false
      else if negb inString then
        let depth := if Ascii.eqb char "{" then depth + 1 else depth in
        let depth := if Ascii.eqb char "}" then depth - 1 else depth in
        if depth =? 0 then Some i
        else scanObject rest (S i) depth inString false
      else scanObject rest (S i) depth inString false
  end.

(** The [while (true)] loop; each round spends one unit of [fuel]. *)
Fixpoint extractLoop (fuel : nat) (current : string) (objects : list json)
  {struct fuel} : option (list json * string) :=
  match fuel with
  | O => None
  | S fuel =>
      match indexOf "{" current with
      | None => Some (objects, EmptyString)
      | Some start =>
          match scanObject (dropStr start current) start 0 false false with
          | Some end_ =>
              let jsonStr := substring2 current start (end_ + 1) in
              match JSON_parse jsonStr with
              | Some obj =>
                  extractLoop fuel (substringFrom current (end_ + 1)) (objects ++ [obj])
              | None =>
                  extractLoop fuel (substringFrom current (start + 1)) objects
              end
          | None => Some (objects, substringFrom current start)
          end
      end
  end.

(** [extractJsonObjects(str)]: the pair [(objects, remaining)].  Every round
    of the loop shortens [current], so [length str + 1] rounds suffice;
    [None] would be a run that needs more. *)
Definition extractJsonObjects (str : string) : option (list json * string) :=
  extractLoop (S (String.length str)) str [].


(** The input of the scanner in the statements about it: the texts
    [JSON.stringify(o)] of the objects of [chunks], each after its piece of
    other text, followed by [tail]. *)
Fixpoint interleave (chunks : list (string * json)) (tail : string) : string :=
  match chunks with
  | [] => tail
  | (junk, o) :: rest => junk +:+ JSON_stringify o 0 +:+ interleave rest tail
  end.

Definition noBrace (s : string) : bool :=
  match indexOf "{" s with None => true | Some _ => false end.

Definition isObject (v : json) : bool :=
  match v with JObj _ => true | _ => false end.

(** A piece of text without an opening brace, then an object. *)
Definition goodChunk (c : string * json) : bool :=
  noBrace (fst c) && isObject (snd c) && uniqueKeys (snd c).

(** ** Vocabulary of the proofs *)

Definition allWs (s : string) : bool :=
  forallb isWs (list_ascii_of_string s).

(** A character that starts the text of a value. *)
Definition valueStart (c : ascii) : bool :=
  Ascii.eqb c "{" || Ascii.eqb c "[" || Ascii.eqb c dquote
  || Ascii.eqb c "n" || Ascii.eqb c "t" || Ascii.eqb c "f"
  || Ascii.eqb c "-" || isDigit c.

(** A character that may follow a value inside an array or an object. *)
Definition closer (c : ascii) : bool :=
  Ascii.eqb c "," || Ascii.eqb c "]" || Ascii.eqb c "}".

(** The text of one member in SerializeJSONObject. *)
Definition memberText (gap indent sp : string) (m : string * json) : string :=
  quoteJSONString (fst m) +:+ ":" +:+ sp +:+ serializeJSON gap indent (snd m).

(** [v], printed with [gap] at any indentation and followed by text that
    lets a number end, parses back to [v] and leaves that text. *)
Definition parsesBack (gap : string) (v : json) : Prop :=
  forall indent rest fuel,
    allWs indent = true -> (jsize v <= fuel)%nat -> numberEnds rest = true ->
    parseValue fuel (serializeJSON gap indent v +:+ rest) = POk v rest.

(** A character the scanner steps over without a change of state. *)
Definition plainChar (c : ascii) : bool :=
  negb (Ascii.eqb c backslash || Ascii.eqb c dquote
        || Ascii.eqb c "{" || Ascii.eqb c "}").

Definition allPlain (s : string) : bool :=
  forallb plainChar (list_ascii_of_string s).

(** The scanner passes over the text of a value nested in an object and
    comes out in the state it went in with. *)
Definition scannedOver (v : json) : Prop :=
  forall indent rest i d,
    0 < d ->
    scanObject (serializeJSON EmptyString indent v +:+ rest) i d false false
    = scanObject rest (String.length (serializeJSON EmptyString indent v) + i)
        d false false.


(** What every reachable in-memory session satisfies, whatever the results. *)
Definition runInvariant (t : string) (s : PersistedSessionState) : Prop :=
  timeLe (startedAt s) t
  /\ updatedAt s = startedAt s
  /\ Z.of_nat (length (iterations s)) = currentIteration s
  /\ totalTasks (trackerState s) = Z.of_nat (length (tasks (trackerState s)))
  /\ 0 <= tasksCompleted s <= currentIteration s.

(** ** Sample runs *)

Definition emptyWorld : World :=
  {| files := ∅; calls := []; console := [] |}.

Definition t0 : string := "2026-01-01T00:00:00.000Z".
Definition t1 : string := "2026-01-01T00:05:00.000Z".
Definition t2 : string := "2026-01-01T00:06:00.000Z".

Definition sampleOptions : CreateOptions :=
  mkCreateOptions "s-1" "qwen-cli" (Some "coder-model") "json" None
    (Some "prd.json") 10
    [mkTrackerTask "a" "first" "open"; mkTrackerTask "b" "second" "open"] "/w".

Definition sampleSession : PersistedSessionState :=
  createPersistedSession t0 sampleOptions.

Definition resultFor (n : Z) (id : string) : IterationResult :=
  mkIterationResult n "completed" (mkTrackerTask id id "open") true 1000 None
    "2026-01-01T00:00:01.000Z" "2026-01-01T00:00:02.000Z".

(** One iteration done, then paused. *)
Definition pausedSample : PersistedSessionState :=
  pauseSession t1 (updateSessionAfterIteration sampleSession (resultFor 1 "a")).

(** Task [b] skipped once. *)
Definition skippedSample : PersistedSessionState :=
  addSkippedTask sampleSession "b".

(** A state, as a session file may hold it, that lists task [a] twice. *)
Definition twiceSkipped : PersistedSessionState :=
  {| version := 1; sessionId := "s-1"; status := Running;
     startedAt := t0; updatedAt := t0;
     pausedAt := None; currentIteration := 0; maxIterations := 0;
     tasksCompleted := 0; isPaused := false; agentPlugin := "qwen-cli";
     model := None;
     trackerState := mkTrackerStateSnapshot "json" None None 0 [];
     iterations := [];
     skippedTaskIds := ["a"; "a"];
     cwd := "/w" |}.

(** A session whose tracker received task [b] after the session started. *)
Definition lateTaskOptions : CreateOptions :=
  mkCreateOptions "s-1" "qwen-cli" None "json" None (Some "prd.json") 0
    [mkTrackerTask "a" "first" "open"] "/w".

Definition lateTaskSession : PersistedSessionState :=
  updateSessionAfterIteration
    (updateSessionAfterIteration
       (createPersistedSession t0 lateTaskOptions)
       (resultFor 1 "a"))
    (resultFor 2 "b").

(** A session file of a later schema. *)
Definition version2File : json :=
  JObj [("version", JNum 2); ("sessionId", JStr "s-9")].

Definition version2World : World :=
  {| files := {[ posixJoin "/w" SESSION_FILE := File (JSON_stringify version2File 2) ]};
     calls := []; console := [] |}.




(** Two events of the agent between log text; the first holds braces and
    an escaped quote inside a string. *)
Definition sampleChunks : list (string * json) :=
  [("log: ",
    JObj [("type", JStr "assistant");
          ("content", JStr ("say " +:+ str1 dquote +:+ "{hi}" +:+ str1 dquote))]);
   (" ",
    JObj [("type", JStr "tool_call");
          ("input", JObj [("paths", JArr [JStr "a\b"; JNull; JNum (-3)])])])].

(** * Further parts of the code *)

(** ** The session store: existence, deletion, summary *)

(** [access(path, constants.F_OK)]: any entry at [path] will do. *)
Definition access (path : string) (w : World) : outcome unit * World :=
  let w := logCall (CallAccess path) w in
  match files w !! path with
  | Some (Unreachable code) => (Thrown (ErrnoException code), w)
  | Some _ => (Returned tt, w)
  | None => (Thrown (ErrnoException "ENOENT"), w)
  end.

(** [unlink(path)].  On a directory the call fails with EISDIR (EPERM on
    some systems; the session store treats the two alike). *)
Definition unlink (path : string) (w : World) : outcome unit * World :=
  let w := logCall (CallUnlink path) w in
  match files w !! path with
  | Some (File _) =>
      (Returned tt,
       {| files := delete path (files w);
          calls := calls w; console := console w |})
  | Some Directory => (Thrown (ErrnoException "EISDIR"), w)
  | Some (Unreachable code) => (Thrown (ErrnoException code), w)
  | None => (Thrown (ErrnoException "ENOENT"), w)
  end.

Section SessionFiles.

Variable join : string -> string -> string.

Definition hasPersistedSession (cwd : string) (w : World) : bool * World :=
  let filePath := getSessionFilePath join cwd in
  match access filePath w with
  | (Returned _, w) => (true, w)
  | (Thrown _, w) => (false, w)
  end.

Definition deletePersistedSession (cwd : string) (w : World)
  : outcome bool * World :=
  let filePath := getSessionFilePath join cwd in
  match unlink filePath w with
  | (Returned _, w) => (Returned true, w)
  | (Thrown error, w) =>
      if hasCode error "ENOENT" then (Returned false, w)
      else (Thrown error, w)
  end.

End SessionFiles.

Record SessionSummary := mkSessionSummary {
  sum_sessionId : string;
  sum_status : SessionStatus;
  sum_startedAt : string;
  sum_updatedAt : string;
  sum_currentIteration : Z;
  sum_maxIterations : Z;
  sum_tasksCompleted : Z;
  sum_totalTasks : Z;
  sum_isPaused : bool;
  sum_isResumable : bool;
  sum_agentPlugin : string;
  sum_trackerPlugin : string;
  sum_epicId : option string;
  sum_prdPath : option string
}.

Definition getSessionSummary (state : PersistedSessionState) : SessionSummary :=
  {| sum_sessionId := sessionId state;
     sum_status := status state;
     sum_startedAt := startedAt state;
     sum_updatedAt := updatedAt state;
     sum_currentIteration := currentIteration state;
     sum_maxIterations := maxIterations state;
     sum_tasksCompleted := tasksCompleted state;
     sum_totalTasks := totalTasks (trackerState state);
     sum_isPaused := isPaused state;
     sum_isResumable := isSessionResumable state;
     sum_agentPlugin := agentPlugin state;
     sum_trackerPlugin := plugin (trackerState state);
     sum_epicId := epicId (trackerState state);
     sum_prdPath := prdPath (trackerState state) |}.

(** The mutators as steps, for statements about all of them. *)
Inductive Mutation : Type :=
| MUpdate (r : IterationResult)
| MPause (now : string)
| MResume
| MComplete
| MFail (err : option string)
| MSkip (taskId : string).

Definition applyMutation (m : Mutation) (s : PersistedSessionState)
  : PersistedSessionState :=
  match m with
  | MUpdate r => updateSessionAfterIteration s r
  | MPause now => pauseSession now s
  | MResume => resumePersistedSession s
  | MComplete => completeSession s
  | MFail err => failSession s err
  | MSkip taskId => addSkippedTask s taskId
  end.

(** The mutators that set the status. *)
Definition statusMutation (m : Mutation) : bool :=
  match m with
  | MPause _ | MResume | MComplete | MFail _ => true
  | MUpdate _ | MSkip _ => false
  end.

(** The iteration numbers [first], [first + 1], ... of [n] records. *)
Fixpoint numbersFrom (first : Z) (n : nat) : list Z :=
  match n with
  | O => []
  | S k => first :: numbersFrom (first + 1) k
  end.


(** ** The Qwen plugin: display events *)

(** ToBoolean of a value read from a parsed object; [None] is [undefined]. *)
Definition truthy (v : option json) : bool :=
  match v with
  | None | Some JNull => false
  | Some (JBool b) => b
  | Some (JNum n) => negb (n =? 0)
  | Some (JStr s) => negb (isEmpty s)
  | Some (JArr _) | Some (JObj _) => true
  end.

(** [a || b] *)
Definition jsOr (a b : option json) : option json :=
  if truthy a then a else b.

(** [a || d] for a [d] that is a value *)
Definition jsOrElse (a : option json) (d : json) : json :=
  match a with
  | Some x => if truthy a then x else d
  | None => d
  end.

(** [v?.k]; also [v.k] where [v] is neither [null] nor [undefined].  The
    property names concerned are defined by no prototype, so a string, a
    number, a boolean and an array have none of them. *)
Definition getOpt (k : string) (v : option json) : option json :=
  match v with
  | Some x => getProp k x
  | None => None
  end.

(** [v === 'lit'] *)
Definition isStr (v : option json) (lit : string) : bool :=
  match v with
  | Some (JStr s) => String.eqb s lit
  | _ => false
  end.

(** The object literals that [parseQwenEvent] pushes. *)
Inductive AgentDisplayEvent : Type :=
| EvText (content : string)
| EvToolUse (name : json) (input : option json)
| EvError (message : string)
| EvToolResult.

(** [typeof v === 'object'] *)
Definition typeofObject (v : json) : bool :=
  match v with
  | JNull | JArr _ | JObj _ => true
  | _ => false
  end.

(** [JSON.stringify] of a parsed value does not throw, so the [catch] of
    the source is never entered.  [String(err)] at the end is reached for
    a boolean or a number only. *)
Definition extractErrorMessage (err : option json) : string :=
  match err with
  | None => EmptyString
  | Some v =>
      if negb (truthy err) then EmptyString
      else match v with
           | JStr s => s
           | _ =>
               if typeofObject v then
                 match getProp "message" v with
                 | Some (JStr m) => m
                 | _ => match getProp "error" v with
                        | Some (JStr e) => e
                        | _ => JSON_stringify v 0
                        end
                 end
               else match v with
                    | JBool b => if b then "true" else "false"
                    | JNum n => Number_toString n
                    | _ => "null"
                    end
           end
  end.

(** [item.text || item.content || item] of the [map] callback: reading a
    property of [null] throws. *)
Definition itemText (item : json) : outcome json :=
  match item with
  | JNull => Thrown TypeError
  | _ => Returned (jsOrElse (jsOr (getProp "text" item) (getProp "content" item)) item)
  end.

(** [items.map(itemText)], the callback applied from left to right *)
Fixpoint mapItems (items : list json) : outcome (list json) :=
  match items with
  | [] => Returned []
  | item :: rest =>
      match itemText item with
      | Thrown e => Thrown e
      | Returned x =>
          match mapItems rest with
          | Thrown e => Thrown e
          | Returned xs => Returned (x :: xs)
          end
      end
  end.

(** [.filter((text) => text && typeof text === 'string')], as strings *)
Fixpoint nonEmptyStrings (l : list json) : list string :=
  match l with
  | [] => []
  | JStr s :: rest => if isEmpty s then nonEmptyStrings rest else s :: nonEmptyStrings rest
  | _ :: rest => nonEmptyStrings rest
  end.

(** [if (content && typeof content === 'string') events.push(...)] *)
Definition textEvents (content : option json) : list AgentDisplayEvent :=
  match content with
  | Some (JStr s) => if isEmpty s then [] else [EvText s]
  | _ => []
  end.

Definition isAssistant (event : json) : bool :=
  isStr (getProp "type" event) "assistant"
  || isStr (getProp "type" event) "message"
  || isStr (getProp "role" event) "assistant".

Definition isUser (event : json) : bool :=
  isStr (getProp "type" event) "user" || isStr (getProp "role" event) "user".

Definition parseQwenEvent (event : json) : outcome (list AgentDisplayEvent) :=
  if negb (truthy (Some event)) || negb (typeofObject event) then Returned []
  else
    let type := getProp "type" event in
    if isAssistant event && negb (isUser event) then
      let content :=
        jsOr (jsOr (getProp "content" event) (getProp "text" event))
             (getOpt "content" (getProp "delta" event)) in
      let messageContent := getOpt "content" (getProp "message" event) in
      if negb (truthy content) && truthy messageContent then
        match messageContent with
        | Some (JArr items) =>
            match mapItems items with
            | Thrown e => Thrown e
            | Returned texts =>
                Returned
                  (textEvents (Some (JStr (String.concat " " (nonEmptyStrings texts)))))
            end
        | _ => Returned (textEvents messageContent)
        end
      else Returned (textEvents content)
    else if isStr type "tool_call" || isStr type "function_call" then
      let toolName :=
        jsOrElse (jsOr (getProp "name" event)
                       (getOpt "name" (getProp "function" event)))
                 (JStr "unknown") in
      let toolInput :=
        jsOr (jsOr (getProp "arguments" event) (getProp "args" event))
             (getProp "input" event) in
      Returned [EvToolUse toolName toolInput]
    else if isStr type "tool_result" || isStr type "function_result" then
      let isError :=
        match getProp "is_error" event with Some (JBool true) => true | _ => false end
        || match getProp "error" event with Some _ => true | None => false end in
      if isError
      then Returned [EvError (extractErrorMessage (getProp "error" event)); EvToolResult]
      else Returned [EvToolResult]
    else if isStr type "error" then
      let fromError := extractErrorMessage (getProp "error" event) in
      let fromMessage := extractErrorMessage (getProp "message" event) in
      let errorMsg :=
        if negb (isEmpty fromError) then fromError
        else if negb (isEmpty fromMessage) then fromMessage
        else "Unknown error" in
      Returned [EvError errorMsg]
    else Returned [].

(** White space and line terminators that [String.prototype.trim] strips,
    among the code units below 256: TAB, LF, VT, FF, CR, SP and NBSP. *)
Definition isTrimSpace (c : ascii) : bool :=
  match N_of_ascii c with
  | 9%N | 10%N | 11%N | 12%N | 13%N | 32%N | 160%N => true
  | _ => false
  end.

Fixpoint trimStart (s : string) : string :=
  match s with
  | String c r => if isTrimSpace c then trimStart r else s
  | EmptyString => EmptyString
  end.

Fixpoint trimEnd (s : string) : string :=
  match s with
  | EmptyString => EmptyString
  | String c r =>
      match trimEnd r with
      | EmptyString => if isTrimSpace c then EmptyString else String c EmptyString
      | r' => String c r'
      end
  end.

Definition trim (s : string) : string := trimEnd (trimStart s).

(** What a [catch] that returns [[]] makes of an outcome. *)
Definition orNoEvents (r : outcome (list AgentDisplayEvent)) : list AgentDisplayEvent :=
  match r with
  | Returned evs => evs
  | Thrown _ => []
  end.

Definition parseQwenJsonLine (jsonLine : string) : list AgentDisplayEvent :=
  if isEmpty jsonLine || (String.length (trim jsonLine) =? 0)%nat then []
  else match JSON_parse (trim jsonLine) with
       | None => []
       | Some event => orNoEvents (parseQwenEvent event)
       end.

(** [for (const obj of objects) allEvents.push(...parseQwenEvent(obj))] *)
Fixpoint collectEvents (objects : list json) (allEvents : list AgentDisplayEvent)
  : outcome (list AgentDisplayEvent) :=
  match objects with
  | [] => Returned allEvents
  | obj :: rest =>
      match parseQwenEvent obj with
      | Thrown e => Thrown e
      | Returned evs => collectEvents rest (allEvents ++ evs)
      end
  end.

(** [None] would be a scan that needs more rounds than
    [extractJsonObjects] has. *)
Definition parseQwenOutputToEvents (data : string)
  : option (outcome (list AgentDisplayEvent)) :=
  match extractJsonObjects data with
  | Some (objects, _) => Some (collectEvents objects [])
  | None => None
  end.

(** ** The Qwen plugin: the output stream of [execute] *)

(** The callbacks of the caller's [options] that are present. *)
Record ExecuteOptions := mkExecuteOptions {
  onStdout : bool;
  onStdoutSegments : bool;
  onJsonlMessage : bool
}.

(** What [execute]'s handlers do to the outside: the line appended to the
    raw log, and the calls of the caller's callbacks.  [CallStdoutSegments]
    and [CallStdout] carry the events that are passed on through
    [processAgentEventsToSegments] and [processAgentEvents]. *)
Inductive Effect : Type :=
| AppendRawLog (line : string)
| CallJsonlMessage (obj : json)
| CallStdoutSegments (events : list AgentDisplayEvent)
| CallStdout (events : list AgentDisplayEvent).

(** The closure of [execute]: [internalBuffer] and the effects so far. *)
Record ExecState := mkExecState {
  internalBuffer : string;
  effects : list Effect
}.

Definition emit (opt : bool) (e : Effect) (st : ExecState) : ExecState :=
  if opt then {| internalBuffer := internalBuffer st; effects := effects st ++ [e] |}
  else st.

(** The [for] loop of [processBuffer]. *)
Fixpoint processObjects (options : ExecuteOptions) (objects : list json)
  (allEvents : list AgentDisplayEvent) (st : ExecState)
  : outcome (list AgentDisplayEvent) * ExecState :=
  match objects with
  | [] => (Returned allEvents, st)
  | obj :: rest =>
      let st := emit (onJsonlMessage options) (CallJsonlMessage obj) st in
      match parseQwenEvent obj with
      | Thrown e => (Thrown e, st)
      | Returned evs => processObjects options rest (allEvents ++ evs) st
      end
  end.

(** The scan always returns, so the [None] branch below is never taken. *)
Definition processBuffer (options : ExecuteOptions) (st : ExecState)
  : outcome unit * ExecState :=
  if isEmpty (internalBuffer st) then (Returned tt, st)
  else match extractJsonObjects (internalBuffer st) with
       | None => (Returned tt, st)
       | Some (objects, remaining) =>
           let st := {| internalBuffer := remaining; effects := effects st |} in
           match objects with
           | [] => (Returned tt, st)
           | _ =>
               match processObjects options objects [] st with
               | (Thrown e, st) => (Thrown e, st)
               | (Returned allEvents, st) =>
                   match allEvents with
                   | [] => (Returned tt, st)
                   | _ =>
                       let st := emit (onStdoutSegments options)
                                      (CallStdoutSegments allEvents) st in
                       let st := emit (onStdout options) (CallStdout allEvents) st in
                       (Returned tt, st)
                   end
               end
           end
       end.

(** The [onStdout] handler that [execute] passes on: it is there only when
    the caller gave one of the three callbacks. *)
Definition handlesStdout (options : ExecuteOptions) : bool :=
  onStdout options || onStdoutSegments options || onJsonlMessage options.

(** The handler itself: the line for the raw log (an error of the append
    is swallowed), [internalBuffer += data], [processBuffer()]. *)
Definition stdoutHandler (options : ExecuteOptions) (data : string) (st : ExecState)
  : outcome unit * ExecState :=
  let st := emit true (AppendRawLog ("[STDOUT] " +:+ data +:+ str1 newline)) st in
  let st := {| internalBuffer := internalBuffer st +:+ data; effects := effects st |} in
  processBuffer options st.

(** The handler called once for each piece of output, in order; without a
    handler the output is not looked at, and an exception of the handler
    ends the run. *)
Fixpoint feed (options : ExecuteOptions) (pieces : list string) (st : ExecState)
  : outcome unit * ExecState :=
  match pieces with
  | [] => (Returned tt, st)
  | data :: rest =>
      if handlesStdout options then
        match stdoutHandler options data st with
        | (Thrown e, st) => (Thrown e, st)
        | (Returned _, st) => feed options rest st
        end
      else feed options rest st
  end.

(** The [processBuffer()] of the [onEnd] handler. *)
Definition endHandler (options : ExecuteOptions) (st : ExecState)
  : outcome unit * ExecState :=
  processBuffer options st.

Definition initialExecState : ExecState :=
  {| internalBuffer := EmptyString; effects := [] |}.

(** The objects and the events that reached the caller. *)
Fixpoint jsonlMessages (l : list Effect) : list json :=
  match l with
  | [] => []
  | CallJsonlMessage obj :: rest => obj :: jsonlMessages rest
  | _ :: rest => jsonlMessages rest
  end.

Fixpoint stdoutEvents (l : list Effect) : list AgentDisplayEvent :=
  match l with
  | [] => []
  | CallStdout evs :: rest => evs ++ stdoutEvents rest
  | _ :: rest => stdoutEvents rest
  end.

Fixpoint segmentEvents (l : list Effect) : list AgentDisplayEvent :=
  match l with
  | [] => []
  | CallStdoutSegments evs :: rest => evs ++ segmentEvents rest
  | _ :: rest => segmentEvents rest
  end.

(** Vocabulary of the statements about the scanner. *)
Definition withObjects (acc : list json) (r : option (list json * string))
  : option (list json * string) :=
  match r with
  | Some (objects, remaining) => Some (acc ++ objects, remaining)
  | None => None
  end.

Definition scanMore (r : option (list json * string)) (more : string)
  : option (list json * string) :=
  match r with
  | Some (objects, remaining) =>
      withObjects objects (extractJsonObjects (remaining +:+ more))
  | None => None
  end.

Definition startsWithBrace (s : string) : bool :=
  match s with
  | String c _ => Ascii.eqb c "{"
  | EmptyString => false
  end.

Definition allTrimSpace (s : string) : bool :=
  forallb isTrimSpace (list_ascii_of_string s).

(** All the output, as one text. *)
Definition wholeOutput (pieces : list string) : string :=
  fold_right String.append EmptyString pieces.

(** An assistant message as Qwen prints it, and an output that arrives in
    three pieces cut inside the objects and ends in the middle of one. *)
Definition assistantLine : json :=
  JObj [("type", JStr "assistant"); ("content", JStr "hi {there}")].

Definition toolLine : json :=
  JObj [("type", JStr "tool_result"); ("error", JObj [("code", JNum 7)])].

Definition samplePieces : list string :=
  [ "noise " +:+ takeStr 9 (JSON_stringify assistantLine 0);
    dropStr 9 (JSON_stringify assistantLine 0) +:+ str1 newline
      +:+ takeStr 20 (JSON_stringify toolLine 0);
    dropStr 20 (JSON_stringify toolLine 0) +:+ str1 newline
      +:+ takeStr 12 (JSON_stringify assistantLine 0) ].

Definition allOptions : ExecuteOptions := mkExecuteOptions true true true.

(** An error event, and an error object with neither a [message] nor an
    [error] that is a string. *)
Definition errorLine : json :=
  JObj [("type", JStr "error"); ("error", JObj [("message", JStr "rate limit")])].

Definition codeOnlyError : json := JObj [("code", JNum 429); ("retry", JBool true)].

(** An assistant message whose content array holds a [null]. *)
Definition nullContentLine : json :=
  JObj [("type", JStr "assistant");
        ("message", JObj [("content", JArr [JObj [("text", JStr "a")]; JNull])])].

(** ** The Qwen plugin: configuration *)

(** The plugin's own fields [model] and [yoloMode].  [defaultTimeout] and
    the other fields of [BaseAgentPlugin] are read by none of the methods
    below. *)
Record QwenCliAgentPlugin := mkQwenCliAgentPlugin {
  q_model : option string;
  q_yoloMode : bool
}.

(** [new QwenCliAgentPlugin()] *)
Definition createQwenCliAgent : QwenCliAgentPlugin :=
  {| q_model := None; q_yoloMode := true |}.

(** The part of [initialize] after [super.initialize(config)], on the
    plugin's own fields. *)
Definition initialize (config : json) (this : QwenCliAgentPlugin)
  : QwenCliAgentPlugin :=
  let this :=
    match getProp "model" config with
    | Some (JStr m) =>
        if (0 <? String.length m)%nat
        then {| q_model := Some m; q_yoloMode := q_yoloMode this |}
        else this
    | _ => this
    end in
  match getProp "yoloMode" config with
  | Some (JBool b) => {| q_model := q_model this; q_yoloMode := b |}
  | _ => this
  end.

Definition buildArgs (this : QwenCliAgentPlugin) : list string :=
  let args := ["--output-format"; "stream-json"] in
  let args :=
    match q_model this with
    | Some m => if isEmpty m then args else args ++ ["-m"; m]
    | None => args
    end in
  if q_yoloMode this then args ++ ["--yolo"] else args.

(** [model.startsWith('qwen-')] *)
Definition startsWithQwen (m : string) : bool := String.prefix "qwen-" m.

Definition validateSetup (answers : json) : option string :=
  match getProp "model" answers with
  | Some (JStr m) =>
      if negb (isEmpty m)
         && negb (includes ["coder-model"; "vision-model"] m)
         && negb (startsWithQwen m)
      then Some ("Invalid model format. Model must be " +:+ str1 dquote
                 +:+ "coder-model" +:+ str1 dquote +:+ ", " +:+ str1 dquote
                 +:+ "vision-model" +:+ str1 dquote +:+ ", or start with "
                 +:+ str1 dquote +:+ "qwen-" +:+ str1 dquote +:+ " prefix.")
      else None
  | _ => None
  end.

Definition validateModel (m : string) : option string :=
  if isEmpty m || includes ["coder-model"; "vision-model"] m || startsWithQwen m
  then None
  else Some ("Invalid model " +:+ str1 dquote +:+ m +:+ str1 dquote
             +:+ ". Model must start with " +:+ str1 dquote +:+ "qwen-"
             +:+ str1 dquote +:+ " prefix.").

(** The values of the choices that [getSetupQuestions] offers for the
    model. *)
Definition modelChoices : list string := [EmptyString; "coder-model"; "vision-model"].

(** [initialize] called with each of [configs] in turn. *)
Definition initializeAll (configs : list json) (this : QwenCliAgentPlugin)
  : QwenCliAgentPlugin :=
  fold_left (fun p c => initialize c p) configs this.

(** A configuration with a model that [validateModel] accepts. *)
Definition coderConfig : json := JObj [("model", JStr "qwen-coder"); ("yoloMode", JBool false)].

(** ** The status command: finding the session *)

Definition console_log (msg : string) (w : World) : World :=
  {| files := files w; calls := calls w; console := console w ++ [msg] |}.

(** The [for] loop over [args] that looks for [--cwd]; [cwd] is
    [process.cwd()].  An index past the end reads [undefined]. *)
Fixpoint parseCwd (args : list string) (cwd : string) : string :=
  match args with
  | [] => cwd
  | a :: rest =>
      match rest with
      | next :: _ =>
          if String.eqb a "--cwd" && negb (isEmpty next) then next
          else parseCwd rest cwd
      | [] => cwd
      end
  end.

(** What [executeStatusCommand] goes on to show. *)
Inductive StatusLookup : Type :=
| NoSession
| Display (session : json).

Section StatusCommand.

Variable join : string -> string -> string.

(** [executeStatusCommand] up to the display: the working directory from
    the arguments, the check for the file and the load.  The display that
    follows formats dates in the local time zone and is not modelled. *)
Definition executeStatusCommand (args : list string) (processCwd : string)
  (w : World) : outcome StatusLookup * World :=
  let cwd := parseCwd args processCwd in
  let '(hasSession, w) := hasPersistedSession join cwd w in
  if negb hasSession then
    let w := console_log "No session found." w in
    let w := console_log EmptyString w in
    let w := console_log "Start a new session with: ralph-tui run" w in
    (Returned NoSession, w)
  else
    match loadPersistedSession join cwd w with
    | (Thrown e, w) => (Thrown e, w)
    | (Returned session, w) =>
        if negb (truthy session)
        then (Returned NoSession, console_log "No session found." w)
        else match session with
             | Some parsed => (Returned (Display parsed), w)
             | None => (Returned NoSession, w)
             end
    end.

End StatusCommand.

(** * Properties *)

(** ** Pure mutators *)

Ltac frame_fields :=
  let f := fresh "f" in
  let Hf := fresh "Hf" in
  intros f Hf; destruct f; simpl; try reflexivity;
  exfalso; apply Hf; simpl; tauto.

Lemma lookup_map {A B} (f : A -> B) (l : list A) (i : nat) :
  map f l !! i = f <$> (l !! i).
Proof.
  revert i. induction l as [|a l IH]; intros [|i]; simpl; auto.
Qed.

Lemma markTask_not_completed r t :
  ir_taskCompleted r = false -> markTask r t = t.
Proof.
  intros H. unfold markTask. rewrite H, andb_false_r. reflexivity.
Qed.

Lemma markTask_other r t :
  snap_id t <> task_id (ir_task r) -> markTask r t = t.
Proof.
  intros H. unfold markTask.
  destruct (String.eqb_spec (snap_id t) (task_id (ir_task r))) as [E|E];
    [contradiction | reflexivity].
Qed.

Lemma markTask_hit r t :
  ir_taskCompleted r = true -> snap_id t = task_id (ir_task r) ->
  markTask r t =
  {| snap_id := snap_id t; snap_title := snap_title t;
     snap_status := "completed"; completedInSession := true |}.
Proof.
  intros Hc Hid. unfold markTask.
  rewrite Hc, Hid, String.eqb_refl. reflexivity.
Qed.

(** C4. [updateSessionAfterIteration s r] appends the record of [r] and
    nothing else to [iterations], keeping every earlier record; the record
    holds [r.iteration], [r.status], [r.task.id], [r.task.title],
    [r.taskCompleted], [r.durationMs], [r.error], [r.startedAt] and
    [r.endedAt], each under its name; it sets
    [currentIteration] to [r.iteration]; it adds 1 to [tasksCompleted] when
    [r.taskCompleted] is true and 0 otherwise; in the tracker snapshot it
    marks the tasks whose id is [r.task.id] as completed when
    [r.taskCompleted] is true and leaves every other task, and all tasks
    when [r.taskCompleted] is false, as they were.  No other field changes. *)
Theorem updateSessionAfterIteration_spec
  (s : PersistedSessionState) (r : IterationResult) :
  let s' := updateSessionAfterIteration s r in
  iterations s' = iterations s ++ [iterationRecord r]
  /\ iterations s'
     = iterations s
       ++ [{| pir_iteration := ir_iteration r;
              pir_status := ir_status r;
              pir_taskId := task_id (ir_task r);
              pir_taskTitle := task_title (ir_task r);
              pir_taskCompleted := ir_taskCompleted r;
              pir_durationMs := ir_durationMs r;
              pir_error := ir_error r;
              pir_startedAt := ir_startedAt r;
              pir_endedAt := ir_endedAt r |}]
  /\ length (iterations s') = S (length (iterations s))
  /\ (forall i x, iterations s !! i = Some x -> iterations s' !! i = Some x)
  /\ currentIteration s' = ir_iteration r
  /\ tasksCompleted s' = tasksCompleted s + (if ir_taskCompleted r then 1 else 0)
  /\ (tasksCompleted s' = tasksCompleted s + 1 <-> ir_taskCompleted r = true)
  /\ length (tasks (trackerState s')) = length (tasks (trackerState s))
  /\ (forall i t, tasks (trackerState s) !! i = Some t ->
        exists t', tasks (trackerState s') !! i = Some t'
          /\ snap_id t' = snap_id t /\ snap_title t' = snap_title t
          /\ (ir_taskCompleted r = true /\ snap_id t = task_id (ir_task r) ->
                snap_status t' = "completed" /\ completedInSession t' = true)
          /\ (ir_taskCompleted r = false \/ snap_id t <> task_id (ir_task r) ->
                t' = t))
  /\ plugin (trackerState s') = plugin (trackerState s)
  /\ epicId (trackerState s') = epicId (trackerState s)
  /\ prdPath (trackerState s') = prdPath (trackerState s)
  /\ totalTasks (trackerState s') = totalTasks (trackerState s)
  /\ agreeExcept [F_currentIteration; F_tasksCompleted; F_trackerState; F_iterations]
       s s'.
Proof.
  cbn zeta. unfold updateSessionAfterIteration; simpl.
  repeat split; try reflexivity.
  - rewrite length_app. simpl. lia.
  - intros i x Hx. apply lookup_app_l_Some. exact Hx.
  - destruct (ir_taskCompleted r); lia.
  - destruct (ir_taskCompleted r); [reflexivity | lia].
  - intros H. rewrite H. reflexivity.
  - unfold updatedTasks. apply length_map.
  - intros i t Ht. exists (markTask r t). unfold updatedTasks.
    rewrite lookup_map, Ht. simpl.
    assert (Hid : snap_id (markTask r t) = snap_id t
                  /\ snap_title (markTask r t) = snap_title t).
    { unfold markTask.
      destruct (String.eqb _ _ && _); simpl; split; reflexivity. }
    destruct Hid as [Hid Htitle].
    repeat split; try assumption.
    + destruct H as [Hc Hi]. rewrite (markTask_hit r t Hc Hi). reflexivity.
    + destruct H as [Hc Hi]. rewrite (markTask_hit r t Hc Hi). reflexivity.
    + intros [Hc | Hi];
        [apply markTask_not_completed | apply markTask_other]; assumption.
  - frame_fields.
Qed.

(** C6. [isSessionResumable s] is true exactly when the status is running,
    paused or interrupted, and false for completed and failed. *)
Theorem isSessionResumable_iff (s : PersistedSessionState) :
  (isSessionResumable s = true <->
     status s = Running \/ status s = Paused \/ status s = Interrupted)
  /\ (status s = Completed \/ status s = Failed -> isSessionResumable s = false).
Proof.
  unfold isSessionResumable.
  destruct (status s); simpl; split; try split;
    intros; try reflexivity; try discriminate; auto;
    repeat match goal with
           | H : _ \/ _ |- _ => destruct H
           end; discriminate.
Qed.

Lemma includes_In l x : includes l x = true <-> In x l.
Proof.
  unfold includes. rewrite existsb_exists. split.
  - intros (y & Hy & E). apply String.eqb_eq in E. subst. exact Hy.
  - intros H. exists x. split; [exact H | apply String.eqb_refl].
Qed.

Lemma includes_app_self l x : includes (l ++ [x]) x = true.
Proof. apply includes_In, in_or_app. right. left. reflexivity. Qed.

(** C7, as stated, fails on a state that already lists the id twice:
    [addSkippedTask] returns it unchanged, with two occurrences. *)
Lemma addSkippedTask_keeps_repeats :
  count_occ string_dec (skippedTaskIds (addSkippedTask twiceSkipped "a")) "a"
  <> 1%nat.
Proof. vm_compute. discriminate. Qed.

(** C7 (amended). [addSkippedTask s t] lists [t] at least once, and
    exactly once when [t] occurs at most once in [s.skippedTaskIds]; it
    keeps every other entry in place (the list is [s.skippedTaskIds], with
    [t] appended if it was missing) and changes no other field; adding [t]
    a second time changes nothing. *)
Theorem addSkippedTask_dedup (s : PersistedSessionState) (t : string) :
  let s' := addSkippedTask s t in
  ((count_occ string_dec (skippedTaskIds s) t <= 1)%nat ->
   count_occ string_dec (skippedTaskIds s') t = 1%nat)
  /\ (1 <= count_occ string_dec (skippedTaskIds s') t)%nat
  /\ skippedTaskIds s' =
       (if includes (skippedTaskIds s) t then skippedTaskIds s
        else skippedTaskIds s ++ [t])
  /\ (forall x, x <> t ->
        count_occ string_dec (skippedTaskIds s') x
        = count_occ string_dec (skippedTaskIds s) x)
  /\ agreeExcept [F_skippedTaskIds] s s'
  /\ addSkippedTask s' t = s'.
Proof.
  cbn zeta. unfold addSkippedTask at 1 2 3 4 5.
  destruct (includes (skippedTaskIds s) t) eqn:Hinc.
  - assert (Hpos : (1 <= count_occ string_dec (skippedTaskIds s) t)%nat).
    { apply includes_In in Hinc.
      apply (count_occ_In string_dec) in Hinc. lia. }
    repeat split.
    + intros Hle. lia.
    + exact Hpos.
    + frame_fields.
    + unfold addSkippedTask. rewrite Hinc. rewrite Hinc. reflexivity.
  - assert (Hzero : count_occ string_dec (skippedTaskIds s) t = 0%nat).
    { apply (count_occ_not_In string_dec).
      intros Hin. apply includes_In in Hin. congruence. }
    assert (Hone : count_occ string_dec (skippedTaskIds s ++ [t]) t = 1%nat).
    { rewrite count_occ_app, Hzero. simpl.
      destruct (string_dec t t) as [_|N]; [reflexivity | contradiction]. }
    simpl. repeat split.
    + intros _. exact Hone.
    + rewrite Hone. lia.
    + intros x Hx. rewrite count_occ_app. simpl.
      destruct (string_dec t x) as [E|_]; [congruence | lia].
    + frame_fields.
    + unfold addSkippedTask. rewrite Hinc. unfold addSkippedTask. simpl.
      rewrite includes_app_self. reflexivity.
Qed.

Lemma addSkippedTask_dedup_witness :
  count_occ string_dec (skippedTaskIds (addSkippedTask skippedSample "b")) "b"
  = 1%nat.
Proof.
  refine (proj1 (addSkippedTask_dedup skippedSample "b") _).
  vm_compute. lia.
Defined.

(** C9. On a running session that is not paused and has no [pausedAt],
    resuming after pausing gives the session back; on every session
    [pauseSession] sets [status] to paused, [isPaused] to true and
    [pausedAt] to the current time, and leaves every other field as it was. *)
Theorem pause_resume_roundtrip (now : string) (s : PersistedSessionState) :
  (status s = Running -> isPaused s = false -> pausedAt s = None ->
   resumePersistedSession (pauseSession now s) = s)
  /\ status (pauseSession now s) = Paused
  /\ isPaused (pauseSession now s) = true
  /\ pausedAt (pauseSession now s) = Some now
  /\ agreeExcept [F_status; F_isPaused; F_pausedAt] s (pauseSession now s).
Proof.
  repeat split.
  - intros Hs Hp Ha. destruct s; simpl in *. subst. reflexivity.
  - frame_fields.
Qed.

Lemma pause_resume_roundtrip_witness :
  resumePersistedSession (pauseSession t1 sampleSession) = sampleSession.
Proof.
  apply (proj1 (pause_resume_roundtrip t1 sampleSession)); reflexivity.
Defined.

(** ** Remote constants *)

(** C8. The token lifetimes are 90 days, 24 hours and 1 hour, the reconnect
    defaults are 1000 ms, 30000 ms, multiplier 2, 10 retries and a silent
    threshold of 3; these are the values the repository's tests expect. *)
Theorem remote_constants :
  SERVER_TOKEN_DAYS TOKEN_LIFETIMES = 90
  /\ CONNECTION_TOKEN_HOURS TOKEN_LIFETIMES = 24
  /\ REFRESH_THRESHOLD_HOURS TOKEN_LIFETIMES = 1
  /\ initialDelayMs DEFAULT_RECONNECT_CONFIG = 1000
  /\ maxDelayMs DEFAULT_RECONNECT_CONFIG = 30000
  /\ backoffMultiplier DEFAULT_RECONNECT_CONFIG = 2
  /\ maxRetries DEFAULT_RECONNECT_CONFIG = 10
  /\ silentRetryThreshold DEFAULT_RECONNECT_CONFIG = 3
  /\ test_TOKEN_LIFETIMES TOKEN_LIFETIMES = true
  /\ test_DEFAULT_RECONNECT_CONFIG DEFAULT_RECONNECT_CONFIG = true.
Proof. repeat split. Qed.

(** ** Strings *)

#[local] Arguments String.append : simpl nomatch.

Lemma str_app_cons a s t : String a s +:+ t = String a (s +:+ t).
Proof. reflexivity. Qed.

Lemma str_app_nil_l t : EmptyString +:+ t = t.
Proof. reflexivity. Qed.

Lemma str_app_nil_r s : s +:+ EmptyString = s.
Proof. induction s as [|a s IH]; simpl; [reflexivity | now rewrite IH]. Qed.

Lemma str_app_assoc s t u : (s +:+ t) +:+ u = s +:+ (t +:+ u).
Proof. induction s as [|a s IH]; simpl; [reflexivity | now rewrite IH]. Qed.

Lemma str_length_app s t :
  String.length (s +:+ t) = (String.length s + String.length t)%nat.
Proof. induction s as [|a s IH]; simpl; [reflexivity | now rewrite IH]. Qed.

(** ** JSON: induction *)

Lemma json_ind (P : json -> Prop) :
  P JNull ->
  (forall b, P (JBool b)) ->
  (forall n, P (JNum n)) ->
  (forall s, P (JStr s)) ->
  (forall items, Forall P items -> P (JArr items)) ->
  (forall members, Forall (fun m => P (snd m)) members -> P (JObj members)) ->
  forall v, P v.
Proof.
  intros Hnull Hbool Hnum Hstr Harr Hobj.
  fix IH 1. intros [ | b | n | s | items | members].
  - exact Hnull.
  - apply Hbool.
  - apply Hnum.
  - apply Hstr.
  - apply Harr. induction items as [|x xs IHxs]; constructor; [apply IH | exact IHxs].
  - apply Hobj. induction members as [|[k x] ms IHms]; constructor;
      [apply IH | exact IHms].
Qed.

(** ** JSON: characters *)

Lemma skipWs_app w s : allWs w = true -> skipWs (w +:+ s) = skipWs s.
Proof.
  unfold allWs. induction w as [|c w IH]; simpl; intros H; [reflexivity|].
  apply andb_true_iff in H as [Hc Hw]. rewrite Hc. auto.
Qed.

Lemma allWs_spaces n : allWs (spaces n) = true.
Proof. induction n; simpl; auto. Qed.

Lemma allWs_app a b : allWs a = true -> allWs b = true -> allWs (a +:+ b) = true.
Proof.
  unfold allWs. induction a as [|c a IH]; simpl; intros Ha Hb; [exact Hb|].
  apply andb_true_iff in Ha as [Hc Ha]. rewrite Hc. simpl. auto.
Qed.

Ltac all_chars c := destruct c as [[] [] [] [] [] [] [] []].

Lemma valueStart_facts c :
  valueStart c = true ->
  isWs c = false /\ Ascii.eqb c "]" = false /\ Ascii.eqb c "}" = false.
Proof. all_chars c; vm_compute; intros H; try discriminate H; auto. Qed.

Lemma readStringBody_quoteChar c tail :
  readStringBody (quoteChar c +:+ tail) = consChar c (readStringBody tail).
Proof. all_chars c; reflexivity. Qed.

Lemma readStringBody_quoteBody s rest :
  readStringBody (quoteBody s +:+ String dquote rest) = Some (s, rest).
Proof.
  induction s as [|c s IH]; simpl.
  - reflexivity.
  - rewrite str_app_assoc, readStringBody_quoteChar, IH. reflexivity.
Qed.

(** ** JSON: numbers *)

Lemma readDigits_string_of_uint u rest :
  match rest with
  | EmptyString => True
  | String c _ => isDigit c = false
  end ->
  readDigits (NilEmpty.string_of_uint u +:+ rest) = (u, rest).
Proof.
  intros Hrest. induction u as [|u IH|u IH|u IH|u IH|u IH|u IH|u IH|u IH|u IH|u IH];
    simpl; try (rewrite IH; reflexivity).
  destruct rest as [|c r]; simpl; [reflexivity | now rewrite Hrest].
Qed.

Lemma numberEnds_not_digit rest :
  numberEnds rest = true ->
  match rest with
  | EmptyString => True
  | String c _ => isDigit c = false
  end.
Proof.
  destruct rest as [|c r]; simpl; [trivial|].
  intros H. apply negb_true_iff in H.
  repeat (apply orb_false_iff in H as [H ?]). exact H.
Qed.

Lemma unorm_leading_zero u :
  Decimal.unorm (Decimal.D0 u) = Decimal.D0 u -> u = Decimal.Nil.
Proof.
  intros H. rewrite unorm_D0 in H.
  destruct (Decimal.nzhead u) eqn:E;
    try (rewrite unorm_nzhead in H by (rewrite E; discriminate);
         rewrite E in H; discriminate H).
  - unfold Decimal.unorm in H. rewrite E in H. now inversion H.
  - exfalso. exact (nzhead_nonzero _ _ E).
Qed.

Lemma to_int_normal n :
  match Z.to_int n with
  | Decimal.Pos u | Decimal.Neg u => Decimal.unorm u = u
  end.
Proof.
  pose proof (DecimalZ.to_of (Z.to_int n)) as H.
  rewrite DecimalZ.of_to in H.
  destruct (Z.to_int n) as [u|u] eqn:E; simpl in H.
  - injection H as H. now symmetry.
  - destruct (Decimal.nzhead u) eqn:Enz; try discriminate H;
      injection H as H;
      (rewrite unorm_nzhead by (rewrite Enz; discriminate));
      rewrite Enz; now symmetry.
Qed.

Lemma readUnsigned_normal u rest :
  Decimal.unorm u = u -> numberEnds rest = true ->
  readUnsigned (NilEmpty.string_of_uint u +:+ rest) = Some (u, rest).
Proof.
  intros Hu Hrest. unfold readUnsigned.
  rewrite readDigits_string_of_uint by (apply numberEnds_not_digit, Hrest).
  destruct u as [|u|u|u|u|u|u|u|u|u|u]; try (rewrite Hrest; reflexivity).
  - exfalso. exact (unorm_nonnil _ Hu).
  - apply unorm_leading_zero in Hu. subst u. rewrite Hrest. reflexivity.
Qed.

Lemma string_of_uint_start u rest :
  u <> Decimal.Nil ->
  exists c r, NilEmpty.string_of_uint u +:+ rest = String c r
              /\ isDigit c = true /\ Ascii.eqb c "-" = false.
Proof.
  intros Hu. destruct u; [contradiction| ..]; simpl;
    eexists; eexists; (split; [reflexivity | split; reflexivity]).
Qed.

Lemma readNumber_numberToString n rest :
  numberEnds rest = true ->
  readNumber (numberToString n +:+ rest) = Some (n, rest).
Proof.
  intros Hrest. unfold numberToString.
  pose proof (to_int_normal n) as Hn.
  pose proof (DecimalZ.of_to n) as Hof.
  destruct (Z.to_int n) as [u|u]; unfold NilZero.string_of_int.
  - assert (Hnil : u <> Decimal.Nil) by (rewrite <- Hn; apply unorm_nonnil).
    assert (Hs : NilZero.string_of_uint u = NilEmpty.string_of_uint u)
      by (destruct u; [contradiction | reflexivity ..]).
    rewrite Hs.
    destruct (string_of_uint_start u rest Hnil) as (c & r & E & _ & Hm).
    unfold readNumber. rewrite E, Hm, <- E.
    rewrite readUnsigned_normal by assumption. now rewrite Hof.
  - assert (Hnil : u <> Decimal.Nil) by (rewrite <- Hn; apply unorm_nonnil).
    assert (Hs : NilZero.string_of_uint u = NilEmpty.string_of_uint u)
      by (destruct u; [contradiction | reflexivity ..]).
    rewrite Hs, str_app_cons. unfold readNumber.
    replace (Ascii.eqb "-" "-") with true by reflexivity.
    rewrite readUnsigned_normal by assumption. now rewrite Hof.
Qed.

Lemma numberToString_start n rest :
  exists c r, numberToString n +:+ rest = String c r
              /\ (Ascii.eqb c "-" || isDigit c) = true.
Proof.
  unfold numberToString.
  pose proof (to_int_normal n) as Hn.
  destruct (Z.to_int n) as [u|u]; unfold NilZero.string_of_int.
  - assert (Hnil : u <> Decimal.Nil) by (rewrite <- Hn; apply unorm_nonnil).
    assert (Hs : NilZero.string_of_uint u = NilEmpty.string_of_uint u)
      by (destruct u; [contradiction | reflexivity ..]).
    rewrite Hs.
    destruct (string_of_uint_start u rest Hnil) as (c & r & E & Hd & _).
    exists c, r. rewrite Hd, orb_true_r. auto.
  - simpl. eexists; eexists; split; reflexivity.
Qed.

(** ** JSON: [JSON.parse] inverts [JSON.stringify] *)

Lemma numStart_facts c :
  (Ascii.eqb c "-" || isDigit c) = true ->
  valueStart c = true.
Proof. unfold valueStart. intros H. apply orb_true_iff in H as [H|H]; rewrite H; now rewrite ?orb_true_r. Qed.

Lemma parseValue_number f c r :
  (Ascii.eqb c "-" || isDigit c) = true ->
  parseValue (S f) (String c r) =
  match readNumber (String c r) with
  | Some (n, rest) => POk (JNum n) rest
  | None => PSyntaxError
  end.
Proof. intros H. all_chars c; try discriminate H; reflexivity. Qed.

Lemma parseValue_array f r :
  parseValue (S f) (String "[" r) =
  match skipWs r with
  | String c1 r1 =>
      if Ascii.eqb c1 "]" then POk (JArr []) r1 else parseElements f r []
  | EmptyString => PSyntaxError
  end.
Proof. reflexivity. Qed.

Lemma parseValue_object f r :
  parseValue (S f) (String "{" r) =
  match skipWs r with
  | String c1 r1 =>
      if Ascii.eqb c1 "}" then POk (JObj []) r1 else parseMembers f r []
  | EmptyString => PSyntaxError
  end.
Proof. reflexivity. Qed.

Lemma parseValue_string f r :
  parseValue (S f) (String dquote r) =
  match readStringBody r with
  | Some (str, rest) => POk (JStr str) rest
  | None => PSyntaxError
  end.
Proof. reflexivity. Qed.

Lemma parseValue_skip fuel w s :
  allWs w = true -> parseValue fuel (w +:+ s) = parseValue fuel s.
Proof.
  intros Hw. destruct fuel as [|f]; [reflexivity|].
  simpl. rewrite (skipWs_app w s Hw). reflexivity.
Qed.

Lemma parseElements_eq f s acc :
  parseElements (S f) s acc =
  match parseValue f s with
  | POk v rest =>
      match skipWs rest with
      | String c r =>
          if Ascii.eqb c "," then parseElements f r (acc ++ [v])
          else if Ascii.eqb c "]" then POk (JArr (acc ++ [v])) r
          else PSyntaxError
      | EmptyString => PSyntaxError
      end
  | PSyntaxError => PSyntaxError
  | PFuel => PFuel
  end.
Proof. reflexivity. Qed.

Lemma parseMembers_eq f s acc :
  parseMembers (S f) s acc =
  match skipWs s with
  | String q r =>
      if Ascii.eqb q dquote then
        match readStringBody r with
        | Some (key, rest) =>
            match skipWs rest with
            | String c r1 =>
                if Ascii.eqb c ":" then
                  match parseValue f r1 with
                  | POk v rest1 =>
                      match skipWs rest1 with
                      | String c2 r2 =>
                          if Ascii.eqb c2 "," then parseMembers f r2 (objSet acc key v)
                          else if Ascii.eqb c2 "}" then POk (JObj (objSet acc key v)) r2
                          else PSyntaxError
                      | EmptyString => PSyntaxError
                      end
                  | PSyntaxError => PSyntaxError
                  | PFuel => PFuel
                  end
                else PSyntaxError
            | EmptyString => PSyntaxError
            end
        | None => PSyntaxError
        end
      else PSyntaxError
  | EmptyString => PSyntaxError
  end.
Proof. reflexivity. Qed.

Lemma serialize_start gap indent v rest :
  exists c r, serializeJSON gap indent v +:+ rest = String c r
              /\ valueStart c = true.
Proof.
  destruct v as [ | [|] | n | s | [|x xs] | [|m ms]];
    try (eexists; eexists; split; [reflexivity | reflexivity]).
  destruct (numberToString_start n rest) as (c & r & E & H).
  exists c, r. split; [exact E | now apply numStart_facts].
Qed.

Lemma skipWs_start c r : valueStart c = true -> skipWs (String c r) = String c r.
Proof.
  intros H. apply valueStart_facts in H as (H & _). simpl. now rewrite H.
Qed.

Lemma ws_not_number a :
  isWs a = true ->
  negb (isDigit a || Ascii.eqb a "." || Ascii.eqb a "e" || Ascii.eqb a "E") = true.
Proof. all_chars a; vm_compute; intros H; try discriminate H; reflexivity. Qed.

Lemma numberEnds_ws w c r :
  allWs w = true -> closer c = true -> numberEnds (w +:+ String c r) = true.
Proof.
  intros Hw Hc. destruct w as [|a w]; simpl.
  - revert Hc. all_chars c; vm_compute; intros H; try discriminate H; reflexivity.
  - unfold allWs in Hw. simpl in Hw. apply andb_true_iff in Hw as [Ha _].
    now apply ws_not_number.
Qed.

Lemma objSet_fresh acc k v :
  ~ In k (map fst acc) -> objSet acc k v = acc ++ [(k, v)].
Proof.
  induction acc as [|[k' v'] acc IH]; simpl; intros H; [reflexivity|].
  destruct (String.eqb_spec k' k) as [E|E]; [tauto|].
  rewrite IH by tauto. reflexivity.
Qed.

#[local] Arguments String.concat : simpl never.

Lemma concat_one sep x : String.concat sep [x] = x.
Proof. reflexivity. Qed.

Lemma concat_two sep x y l :
  String.concat sep (x :: y :: l) = x +:+ sep +:+ String.concat sep (y :: l).
Proof. reflexivity. Qed.

Lemma skipWs_closer c r : closer c = true -> skipWs (String c r) = String c r.
Proof.
  intros H. assert (Hc : isWs c = false).
  { revert H. all_chars c; vm_compute; intros H; try discriminate H; reflexivity. }
  simpl. now rewrite Hc.
Qed.

Ltac norm_str :=
  repeat first [rewrite str_app_assoc | rewrite str_app_cons | rewrite str_app_nil_l].

Section RoundTrip.

Variable gap : string.

Lemma parseElements_serialize indent sepWs closing rest items :
  Forall (parsesBack gap) items ->
  allWs indent = true -> allWs sepWs = true -> allWs closing = true ->
  items <> [] ->
  forall acc fuel w,
    allWs w = true ->
    (list_sum (map (fun x => S (jsize x)) items) <= fuel)%nat ->
    parseElements fuel
      (w +:+ String.concat (String "," sepWs) (map (serializeJSON gap indent) items)
       +:+ closing +:+ String "]" rest) acc
    = POk (JArr (acc ++ items)) rest.
Proof.
  intros Hall Hind Hsep Hclose.
  induction Hall as [|v items Hv Hall IH]; intros Hne acc fuel w Hw Hfuel;
    [contradiction|].
  simpl in Hfuel.
  destruct fuel as [|f]; [lia|].
  rewrite parseElements_eq, parseValue_skip by exact Hw.
  destruct items as [|v2 items].
  - rewrite map_cons, concat_one.
    rewrite Hv; [ | exact Hind | simpl in Hfuel; lia
                  | apply numberEnds_ws; [exact Hclose | reflexivity] ].
    rewrite skipWs_app by exact Hclose. reflexivity.
  - rewrite map_cons, map_cons, concat_two, <- map_cons.
    rewrite !str_app_assoc, str_app_cons.
    rewrite Hv; [ | exact Hind | lia
                  | apply (numberEnds_ws EmptyString); reflexivity ].
    rewrite skipWs_closer by reflexivity.
    change (Ascii.eqb "," ",") with true. cbv iota.
    rewrite IH; [ | discriminate | exact Hsep | simpl in Hfuel |- *; lia ].
    rewrite <- app_assoc. reflexivity.
Qed.

Lemma parseMembers_serialize indent sepWs sp closing rest members :
  Forall (fun m => parsesBack gap (snd m)) members ->
  allWs indent = true -> allWs sepWs = true -> allWs sp = true ->
  allWs closing = true ->
  members <> [] ->
  forall acc fuel w,
    allWs w = true ->
    (list_sum (map (fun m => S (jsize (snd m))) members) <= fuel)%nat ->
    NoDup (map fst (acc ++ members)) ->
    parseMembers fuel
      (w +:+ String.concat (String "," sepWs) (map (memberText gap indent sp) members)
       +:+ closing +:+ String "}" rest) acc
    = POk (JObj (acc ++ members)) rest.
Proof.
  intros Hall Hind Hsep Hsp Hclose.
  induction Hall as [|[k v] members Hv Hall IH];
    intros Hne acc fuel w Hw Hfuel Hnd; [contradiction|].
  simpl in Hfuel, Hv.
  destruct fuel as [|f]; [lia|].
  assert (Hfresh : ~ In k (map fst acc)).
  { rewrite map_app in Hnd. apply NoDup_app in Hnd as (_ & Hdisj & _).
    intros Hin. apply (Hdisj k); [now apply list_elem_of_In|]. simpl. left. }
  rewrite parseMembers_eq, skipWs_app by exact Hw.
  destruct members as [|m2 members].
  - rewrite map_cons, concat_one. unfold memberText at 1, quoteJSONString, str1.
    simpl fst. simpl snd.
    norm_str.
    change (skipWs (String dquote ?x)) with (String dquote x).
    change (Ascii.eqb dquote dquote) with true. cbv iota.
    rewrite readStringBody_quoteBody.
    change (skipWs (String ":" ?x)) with (String ":" x).
    change (Ascii.eqb ":" ":") with true. cbv iota.
    rewrite parseValue_skip by exact Hsp.
    rewrite Hv; [ | exact Hind | lia
                  | apply numberEnds_ws; [exact Hclose | reflexivity] ].
    rewrite skipWs_app by exact Hclose.
    rewrite (objSet_fresh acc k v Hfresh). reflexivity.
  - rewrite map_cons, map_cons, concat_two, <- map_cons.
    unfold memberText at 1, quoteJSONString, str1.
    simpl fst. simpl snd.
    norm_str.
    change (skipWs (String dquote ?x)) with (String dquote x).
    change (Ascii.eqb dquote dquote) with true. cbv iota.
    rewrite readStringBody_quoteBody.
    change (skipWs (String ":" ?x)) with (String ":" x).
    change (Ascii.eqb ":" ":") with true. cbv iota.
    rewrite parseValue_skip by exact Hsp.
    rewrite Hv; [ | exact Hind | lia
                  | apply (numberEnds_ws EmptyString); reflexivity ].
    rewrite skipWs_closer by reflexivity.
    change (Ascii.eqb "," ",") with true. cbv iota.
    rewrite (objSet_fresh acc k v Hfresh).
    rewrite IH; [ | discriminate | exact Hsep | simpl in Hfuel |- *; lia | ].
    + rewrite <- app_assoc. reflexivity.
    + rewrite <- app_assoc. exact Hnd.
Qed.

End RoundTrip.

Lemma serializeJSON_arr gap indent x xs :
  let opening := if isEmpty gap then EmptyString else String newline (indent +:+ gap) in
  let closing := if isEmpty gap then EmptyString else String newline indent in
  serializeJSON gap indent (JArr (x :: xs)) =
  String "[" (opening
              +:+ String.concat (String "," opening)
                    (map (serializeJSON gap (indent +:+ gap)) (x :: xs))
              +:+ closing +:+ "]").
Proof. destruct gap; reflexivity. Qed.

Lemma serializeJSON_obj gap indent m ms :
  let opening := if isEmpty gap then EmptyString else String newline (indent +:+ gap) in
  let closing := if isEmpty gap then EmptyString else String newline indent in
  let sp := if isEmpty gap then EmptyString else " " in
  serializeJSON gap indent (JObj (m :: ms)) =
  String "{" (opening
              +:+ String.concat (String "," opening)
                    (map (memberText gap (indent +:+ gap) sp) (m :: ms))
              +:+ closing +:+ "}").
Proof. destruct gap; reflexivity. Qed.

Lemma concat_values_start gap indent sep x xs tail :
  exists c r,
    String.concat sep (map (serializeJSON gap indent) (x :: xs)) +:+ tail = String c r
    /\ valueStart c = true.
Proof.
  destruct xs as [|y ys].
  - rewrite map_cons, concat_one. apply serialize_start.
  - rewrite map_cons, map_cons, concat_two, str_app_assoc. apply serialize_start.
Qed.

Lemma concat_members_start gap indent sp sep m ms tail :
  exists r,
    String.concat sep (map (memberText gap indent sp) (m :: ms)) +:+ tail
    = String dquote r.
Proof.
  destruct ms as [|y ys].
  - rewrite map_cons, concat_one. unfold memberText, quoteJSONString.
    norm_str. eexists. reflexivity.
  - rewrite map_cons, map_cons, concat_two. unfold memberText at 1, quoteJSONString.
    norm_str. eexists. reflexivity.
Qed.

Lemma allWs_opening (b : bool) s :
  allWs s = true -> allWs (if b then EmptyString else String newline s) = true.
Proof. destruct b; [reflexivity | exact (fun H => H)]. Qed.

Lemma allWs_sp (b : bool) : allWs (if b then EmptyString else " ") = true.
Proof. destruct b; reflexivity. Qed.

Lemma uniqueKeys_arr items :
  uniqueKeys (JArr items) = true -> Forall (fun v => uniqueKeys v = true) items.
Proof.
  simpl. intros H. apply Forall_forall. intros v Hv.
  rewrite forallb_forall in H. apply H. now apply list_elem_of_In.
Qed.

Lemma uniqueKeys_obj members :
  uniqueKeys (JObj members) = true ->
  NoDup (map fst members)
  /\ Forall (fun m => uniqueKeys (snd m) = true) members.
Proof.
  simpl. intros H. apply andb_true_iff in H as [Hn Hf]. split.
  - now apply bool_decide_eq_true in Hn.
  - apply Forall_forall. intros m Hm.
    rewrite forallb_forall in Hf. apply Hf. now apply list_elem_of_In.
Qed.

Ltac ws_solve :=
  solve [ repeat first [ assumption | reflexivity | apply allWs_sp
                       | apply allWs_opening | apply allWs_app ] ].

Theorem parseValue_serializeJSON gap :
  allWs gap = true ->
  forall v, uniqueKeys v = true -> parsesBack gap v.
Proof.
  intros Hgap v. induction v as [ | b | n | s | items IH | members IH ] using json_ind;
    intros Hu indent rest fuel Hind Hfuel Hrest;
    (destruct fuel as [|f]; [simpl in Hfuel; lia|]).
  - reflexivity.
  - destruct b; reflexivity.
  - destruct (numberToString_start n rest) as (c & r & E & Hc).
    change (serializeJSON gap indent (JNum n)) with (numberToString n).
    rewrite E, parseValue_number by exact Hc.
    rewrite <- E, readNumber_numberToString by exact Hrest. reflexivity.
  - change (serializeJSON gap indent (JStr s)) with (quoteJSONString s).
    unfold quoteJSONString, str1. norm_str.
    rewrite parseValue_string, readStringBody_quoteBody. reflexivity.
  - destruct items as [|x xs]; [reflexivity|].
    apply uniqueKeys_arr in Hu.
    assert (Hall : Forall (parsesBack gap) (x :: xs)).
    { rewrite Forall_forall in IH, Hu |- *. intros y Hy. apply IH; auto. }
    rewrite serializeJSON_arr. cbv zeta. norm_str.
    rewrite parseValue_array.
    rewrite skipWs_app by (apply allWs_opening, allWs_app; assumption).
    destruct (concat_values_start gap (indent +:+ gap)
                (String "," (if isEmpty gap then EmptyString
                             else String newline (indent +:+ gap)))
                x xs
                ((if isEmpty gap then EmptyString else String newline indent)
                 +:+ String "]" rest)) as (c & r & E & Hc).
    rewrite E, (skipWs_start c r Hc).
    destruct (valueStart_facts c Hc) as (_ & Hc1 & _). rewrite Hc1, <- E.
    rewrite (parseElements_serialize gap);
      first [ reflexivity | exact Hall | discriminate | ws_solve
            | simpl in Hfuel |- *; lia ].
  - destruct members as [|m ms]; [reflexivity|].
    apply uniqueKeys_obj in Hu as [Hnd Hu].
    assert (Hall : Forall (fun m => parsesBack gap (snd m)) (m :: ms)).
    { rewrite Forall_forall in IH, Hu |- *. intros y Hy. apply IH; auto. }
    rewrite serializeJSON_obj. cbv zeta. norm_str.
    rewrite parseValue_object.
    rewrite skipWs_app by (apply allWs_opening, allWs_app; assumption).
    destruct (concat_members_start gap (indent +:+ gap)
                (if isEmpty gap then EmptyString else " ")
                (String "," (if isEmpty gap then EmptyString
                             else String newline (indent +:+ gap)))
                m ms
                ((if isEmpty gap then EmptyString else String newline indent)
                 +:+ String "}" rest)) as (r & E).
    rewrite E.
    change (skipWs (String dquote r)) with (String dquote r).
    change (Ascii.eqb dquote "}") with false. cbv iota.
    rewrite <- E.
    rewrite (parseMembers_serialize gap);
      first [ reflexivity | exact Hall | exact Hnd | discriminate | ws_solve
            | simpl in Hfuel |- *; lia ].
Qed.

Lemma concat_size {A} (f : A -> string) (g : A -> nat) sep l :
  (1 <= String.length sep)%nat ->
  Forall (fun a => (g a <= String.length (f a))%nat) l ->
  (list_sum (map (fun a => S (g a)) l)
   <= S (String.length (String.concat sep (map f l))))%nat.
Proof.
  intros Hsep Hall. induction Hall as [|a l Ha Hall IH]; [simpl; lia|].
  destruct l as [|b l].
  - simpl. rewrite concat_one. lia.
  - simpl in IH |- *. rewrite concat_two, !str_length_app. lia.
Qed.

Lemma jsize_le_length gap indent v :
  (jsize v <= String.length (serializeJSON gap indent v))%nat.
Proof.
  revert indent.
  induction v as [ | b | n | s | items IH | members IH ] using json_ind;
    intros indent.
  - simpl. lia.
  - destruct b; simpl; lia.
  - destruct (numberToString_start n EmptyString) as (c & r & E & _).
    rewrite str_app_nil_r in E.
    change (serializeJSON gap indent (JNum n)) with (numberToString n).
    rewrite E. simpl. lia.
  - simpl. lia.
  - destruct items as [|x xs]; [simpl; lia|].
    rewrite serializeJSON_arr. cbv zeta.
    change (jsize (JArr (x :: xs)))
      with (S (list_sum (map (fun y => S (jsize y)) (x :: xs)))).
    change (String.length (String ?a ?s)) with (S (String.length s)).
    rewrite !str_length_app.
    pose proof (concat_size (serializeJSON gap (indent +:+ gap)) jsize
                  (String "," (if isEmpty gap then EmptyString
                               else String newline (indent +:+ gap)))
                  (x :: xs)) as H.
    change (String.length "]") with 1%nat.
    cut (list_sum (map (fun a => S (jsize a)) (x :: xs))
         <= S (String.length
                 (String.concat
                    (String "," (if isEmpty gap then EmptyString
                                 else String newline (indent +:+ gap)))
                    (map (serializeJSON gap (indent +:+ gap)) (x :: xs)))))%nat;
      [lia|].
    apply H; [simpl; lia|].
    rewrite Forall_forall in IH |- *. intros y Hy. apply IH, Hy.
  - destruct members as [|m ms]; [simpl; lia|].
    rewrite serializeJSON_obj. cbv zeta.
    change (jsize (JObj (m :: ms)))
      with (S (list_sum (map (fun y => S (jsize (snd y))) (m :: ms)))).
    change (String.length (String ?a ?s)) with (S (String.length s)).
    rewrite !str_length_app.
    pose proof (concat_size
                  (memberText gap (indent +:+ gap)
                     (if isEmpty gap then EmptyString else " "))
                  (fun y => jsize (snd y))
                  (String "," (if isEmpty gap then EmptyString
                               else String newline (indent +:+ gap)))
                  (m :: ms)) as H.
    change (String.length "}") with 1%nat.
    cut (list_sum (map (fun a => S (jsize (snd a))) (m :: ms))
         <= S (String.length
                 (String.concat
                    (String "," (if isEmpty gap then EmptyString
                                 else String newline (indent +:+ gap)))
                    (map (memberText gap (indent +:+ gap)
                            (if isEmpty gap then EmptyString else " "))
                         (m :: ms)))))%nat;
      [lia|].
    apply H; [simpl; lia|].
    rewrite Forall_forall in IH |- *. intros y Hy.
    unfold memberText. rewrite !str_length_app.
    specialize (IH y Hy (indent +:+ gap)). simpl in IH. lia.
Qed.

(** [JSON.parse] gives back every value that [JSON.stringify] printed, with
    any indentation. *)
Theorem JSON_parse_stringify (v : json) (space : nat) :
  uniqueKeys v = true ->
  JSON_parse (JSON_stringify v space) = Some v.
Proof.
  intros Hu. unfold JSON_parse, JSON_stringify.
  pose proof (parseValue_serializeJSON (spaces (Nat.min space 10))
                (allWs_spaces _) v Hu EmptyString EmptyString) as H.
  rewrite str_app_nil_r in H. rewrite H; [reflexivity | reflexivity | | reflexivity].
  pose proof (jsize_le_length (spaces (Nat.min space 10)) EmptyString v). lia.
Qed.

(** ** JSON: the parser never runs out of fuel *)

Lemma skipWs_length s : (String.length (skipWs s) <= String.length s)%nat.
Proof.
  induction s as [|c s IH]; simpl; [lia|].
  destruct (isWs c); simpl; lia.
Qed.

Lemma skipWs_cons_length s c r :
  skipWs s = String c r -> (String.length r < String.length s)%nat.
Proof.
  intros E. pose proof (skipWs_length s) as H. rewrite E in H. simpl in H. lia.
Qed.

Lemma consChar_length c o str rest :
  consChar c o = Some (str, rest) ->
  exists str', o = Some (str', rest).
Proof.
  destruct o as [[s' r']|]; simpl; intros H; inversion H; eauto.
Qed.

Lemma readStringBody_length s str rest :
  readStringBody s = Some (str, rest) ->
  (String.length rest < String.length s)%nat.
Proof.
  remember (String.length s) as n eqn:En.
  revert s str rest En.
  induction n as [n IH] using lt_wf_ind. intros s str rest En.
  destruct s as [|c r]; simpl; [discriminate|].
  simpl in En.
  destruct (Ascii.eqb c dquote).
  { intros H. inversion H. subst. lia. }
  destruct (Ascii.eqb c backslash).
  - destruct r as [|e r1]; [discriminate|].
    destruct (Ascii.eqb e "u").
    + destruct r1 as [|h1 [|h2 [|h3 [|h4 r2]]]]; try discriminate.
      destruct (hex4 h1 h2 h3 h4); [|discriminate].
      intros H. apply consChar_length in H as (str' & H).
      eapply IH in H; [ | | reflexivity]; simpl in *; lia.
    + destruct (unescape e); [|discriminate].
      intros H. apply consChar_length in H as (str' & H).
      eapply IH in H; [ | | reflexivity]; simpl in *; lia.
  - destruct (N_of_ascii c <? 32)%N; [discriminate|].
    intros H. apply consChar_length in H as (str' & H).
    eapply IH in H; [ | | reflexivity]; simpl in *; lia.
Qed.

Lemma readDigits_length s u rest :
  readDigits s = (u, rest) ->
  (String.length rest <= String.length s)%nat
  /\ (u <> Decimal.Nil -> (String.length rest < String.length s)%nat).
Proof.
  revert u rest. induction s as [|c s IH]; simpl; intros u rest H.
  - inversion H. subst. simpl. split; [lia | congruence].
  - destruct (isDigit c).
    + destruct (readDigits s) as [u' rest'] eqn:E. inversion H. subst.
      destruct (IH u' rest eq_refl) as [H1 _]. split; intros; lia.
    + inversion H. subst. simpl. split; [lia | congruence].
Qed.

Lemma readUnsigned_length s u rest :
  readUnsigned s = Some (u, rest) ->
  (String.length rest < String.length s)%nat.
Proof.
  unfold readUnsigned. destruct (readDigits s) as [u' rest'] eqn:E.
  apply readDigits_length in E as [_ E].
  destruct u' as [|u'|u'|u'|u'|u'|u'|u'|u'|u'|u']; try discriminate;
    try (destruct (numberEnds rest'); [|discriminate]; intros H; inversion H;
         subst; apply E; discriminate).
  destruct u'; try discriminate.
  destruct (numberEnds rest'); [|discriminate]. intros H; inversion H.
  subst. apply E. discriminate.
Qed.

Lemma readNumber_length s n rest :
  readNumber s = Some (n, rest) ->
  (String.length rest < String.length s)%nat.
Proof.
  unfold readNumber. destruct s as [|c r]; [discriminate|].
  destruct (Ascii.eqb c "-").
  - destruct (readUnsigned r) as [[u rest']|] eqn:E; [|discriminate].
    apply readUnsigned_length in E. intros H. inversion H. subst. simpl. lia.
  - destruct (readUnsigned (String c r)) as [[u rest']|] eqn:E; [|discriminate].
    apply readUnsigned_length in E. intros H. inversion H. subst. exact E.
Qed.

Lemma stripPrefix_length lit s rest :
  stripPrefix lit s = Some rest ->
  (String.length rest + String.length lit = String.length s)%nat.
Proof.
  revert s. induction lit as [|a lit IH]; intros s; simpl.
  - intros H. inversion H. lia.
  - destruct s as [|b s]; [discriminate|].
    destruct (Ascii.eqb a b); [|discriminate].
    intros H. apply IH in H. simpl. lia.
Qed.

Lemma expectLiteral_length lit v s v' rest :
  lit <> EmptyString ->
  expectLiteral lit v s = POk v' rest ->
  (String.length rest < String.length s)%nat.
Proof.
  intros Hl. unfold expectLiteral.
  destruct (stripPrefix lit s) as [r|] eqn:E; [|discriminate].
  apply stripPrefix_length in E. intros H. inversion H. subst.
  destruct lit; [contradiction | simpl in E; lia].
Qed.

(** Every successful parse consumes at least one character. *)
Lemma parse_consumes fuel :
  (forall s v rest,
      parseValue fuel s = POk v rest ->
      (String.length rest < String.length s)%nat)
  /\ (forall s acc v rest,
        parseElements fuel s acc = POk v rest ->
        (String.length rest < String.length s)%nat)
  /\ (forall s acc v rest,
        parseMembers fuel s acc = POk v rest ->
        (String.length rest < String.length s)%nat).
Proof.
  induction fuel as [|f (IHv & IHe & IHm)]; [repeat split; discriminate|].
  repeat split.
  - intros s v rest. cbn [parseValue].
    destruct (skipWs s) as [|c r] eqn:Es; [discriminate|].
    pose proof (skipWs_cons_length _ _ _ Es) as Hs.
    assert (Hws : (String.length (String c r) <= String.length s)%nat)
      by (rewrite <- Es; apply skipWs_length).
    destruct (Ascii.eqb c "{").
    { destruct (skipWs r) as [|c1 r1] eqn:Er; [discriminate|].
      pose proof (skipWs_cons_length _ _ _ Er) as Hr.
      destruct (Ascii.eqb c1 "}").
      - intros H. inversion H. subst. lia.
      - intros H. apply IHm in H. lia. }
    destruct (Ascii.eqb c "[").
    { destruct (skipWs r) as [|c1 r1] eqn:Er; [discriminate|].
      pose proof (skipWs_cons_length _ _ _ Er) as Hr.
      destruct (Ascii.eqb c1 "]").
      - intros H. inversion H. subst. lia.
      - intros H. apply IHe in H. lia. }
    destruct (Ascii.eqb c dquote).
    { destruct (readStringBody r) as [[str rest']|] eqn:Eb; [|discriminate].
      apply readStringBody_length in Eb. intros H. inversion H. subst. lia. }
    destruct (Ascii.eqb c "n").
    { intros H. apply expectLiteral_length in H; [lia | discriminate]. }
    destruct (Ascii.eqb c "t").
    { intros H. apply expectLiteral_length in H; [lia | discriminate]. }
    destruct (Ascii.eqb c "f").
    { intros H. apply expectLiteral_length in H; [lia | discriminate]. }
    destruct (readNumber (String c r)) as [[n rest']|] eqn:En; [|discriminate].
    apply readNumber_length in En. intros H. inversion H. subst. lia.
  - intros s acc v rest. cbn [parseElements].
    destruct (parseValue f s) as [v1 rest1| |] eqn:Ev; try discriminate.
    apply IHv in Ev.
    destruct (skipWs rest1) as [|c r] eqn:Er; [discriminate|].
    pose proof (skipWs_cons_length _ _ _ Er) as Hr.
    destruct (Ascii.eqb c ",").
    { intros H. apply IHe in H. lia. }
    destruct (Ascii.eqb c "]"); [|discriminate].
    intros H. inversion H. subst. lia.
  - intros s acc v rest. cbn [parseMembers].
    destruct (skipWs s) as [|q r] eqn:Es; [discriminate|].
    pose proof (skipWs_cons_length _ _ _ Es) as Hs.
    destruct (Ascii.eqb q dquote); [|discriminate].
    destruct (readStringBody r) as [[key rest0]|] eqn:Eb; [|discriminate].
    apply readStringBody_length in Eb.
    destruct (skipWs rest0) as [|c r1] eqn:E0; [discriminate|].
    pose proof (skipWs_cons_length _ _ _ E0) as H0.
    destruct (Ascii.eqb c ":"); [|discriminate].
    destruct (parseValue f r1) as [v1 rest1| |] eqn:Ev; try discriminate.
    apply IHv in Ev.
    destruct (skipWs rest1) as [|c2 r2] eqn:E1; [discriminate|].
    pose proof (skipWs_cons_length _ _ _ E1) as H1.
    destruct (Ascii.eqb c2 ",").
    { intros H. apply IHm in H. lia. }
    destruct (Ascii.eqb c2 "}"); [|discriminate].
    intros H. inversion H. subst. lia.
Qed.

Lemma parse_fuel_enough fuel :
  (forall s, (2 * String.length s + 1 <= fuel)%nat -> parseValue fuel s <> PFuel)
  /\ (forall s acc,
        (2 * String.length s + 2 <= fuel)%nat -> parseElements fuel s acc <> PFuel)
  /\ (forall s acc,
        (2 * String.length s + 2 <= fuel)%nat -> parseMembers fuel s acc <> PFuel).
Proof.
  induction fuel as [|f (IHv & IHe & IHm)]; [repeat split; intros; lia|].
  destruct (parse_consumes f) as (Cv & _ & _).
  repeat split.
  - intros s Hf. cbn [parseValue].
    destruct (skipWs s) as [|c r] eqn:Es; [discriminate|].
    pose proof (skipWs_cons_length _ _ _ Es) as Hs.
    destruct (Ascii.eqb c "{").
    { destruct (skipWs r) as [|c1 r1] eqn:Er; [discriminate|].
      destruct (Ascii.eqb c1 "}"); [discriminate | apply IHm; lia]. }
    destruct (Ascii.eqb c "[").
    { destruct (skipWs r) as [|c1 r1] eqn:Er; [discriminate|].
      destruct (Ascii.eqb c1 "]"); [discriminate | apply IHe; lia]. }
    destruct (Ascii.eqb c dquote).
    { destruct (readStringBody r) as [[str rest']|]; discriminate. }
    unfold expectLiteral.
    destruct (Ascii.eqb c "n"); [destruct (stripPrefix _ _); discriminate|].
    destruct (Ascii.eqb c "t"); [destruct (stripPrefix _ _); discriminate|].
    destruct (Ascii.eqb c "f"); [destruct (stripPrefix _ _); discriminate|].
    destruct (readNumber (String c r)) as [[n rest']|]; discriminate.
  - intros s acc Hf. cbn [parseElements].
    destruct (parseValue f s) as [v1 rest1| |] eqn:Ev; try discriminate.
    + apply Cv in Ev.
      destruct (skipWs rest1) as [|c r] eqn:Er; [discriminate|].
      pose proof (skipWs_cons_length _ _ _ Er) as Hr.
      destruct (Ascii.eqb c ","); [apply IHe; lia|].
      destruct (Ascii.eqb c "]"); discriminate.
    + exfalso. apply (IHv s); [lia | exact Ev].
  - intros s acc Hf. cbn [parseMembers].
    destruct (skipWs s) as [|q r] eqn:Es; [discriminate|].
    pose proof (skipWs_cons_length _ _ _ Es) as Hs.
    destruct (Ascii.eqb q dquote); [|discriminate].
    destruct (readStringBody r) as [[key rest0]|] eqn:Eb; [|discriminate].
    apply readStringBody_length in Eb.
    destruct (skipWs rest0) as [|c r1] eqn:E0; [discriminate|].
    pose proof (skipWs_cons_length _ _ _ E0) as H0.
    destruct (Ascii.eqb c ":"); [|discriminate].
    destruct (parseValue f r1) as [v1 rest1| |] eqn:Ev; try discriminate.
    + apply Cv in Ev.
      destruct (skipWs rest1) as [|c2 r2] eqn:E1; [discriminate|].
      pose proof (skipWs_cons_length _ _ _ E1) as H1.
      destruct (Ascii.eqb c2 ","); [apply IHm; lia|].
      destruct (Ascii.eqb c2 "}"); discriminate.
    + exfalso. apply (IHv r1); [lia | exact Ev].
Qed.

(** The fuel [JSON_parse] supplies is never used up: a [None] is a
    SyntaxError of the text. *)
Theorem JSON_parse_fuel text :
  parseValue (S (2 * String.length text)) text <> PFuel.
Proof. apply (parse_fuel_enough (S (2 * String.length text))). lia. Qed.

(** ** The session file: reading back what was written *)

Lemma readAll_map {A} (enc : A -> json) (dec : json -> option A) (l : list A) :
  (forall a, dec (enc a) = Some a) ->
  readAll dec (map enc l) = Some l.
Proof.
  intros H. unfold readAll. induction l as [|a l IH]; [reflexivity|].
  simpl. rewrite H. simpl. rewrite IH. reflexivity.
Qed.

Lemma readSnapshot_toJson t : readSnapshot (snapshotToJson t) = Some t.
Proof. destruct t. reflexivity. Qed.

Lemma readTrackerState_toJson t : readTrackerState (trackerStateToJson t) = Some t.
Proof.
  destruct t as [p e d n ts]. unfold readTrackerState, trackerStateToJson.
  destruct e, d; simpl;
    rewrite (readAll_map snapshotToJson readSnapshot ts readSnapshot_toJson);
    reflexivity.
Qed.

Lemma readIteration_toJson r : readIteration (iterationToJson r) = Some r.
Proof. destruct r as [i st ti tt tc d e sa ea]. destruct e; reflexivity. Qed.

Lemma SessionStatus_ofString_toString st :
  SessionStatus_ofString (SessionStatus_toString st) = Some st.
Proof. destruct st; reflexivity. Qed.

Theorem readSession_toJson s : readSession (sessionToJson s) = Some s.
Proof.
  destruct s as [ver sid st sa ua pa ci mi tc ip ap mo tr its sk cw].
  unfold readSession, sessionToJson.
  destruct pa, mo; simpl;
    rewrite SessionStatus_ofString_toString; simpl;
    rewrite readTrackerState_toJson; simpl;
    rewrite (readAll_map iterationToJson readIteration its readIteration_toJson);
    simpl;
    rewrite (readAll_map JStr readString sk (fun a => eq_refl));
    reflexivity.
Qed.

Lemma uniqueKeys_map {A} (enc : A -> json) (l : list A) :
  (forall a, uniqueKeys (enc a) = true) ->
  forallb uniqueKeys (map enc l) = true.
Proof.
  intros H. induction l as [|a l IH]; simpl; [reflexivity|].
  now rewrite H, IH.
Qed.

Lemma uniqueKeys_snapshot t : uniqueKeys (snapshotToJson t) = true.
Proof. reflexivity. Qed.

Lemma uniqueKeys_iteration r : uniqueKeys (iterationToJson r) = true.
Proof. destruct r as [i st ti tt tc d e sa ea]. destruct e; reflexivity. Qed.

Lemma uniqueKeys_trackerState t : uniqueKeys (trackerStateToJson t) = true.
Proof.
  destruct t as [p e d n ts]. unfold trackerStateToJson.
  destruct e, d; simpl; rewrite (uniqueKeys_map snapshotToJson ts uniqueKeys_snapshot);
    reflexivity.
Qed.

Theorem uniqueKeys_session s : uniqueKeys (sessionToJson s) = true.
Proof.
  destruct s as [ver sid st sa ua pa ci mi tc ip ap mo tr its sk cw].
  unfold sessionToJson.
  pose proof (uniqueKeys_trackerState tr) as Ht.
  pose proof (uniqueKeys_map iterationToJson its uniqueKeys_iteration) as Hi.
  pose proof (uniqueKeys_map JStr sk (fun _ => eq_refl)) as Hs.
  destruct pa, mo; simpl in *; rewrite Ht, Hi, Hs; reflexivity.
Qed.

(** ** Load and save *)


Lemma savePersistedSession_files join now s w w' :
  savePersistedSession join now s w = (Returned tt, w') ->
  files w' = <[getSessionFilePath join (cwd s) :=
                 File (JSON_stringify (sessionToJson (updatedState now s)) 2)]>
             (files w).
Proof.
  unfold savePersistedSession, writeFile. simpl.
  destruct (files w !! getSessionFilePath join (cwd s)) as [[c| |code]|];
    intros H; inversion H; reflexivity.
Qed.

Lemma joinWith_thrown conv l first e :
  Forall (fun x => forall e', conv x = Thrown e' -> e' = TypeError) l ->
  joinWith conv l first = Thrown e -> e = TypeError.
Proof.
  intros Hall. revert first.
  induction Hall as [|x l Hx _ IH]; intros first; simpl; [discriminate|].
  destruct (conv x) as [sx|e'] eqn:Ex.
  - destruct (joinWith conv l false) as [sr|e''] eqn:Er; [discriminate|].
    intros H. injection H as <-. now apply (IH false).
  - intros H. injection H as <-. now apply Hx.
Qed.

Lemma jsToString_thrown v e : jsToString v = Thrown e -> e = TypeError.
Proof.
  revert e. induction v as [ | b | n | s | items IH | members IH] using json_ind;
    intros e; simpl; try discriminate.
  - destruct b; discriminate.
  - apply joinWith_thrown. eapply Forall_impl; [exact IH|].
    intros x Hx e' E. destruct x; try discriminate E; now apply Hx.
  - destruct (lookupMember "toString" members); [|discriminate].
    intros H. now injection H as <-.
Qed.

Lemma versionWarning_thrown ver e : versionWarning ver = Thrown e -> e = TypeError.
Proof.
  unfold versionWarning, templateToString. destruct ver as [v|]; [|discriminate].
  destruct (jsToString v) as [text|e'] eqn:E; [discriminate|].
  intros H. injection H as <-. eapply jsToString_thrown, E.
Qed.



Lemma loadTry_file join cwd w content parsed ver :
  files w !! getSessionFilePath join cwd = Some (File content) ->
  JSON_parse content = Some parsed ->
  getVersion parsed = Returned ver ->
  loadPersistedSession join cwd w =
  (if isNot1 ver
   then match versionWarning ver with
        | Returned msg =>
            (Returned (Some parsed),
             console_warn msg (logCall (CallReadFile (getSessionFilePath join cwd)) w))
        | Thrown e =>
            (Thrown e, logCall (CallReadFile (getSessionFilePath join cwd)) w)
        end
   else (Returned (Some parsed),
         logCall (CallReadFile (getSessionFilePath join cwd)) w)).
Proof.
  intros Hf Hp Hv. unfold loadPersistedSession, loadTry, readFile. simpl.
  rewrite Hf, Hp, Hv. destruct (isNot1 ver); [|reflexivity].
  destruct (versionWarning ver) as [msg|e] eqn:Ew; [reflexivity|].
  apply versionWarning_thrown in Ew as ->. reflexivity.
Qed.

(** Loading right after a successful save returns the value that was
    serialized. *)
Lemma load_after_save join now s w w' :
  savePersistedSession join now s w = (Returned tt, w') ->
  fst (loadPersistedSession join (cwd s) w')
  = Returned (Some (sessionToJson (updatedState now s))).
Proof.
  intros Hsave. apply savePersistedSession_files in Hsave.
  rewrite (loadTry_file join (cwd s) w'
             (JSON_stringify (sessionToJson (updatedState now s)) 2)
             (sessionToJson (updatedState now s))
             (Some (JNum (version s)))).
  - destruct (isNot1 (Some (JNum (version s)))); reflexivity.
  - rewrite Hsave. apply lookup_insert_eq.
  - apply JSON_parse_stringify, uniqueKeys_session.
  - reflexivity.
Qed.



(** The call the sample save issues, written out. *)
Example savePersistedSession_sample_calls :
  calls (snd (savePersistedSession posixJoin t1 sampleSession emptyWorld))
  = [CallWriteFile "/w/.ralph-tui-session.json"
       (JSON_stringify (sessionToJson (updatedState t1 sampleSession)) 2)].
Proof. reflexivity. Qed.

(** C2. After a successful save of [s] at time [now], loading from
    [s.cwd] returns the session object that reads as [s] in every field
    except [updatedAt], which is [now]. *)
Theorem save_load_roundtrip
  (join : string -> string -> string) (now : string)
  (s : PersistedSessionState) (w w' : World) :
  savePersistedSession join now s w = (Returned tt, w') ->
  exists parsed s',
    fst (loadPersistedSession join (cwd s) w') = Returned (Some parsed)
    /\ parsed = sessionToJson s'
    /\ readSession parsed = Some s'
    /\ updatedAt s' = now
    /\ agreeExcept [F_updatedAt] s s'.
Proof.
  intros Hsave.
  exists (sessionToJson (updatedState now s)), (updatedState now s).
  split; [exact (load_after_save join now s w w' Hsave)|].
  split; [reflexivity|].
  split; [apply readSession_toJson|].
  split; [reflexivity|]. frame_fields.
Qed.

Lemma save_load_roundtrip_witness :
  exists parsed s',
    fst (loadPersistedSession posixJoin (cwd pausedSample)
           (snd (savePersistedSession posixJoin t2 pausedSample emptyWorld)))
    = Returned (Some parsed)
    /\ parsed = sessionToJson s'
    /\ readSession parsed = Some s'
    /\ updatedAt s' = t2
    /\ agreeExcept [F_updatedAt] pausedSample s'.
Proof.
  apply (save_load_roundtrip posixJoin t2 pausedSample emptyWorld
           (snd (savePersistedSession posixJoin t2 pausedSample emptyWorld))).
  reflexivity.
Defined.



(** The cases on concrete stores: no file, and a file of version 2. *)
Example loadPersistedSession_no_file :
  fst (loadPersistedSession posixJoin "/w" emptyWorld) = Returned None.
Proof. reflexivity. Qed.

Example loadPersistedSession_version2 :
  fst (loadPersistedSession posixJoin "/w" version2World)
  = Returned (Some version2File)
  /\ console (snd (loadPersistedSession posixJoin "/w" version2World))
     = ["Unknown session file version: 2. Session may not load correctly."].
Proof. split; vm_compute; reflexivity. Qed.

(** ** Runs of the session store *)






Lemma timeLe_refl a : timeLe a a.
Proof. unfold timeLe. reflexivity. Qed.

Lemma timeLe_trans a b c : timeLe a b -> timeLe b c -> timeLe a c.
Proof. unfold timeLe. intros H1 H2. etrans; eassumption. Qed.

Lemma addSkippedTask_cases s t :
  addSkippedTask s t = s
  \/ (startedAt (addSkippedTask s t) = startedAt s
      /\ updatedAt (addSkippedTask s t) = updatedAt s
      /\ iterations (addSkippedTask s t) = iterations s
      /\ currentIteration (addSkippedTask s t) = currentIteration s
      /\ tasksCompleted (addSkippedTask s t) = tasksCompleted s
      /\ trackerState (addSkippedTask s t) = trackerState s).
Proof.
  unfold addSkippedTask. destruct (includes _ _); [left | right]; repeat split.
Qed.

Lemma reachable_runInvariant G t s : reachable G t s -> runInvariant t s.
Proof.
  unfold runInvariant.
  induction 1 as [now options | t s r _ IH Hit _ | t s now _ IH Hle
                 | t s _ IH | t s _ IH | t s err _ IH | t s taskId _ IH
                 | t s now _ IH Hle]; simpl.
  - repeat split; [apply timeLe_refl | now rewrite length_map | lia | lia].
  - destruct IH as (H1 & H2 & H3 & H4 & H5). repeat split; try assumption.
    + rewrite length_app. simpl. lia.
    + unfold updatedTasks. now rewrite length_map.
    + destruct (ir_taskCompleted r); lia.
    + destruct (ir_taskCompleted r); lia.
  - destruct IH as (H1 & H2 & H3 & H4 & H5). repeat split; try tauto.
    eapply timeLe_trans; eassumption.
  - exact IH.
  - exact IH.
  - exact IH.
  - destruct (addSkippedTask_cases s taskId) as [E | (E1 & E2 & E3 & E4 & E5 & E6)].
    + rewrite E. exact IH.
    + rewrite E1, E2, E3, E4, E5, E6. exact IH.
  - destruct IH as (H1 & H2 & H3 & H4 & H5). repeat split; try tauto.
    eapply timeLe_trans; eassumption.
Qed.





Lemma reachable_pausedSample : reachable openTaskResult t1 pausedSample.
Proof.
  unfold pausedSample, sampleSession.
  apply (reach_pause _ t0).
  - apply reach_update; [apply reach_create | reflexivity | reflexivity].
  - vm_compute. exact I.
Qed.


(** ** The Qwen output scanner *)

Lemma scanObject_plainChar c rest i d :
  plainChar c = true -> d <> 0 ->
  scanObject (String c rest) i d false false = scanObject rest (S i) d false false.
Proof.
  intros Hc Hd. unfold plainChar in Hc. apply negb_true_iff in Hc.
  repeat (apply orb_false_iff in Hc as [Hc ?]).
  simpl. rewrite Hc, H1, H0, H.
  apply Z.eqb_neq in Hd. now rewrite Hd.
Qed.

Lemma scanObject_plain p rest i d :
  allPlain p = true -> d <> 0 ->
  scanObject (p +:+ rest) i d false false
  = scanObject rest (String.length p + i) d false false.
Proof.
  unfold allPlain. revert i. induction p as [|c p IH]; intros i Hp Hd.
  - reflexivity.
  - simpl in Hp. apply andb_true_iff in Hp as [Hc Hp].
    rewrite str_app_cons, scanObject_plainChar by assumption.
    rewrite IH by assumption. simpl String.length.
    now rewrite Nat.add_succ_r.
Qed.

Lemma scanObject_quoteChar c tail i d :
  scanObject (quoteChar c +:+ tail) i d true false
  = scanObject tail (String.length (quoteChar c) + i) d true false.
Proof. all_chars c; reflexivity. Qed.

Lemma scanObject_quoteBody s tail i d :
  scanObject (quoteBody s +:+ tail) i d true false
  = scanObject tail (String.length (quoteBody s) + i) d true false.
Proof.
  revert i. induction s as [|c s IH]; intros i; [reflexivity|].
  simpl quoteBody. rewrite str_app_assoc, scanObject_quoteChar, IH.
  rewrite str_length_app. f_equal. lia.
Qed.

Lemma scanObject_quoted s rest i d :
  scanObject (quoteJSONString s +:+ rest) i d false false
  = scanObject rest (String.length (quoteJSONString s) + i) d false false.
Proof.
  unfold quoteJSONString, str1. norm_str.
  change (scanObject (String dquote ?x) i d false false)
    with (scanObject x (S i) d true false).
  rewrite scanObject_quoteBody.
  change (scanObject (String dquote rest) ?j d true false)
    with (scanObject rest (S j) d false false).
  simpl String.length. rewrite str_length_app. simpl String.length.
  f_equal. lia.
Qed.

Lemma allPlain_string_of_uint u : allPlain (NilEmpty.string_of_uint u) = true.
Proof. induction u; simpl; auto. Qed.

Lemma allPlain_numberToString n : allPlain (numberToString n) = true.
Proof.
  unfold numberToString, NilZero.string_of_int, NilZero.string_of_uint.
  destruct (Z.to_int n) as [u|u]; destruct u;
    try reflexivity; try apply allPlain_string_of_uint;
    change (allPlain (String "-" ?x)) with (allPlain x);
    try reflexivity; apply allPlain_string_of_uint.
Qed.

Lemma scanObject_elements indent rest items :
  Forall scannedOver items ->
  forall i d,
    0 < d ->
    scanObject
      (String.concat "," (map (serializeJSON EmptyString indent) items) +:+ rest)
      i d false false
    = scanObject rest
        (String.length
           (String.concat "," (map (serializeJSON EmptyString indent) items)) + i)
        d false false.
Proof.
  induction 1 as [|v items Hv Hall IH]; intros i d Hd; [reflexivity|].
  destruct items as [|v2 items].
  - rewrite map_cons, concat_one. now apply Hv.
  - rewrite map_cons, map_cons, concat_two, <- map_cons.
    rewrite !str_app_assoc, Hv by exact Hd.
    rewrite str_app_cons, str_app_nil_l, scanObject_plainChar by (reflexivity || lia).
    rewrite IH by exact Hd.
    rewrite !str_length_app. simpl String.length. f_equal. lia.
Qed.

Lemma scanObject_members indent rest members :
  Forall (fun m => scannedOver (snd m)) members ->
  forall i d,
    0 < d ->
    scanObject
      (String.concat "," (map (memberText EmptyString indent EmptyString) members)
       +:+ rest) i d false false
    = scanObject rest
        (String.length
           (String.concat ","
              (map (memberText EmptyString indent EmptyString) members)) + i)
        d false false.
Proof.
  induction 1 as [|[k v] members Hv Hall IH]; intros i d Hd; [reflexivity|].
  simpl in Hv.
  assert (Hm : forall tail j,
             scanObject (memberText EmptyString indent EmptyString (k, v) +:+ tail)
               j d false false
             = scanObject tail
                 (String.length (memberText EmptyString indent EmptyString (k, v)) + j)
                 d false false).
  { intros tail j. unfold memberText. simpl fst. simpl snd.
    rewrite !str_app_assoc, scanObject_quoted.
    rewrite str_app_cons, str_app_nil_l, scanObject_plainChar by (reflexivity || lia).
    rewrite str_app_nil_l, Hv by exact Hd.
    rewrite !str_length_app. simpl String.length. f_equal. lia. }
  destruct members as [|m2 members].
  - rewrite map_cons, concat_one. apply Hm.
  - rewrite map_cons, map_cons, concat_two, <- map_cons.
    rewrite !str_app_assoc, Hm.
    rewrite str_app_cons, str_app_nil_l, scanObject_plainChar by (reflexivity || lia).
    rewrite IH by exact Hd.
    rewrite !str_length_app. simpl String.length. f_equal. lia.
Qed.

(** An object: entered at depth [d], the scanner is at depth [d + 1] between
    the braces; the closing brace ends the scan when [d] is 0. *)
Lemma scanObject_object indent rest members i d :
  Forall (fun m => scannedOver (snd m)) members ->
  0 <= d ->
  scanObject (serializeJSON EmptyString indent (JObj members) +:+ rest)
    i d false false
  = if d =? 0
    then Some (String.length (serializeJSON EmptyString indent (JObj members)) + i - 1)%nat
    else scanObject rest
           (String.length (serializeJSON EmptyString indent (JObj members)) + i)
           d false false.
Proof.
  intros Hall Hd.
  assert (Hopen : forall x j,
             scanObject (String "{" x) j d false false
             = scanObject x (S j) (d + 1) false false).
  { intros x j. simpl. destruct (Z.eqb_spec (d + 1) 0); [lia | reflexivity]. }
  assert (Hclose : forall x j,
             scanObject (String "}" x) j (d + 1) false false
             = if d =? 0 then Some j else scanObject x (S j) d false false).
  { intros x j. simpl. rewrite Z.add_simpl_r. reflexivity. }
  destruct members as [|m ms].
  - change (serializeJSON EmptyString indent (JObj [])) with "{}".
    rewrite !str_app_cons, str_app_nil_l, Hopen, Hclose. simpl String.length.
    destruct (d =? 0); [f_equal; lia | reflexivity].
  - rewrite serializeJSON_obj. cbv zeta. simpl isEmpty. cbv iota.
    norm_str. rewrite Hopen.
    rewrite scanObject_members by (assumption || lia).
    rewrite Hclose. simpl String.length. rewrite !str_length_app.
    simpl String.length.
    destruct (d =? 0); f_equal; lia.
Qed.

Theorem scanObject_value v : scannedOver v.
Proof.
  induction v as [ | b | n | s | items IH | members IH ] using json_ind;
    intros indent rest i d Hd.
  - apply scanObject_plain; [reflexivity | lia].
  - destruct b; (apply scanObject_plain; [reflexivity | lia]).
  - apply scanObject_plain; [apply allPlain_numberToString | lia].
  - apply scanObject_quoted.
  - destruct items as [|x xs].
    + apply scanObject_plain; [reflexivity | lia].
    + rewrite serializeJSON_arr. cbv zeta. simpl isEmpty. cbv iota.
      norm_str. rewrite scanObject_plainChar by (reflexivity || lia).
      rewrite scanObject_elements by assumption.
      rewrite scanObject_plainChar by (reflexivity || lia).
      simpl String.length. rewrite !str_length_app. simpl String.length.
      f_equal. lia.
  - rewrite scanObject_object by (assumption || lia).
    destruct (Z.eqb_spec d 0); [lia | reflexivity].
Qed.

Lemma indexOf_noBrace_app junk s :
  noBrace junk = true ->
  indexOf "{" (junk +:+ s)
  = match indexOf "{" s with
    | Some i => Some (String.length junk + i)%nat
    | None => None
    end.
Proof.
  unfold noBrace. induction junk as [|a junk IH]; intros H.
  - simpl. destruct (indexOf "{" s); reflexivity.
  - simpl in H |- *. destruct (Ascii.eqb a "{"); [discriminate|].
    destruct (indexOf "{" junk) eqn:E; [discriminate|].
    rewrite IH by reflexivity. destruct (indexOf "{" s); reflexivity.
Qed.

Lemma dropStr_length_app a b n :
  dropStr (String.length a + n) (a +:+ b) = dropStr n b.
Proof. induction a as [|c a IH]; simpl; [reflexivity | exact IH]. Qed.

Lemma dropStr_length_app0 a b : dropStr (String.length a) (a +:+ b) = b.
Proof.
  rewrite <- (Nat.add_0_r (String.length a)). apply dropStr_length_app.
Qed.

Lemma takeStr_length_app a b : takeStr (String.length a) (a +:+ b) = a.
Proof. induction a as [|c a IH]; simpl; [now destruct b | now rewrite IH]. Qed.

Lemma takeStr_dropStr n s : takeStr n s +:+ dropStr n s = s.
Proof.
  revert s. induction n as [|n IH]; intros [|c s]; simpl; try reflexivity.
  now rewrite IH.
Qed.

Lemma length_takeStr n s :
  (n <= String.length s)%nat -> String.length (takeStr n s) = n.
Proof.
  revert s. induction n as [|n IH]; intros [|c s]; simpl; intros H;
    try reflexivity; try lia. rewrite IH; lia.
Qed.

Lemma length_dropStr_lt n s :
  s <> EmptyString -> (String.length (dropStr (S n) s) < String.length s)%nat.
Proof.
  destruct s as [|c s]; [contradiction|]. intros _. simpl.
  revert s. induction n as [|n IH]; intros s; simpl; [lia|].
  destruct s as [|c' s]; simpl; [lia|]. specialize (IH s). lia.
Qed.

Lemma scanObject_bound p i d s e k :
  scanObject p i d s e = Some k -> (i <= k < i + String.length p)%nat.
Proof.
  revert i d s e. induction p as [|c p IH]; intros i d s e; simpl; [discriminate|].
  assert (Hrec : forall d' s' e',
             scanObject p (S i) d' s' e' = Some k ->
             (i <= k < i + S (String.length p))%nat).
  { intros d' s' e' H. apply IH in H. lia. }
  destruct e; [apply Hrec|].
  destruct (Ascii.eqb c backslash); [apply Hrec|].
  destruct (Ascii.eqb c dquote); [apply Hrec|].
  destruct s; simpl; [apply Hrec|].
  destruct (_ =? 0); [|apply Hrec].
  intros H. inversion H. lia.
Qed.

Lemma scanObject_ext p q i d s e k :
  scanObject p i d s e = Some k -> scanObject (p +:+ q) i d s e = Some k.
Proof.
  revert i d s e. induction p as [|c p IH]; intros i d s e; simpl; [discriminate|].
  destruct e; [apply IH|].
  destruct (Ascii.eqb c backslash); [apply IH|].
  destruct (Ascii.eqb c dquote); [apply IH|].
  destruct s; simpl; [apply IH|].
  destruct (_ =? 0); [trivial | apply IH].
Qed.

Lemma stringify_object_start o :
  isObject o = true -> exists r, JSON_stringify o 0 = String "{" r.
Proof.
  destruct o as [ | | | | | [|m ms]]; try discriminate; intros _.
  - eexists. reflexivity.
  - unfold JSON_stringify. simpl spaces. rewrite serializeJSON_obj.
    eexists. reflexivity.
Qed.

Lemma scanObject_stringify o rest i :
  isObject o = true ->
  scanObject (JSON_stringify o 0 +:+ rest) i 0 false false
  = Some (String.length (JSON_stringify o 0) + i - 1)%nat.
Proof.
  destruct o as [ | | | | | ms]; try discriminate; intros _.
  unfold JSON_stringify. simpl spaces.
  rewrite scanObject_object; [reflexivity | | lia].
  apply Forall_forall. intros m _. apply scanObject_value.
Qed.

Lemma scanObject_truncated o cut i :
  isObject o = true ->
  (cut < String.length (JSON_stringify o 0))%nat ->
  scanObject (takeStr cut (JSON_stringify o 0)) i 0 false false = None.
Proof.
  intros Ho Hcut.
  destruct (scanObject (takeStr cut (JSON_stringify o 0)) i 0 false false)
    as [k|] eqn:E; [|reflexivity].
  exfalso.
  pose proof (scanObject_bound _ _ _ _ _ _ E) as Hb.
  rewrite length_takeStr in Hb by lia.
  apply (scanObject_ext _ (dropStr cut (JSON_stringify o 0))) in E.
  rewrite takeStr_dropStr in E.
  pose proof (scanObject_stringify o EmptyString i Ho) as Hs.
  rewrite str_app_nil_r in Hs. rewrite Hs in E. inversion E. lia.
Qed.

(** One round of the loop on a chunk. *)
Lemma extractLoop_chunk f junk o rest acc :
  goodChunk (junk, o) = true ->
  extractLoop (S f) (junk +:+ JSON_stringify o 0 +:+ rest) acc
  = extractLoop f rest (acc ++ [o]).
Proof.
  unfold goodChunk. simpl fst. simpl snd. intros H.
  apply andb_true_iff in H as [H Hu]. apply andb_true_iff in H as [Hj Ho].
  destruct (stringify_object_start o Ho) as (r & Er).
  assert (Hlen : (1 <= String.length (JSON_stringify o 0))%nat)
    by (rewrite Er; simpl; lia).
  cbn [extractLoop].
  rewrite indexOf_noBrace_app by exact Hj.
  replace (indexOf "{" (JSON_stringify o 0 +:+ rest)) with (Some O)
    by (rewrite Er; reflexivity).
  rewrite dropStr_length_app. cbn [dropStr].
  rewrite scanObject_stringify by exact Ho.
  unfold substring2, substringFrom.
  replace (String.length (JSON_stringify o 0) + (String.length junk + 0) - 1 + 1)%nat
    with (String.length junk + String.length (JSON_stringify o 0))%nat by lia.
  rewrite Nat.min_l, Nat.max_r by lia.
  rewrite dropStr_length_app. cbn [dropStr].
  replace (String.length junk + String.length (JSON_stringify o 0)
           - (String.length junk + 0))%nat
    with (String.length (JSON_stringify o 0)) by lia.
  rewrite takeStr_length_app, JSON_parse_stringify by exact Hu.
  rewrite dropStr_length_app, dropStr_length_app0. reflexivity.
Qed.

Lemma extractLoop_chunks chunks tail :
  forallb goodChunk chunks = true ->
  forall fuel acc,
    extractLoop (length chunks + fuel) (interleave chunks tail) acc
    = extractLoop fuel tail (acc ++ map snd chunks).
Proof.
  induction chunks as [|[junk o] chunks IH]; intros Hg fuel acc.
  - simpl. now rewrite List.app_nil_r.
  - simpl in Hg. apply andb_true_iff in Hg as [Hc Hg].
    change (length ((junk, o) :: chunks) + fuel)%nat
      with (S (length chunks + fuel)).
    cbn [interleave]. rewrite extractLoop_chunk by exact Hc.
    rewrite IH by exact Hg. cbn [map snd]. now rewrite <- app_assoc.
Qed.

Lemma length_interleave chunks tail :
  forallb goodChunk chunks = true ->
  (length chunks + String.length tail <= String.length (interleave chunks tail))%nat.
Proof.
  induction chunks as [|[junk o] chunks IH]; intros Hg; [simpl; lia|].
  simpl in Hg. apply andb_true_iff in Hg as [Hc Hg]. specialize (IH Hg).
  unfold goodChunk in Hc. simpl in Hc.
  apply andb_true_iff in Hc as [Hc _]. apply andb_true_iff in Hc as [_ Ho].
  destruct (stringify_object_start o Ho) as (r & Er).
  cbn [interleave length]. rewrite !str_length_app, Er. simpl String.length. lia.
Qed.

Lemma extractLoop_noBrace fuel tail acc :
  noBrace tail = true ->
  extractLoop (S fuel) tail acc = Some (acc, EmptyString).
Proof.
  unfold noBrace. intros H. cbn [extractLoop].
  destruct (indexOf "{" tail); [discriminate | reflexivity].
Qed.

(** The loop always comes to an end within its fuel. *)
Theorem extractLoop_total fuel current acc :
  (String.length current < fuel)%nat ->
  exists r, extractLoop fuel current acc = Some r.
Proof.
  revert current acc. induction fuel as [|fuel IH]; intros current acc Hlt; [lia|].
  cbn [extractLoop].
  destruct (indexOf "{" current) as [start|] eqn:Ei; [|eauto].
  assert (Hne : current <> EmptyString) by (intros ->; discriminate Ei).
  destruct (scanObject _ _ _ _ _) as [e|]; [|eauto].
  unfold substringFrom.
  destruct (JSON_parse _); apply IH.
  - rewrite Nat.add_1_r. pose proof (length_dropStr_lt e current Hne). lia.
  - rewrite Nat.add_1_r. pose proof (length_dropStr_lt start current Hne). lia.
Qed.

Corollary extractJsonObjects_total str :
  exists r, extractJsonObjects str = Some r.
Proof. apply extractLoop_total. lia. Qed.

(** C10. For objects [o1..on], each after a piece of text without an
    opening brace and followed by such a piece, [extractJsonObjects] of the
    concatenated [JSON.stringify] texts returns [o1..on] in order and the
    empty remainder; when the input goes on with a truncated object (a
    non-empty proper prefix of a [JSON.stringify] text), the complete
    objects are returned and the remainder is that prefix, from its opening
    brace on. *)
Theorem extractJsonObjects_stringify
  (chunks : list (string * json)) (trailing : string) :
  forallb goodChunk chunks = true ->
  noBrace trailing = true ->
  extractJsonObjects (interleave chunks trailing)
  = Some (map snd chunks, EmptyString)
  /\ forall o cut,
       isObject o = true ->
       (0 < cut < String.length (JSON_stringify o 0))%nat ->
       extractJsonObjects
         (interleave chunks (trailing +:+ takeStr cut (JSON_stringify o 0)))
       = Some (map snd chunks, takeStr cut (JSON_stringify o 0)).
Proof.
  intros Hg Htr. split.
  - unfold extractJsonObjects.
    pose proof (length_interleave chunks trailing Hg) as Hlen.
    replace (S (String.length (interleave chunks trailing)))
      with (length chunks
            + S (String.length (interleave chunks trailing) - length chunks))%nat
      by lia.
    rewrite extractLoop_chunks by exact Hg.
    now rewrite extractLoop_noBrace.
  - intros o cut Ho Hcut. unfold extractJsonObjects.
    set (tr := takeStr cut (JSON_stringify o 0)).
    pose proof (length_interleave chunks (trailing +:+ tr) Hg) as Hlen.
    replace (S (String.length (interleave chunks (trailing +:+ tr))))
      with (length chunks
            + S (String.length (interleave chunks (trailing +:+ tr))
                 - length chunks))%nat
      by lia.
    rewrite extractLoop_chunks by exact Hg.
    cbn [extractLoop].
    destruct (stringify_object_start o Ho) as (r & Er).
    assert (Etr : exists r', tr = String "{" r').
    { unfold tr. rewrite Er. destruct cut as [|cut]; [lia|]. simpl. eauto. }
    destruct Etr as (r' & Etr).
    rewrite indexOf_noBrace_app by exact Htr.
    replace (indexOf "{" tr) with (Some O) by (rewrite Etr; reflexivity).
    rewrite dropStr_length_app. cbn [dropStr].
    unfold tr at 1. rewrite scanObject_truncated by (assumption || lia).
    unfold substringFrom. rewrite dropStr_length_app. reflexivity.
Qed.

Lemma extractJsonObjects_stringify_witness :
  extractJsonObjects (interleave sampleChunks " done")
  = Some (map snd sampleChunks, EmptyString)
  /\ forall o cut,
       isObject o = true ->
       (0 < cut < String.length (JSON_stringify o 0))%nat ->
       extractJsonObjects
         (interleave sampleChunks (" done" +:+ takeStr cut (JSON_stringify o 0)))
       = Some (map snd sampleChunks, takeStr cut (JSON_stringify o 0)).
Proof.
  apply (extractJsonObjects_stringify sampleChunks " done"); reflexivity.
Defined.

(** The scanner on the sample text, and on the same text cut inside the
    second object. *)
Example extractJsonObjects_sample :
  extractJsonObjects (interleave sampleChunks " done")
  = Some (map snd sampleChunks, EmptyString).
Proof. vm_compute. reflexivity. Qed.

Example extractJsonObjects_sample_cut :
  extractJsonObjects (takeStr 80 (interleave sampleChunks " done"))
  = Some ([snd (("log: ",
              JObj [("type", JStr "assistant");
                    ("content",
                     JStr ("say " +:+ str1 dquote +:+ "{hi}" +:+ str1 dquote))]))],
          dropStr 51 (takeStr 80 (interleave sampleChunks " done"))).
Proof. vm_compute. reflexivity. Qed.

(** * Properties of the further parts *)

(** ** The session store: existence and deletion *)

Section SessionFilesProperties.

Variable join : string -> string -> string.

Lemma hasPersistedSession_true cwd w content :
  files w !! getSessionFilePath join cwd = Some (File content) ->
  fst (hasPersistedSession join cwd w) = true.
Proof.
  intros H. unfold hasPersistedSession, access. simpl. now rewrite H.
Qed.

(** X1. [hasPersistedSession] answers false whenever the look-up of the
    session file fails, for whatever reason, while [loadPersistedSession]
    returns [null] only when it fails with ENOENT and rethrows every other
    error.  So a [null] load implies the answer false, and the answer true
    implies a load that returns the parsed value or throws an error other
    than ENOENT; but with the answer false the load may still throw (ENOTDIR
    where the working directory is a regular file).  Neither call changes
    a file. *)
Theorem load_versus_has (cwd : string) (w : World) :
  let path := getSessionFilePath join cwd in
  (fst (hasPersistedSession join cwd w) = false
   <-> files w !! path = None
       \/ exists code, files w !! path = Some (Unreachable code))
  /\ (fst (loadPersistedSession join cwd w) = Returned None
      <-> files w !! path = None \/ files w !! path = Some (Unreachable "ENOENT"))
  /\ (fst (loadPersistedSession join cwd w) = Returned None ->
      fst (hasPersistedSession join cwd w) = false)
  /\ (fst (hasPersistedSession join cwd w) = true ->
      (exists parsed, fst (loadPersistedSession join cwd w) = Returned (Some parsed))
      \/ (exists e, fst (loadPersistedSession join cwd w) = Thrown e
                    /\ hasCode e "ENOENT" = false))
  /\ (fst (hasPersistedSession join cwd w) = false ->
      fst (loadPersistedSession join cwd w) = Returned None
      \/ exists code,
           code <> "ENOENT"
           /\ files w !! path = Some (Unreachable code)
           /\ fst (loadPersistedSession join cwd w) = Thrown (ErrnoException code))
  /\ files (snd (loadPersistedSession join cwd w)) = files w
  /\ files (snd (hasPersistedSession join cwd w)) = files w.
Proof.
  cbv zeta.
  unfold loadPersistedSession, loadTry, readFile, hasPersistedSession, access.
  simpl.
  destruct (files w !! getSessionFilePath join cwd) as [[content| |code]|]; simpl.
  - assert (Hno : ~ (Some (File content) = None
                     \/ exists code, Some (File content) = Some (Unreachable code)))
      by (intros [H|(code & H)]; discriminate H).
    assert (Hno' : ~ (Some (File content) = None
                      \/ Some (File content) = Some (Unreachable "ENOENT")))
      by (intros [H|H]; discriminate H).
    destruct (JSON_parse content) as [parsed|]; simpl.
    + destruct (getVersion parsed) as [ver|e] eqn:Ev; simpl.
      * destruct (isNot1 ver); simpl.
        -- destruct (versionWarning ver) as [msg|e] eqn:Ew; simpl.
           ++ repeat split; try discriminate; try tauto; eauto.
           ++ apply versionWarning_thrown in Ew as ->. simpl.
              repeat split; try discriminate; try tauto. right. eauto.
        -- repeat split; try discriminate; try tauto; eauto.
      * assert (e = TypeError) as ->
            by (destruct parsed; simpl in Ev; congruence).
        simpl. repeat split; try discriminate; try tauto. right. eauto.
    + repeat split; try discriminate; try tauto. right. eauto.
  - assert (Hno : ~ (Some Directory = None
                     \/ exists code, Some Directory = Some (Unreachable code)))
      by (intros [H|(code & H)]; discriminate H).
    assert (Hno' : ~ (Some Directory = None
                      \/ Some Directory = Some (Unreachable "ENOENT")))
      by (intros [H|H]; discriminate H).
    repeat split; try discriminate; try tauto. right. eauto.
  - destruct (String.eqb_spec code "ENOENT") as [->|Hne]; simpl.
    + repeat split; try discriminate; eauto.
    + repeat split; try discriminate; eauto.
      intros [H|H]; [discriminate H|]. injection H as ->. contradiction.
  - repeat split; try discriminate; auto.
Qed.

Lemma lookup_session_file_after_save now s w w1 :
  savePersistedSession join now s w = (Returned tt, w1) ->
  files w1 !! getSessionFilePath join (cwd s)
  = Some (File (JSON_stringify (sessionToJson (updatedState now s)) 2)).
Proof.
  intros H. rewrite (savePersistedSession_files join now s w w1 H).
  apply lookup_insert_eq.
Qed.

(** X2. After a successful save the session file exists; deleting it
    then reports true, and afterwards [hasPersistedSession] answers false,
    [loadPersistedSession] returns [null], and the files are those from
    before the save without the session file. *)
Theorem delete_after_save
  (now : string) (s : PersistedSessionState) (w w1 : World) :
  savePersistedSession join now s w = (Returned tt, w1) ->
  fst (hasPersistedSession join (cwd s) w1) = true
  /\ exists w2,
       deletePersistedSession join (cwd s) w1 = (Returned true, w2)
       /\ fst (hasPersistedSession join (cwd s) w2) = false
       /\ fst (loadPersistedSession join (cwd s) w2) = Returned None
       /\ files w2 = delete (getSessionFilePath join (cwd s)) (files w).
Proof.
  intros Hsave.
  pose proof (lookup_session_file_after_save now s w w1 Hsave) as Hf.
  split.
  - eapply hasPersistedSession_true, Hf.
  - unfold deletePersistedSession, unlink. simpl. rewrite Hf.
    eexists. split; [reflexivity|]. simpl.
    assert (Hgone : delete (getSessionFilePath join (cwd s)) (files w1)
                    !! getSessionFilePath join (cwd s) = None)
      by apply lookup_delete_eq.
    repeat split.
    + unfold hasPersistedSession, access. simpl. now rewrite Hgone.
    + unfold loadPersistedSession, loadTry, readFile. simpl. now rewrite Hgone.
    + rewrite (savePersistedSession_files join now s w w1 Hsave).
      apply delete_insert_eq.
Qed.

(** X3. [deletePersistedSession] returns true exactly when a regular
    file was at the session file path, and that entry is then gone; it
    returns false exactly when the look-up fails with ENOENT; on a directory
    and on a look-up that fails with another code (ENOTDIR where the
    working directory is a regular file) it throws.  Unless it returns true
    it changes nothing, and once it has returned, a second call returns
    false and changes nothing. *)
Theorem deletePersistedSession_spec (cwd : string) (w : World) :
  let target := getSessionFilePath join cwd in
  let r := deletePersistedSession join cwd w in
  (fst r = Returned true <-> exists content, files w !! target = Some (File content))
  /\ (fst r = Returned true -> files (snd r) !! target = None)
  /\ (fst r = Returned false
      <-> files w !! target = None \/ files w !! target = Some (Unreachable "ENOENT"))
  /\ (files w !! target = Some Directory ->
      exists e, fst r = Thrown e /\ hasCode e "ENOENT" = false)
  /\ (forall code,
        files w !! target = Some (Unreachable code) -> code <> "ENOENT" ->
        fst r = Thrown (ErrnoException code))
  /\ (fst r <> Returned true -> files (snd r) = files w)
  /\ (forall b, fst r = Returned b ->
        fst (deletePersistedSession join cwd (snd r)) = Returned false
        /\ files (snd (deletePersistedSession join cwd (snd r))) = files (snd r)).
Proof.
  cbv zeta. unfold deletePersistedSession, unlink. simpl.
  destruct (files w !! getSessionFilePath join cwd) as [[content| |code]|] eqn:Ef;
    simpl.
  - split; [split; eauto|]. split; [intros _; apply lookup_delete_eq|].
    split; [split; [discriminate | intros [H|H]; discriminate H]|].
    split; [discriminate|]. split; [discriminate|].
    split; [intros H; now contradiction H|].
    intros b _. rewrite lookup_delete_eq. split; reflexivity.
  - split; [split; [discriminate | intros (c & H); discriminate H]|].
    split; [discriminate|].
    split; [split; [discriminate | intros [H|H]; discriminate H]|].
    split; [intros _; eexists; split; reflexivity|].
    split; [discriminate|]. split; [reflexivity|]. discriminate.
  - destruct (String.eqb_spec code "ENOENT") as [->|Hne]; simpl.
    + split; [split; [discriminate | intros (c & H); discriminate H]|].
      split; [discriminate|]. split; [split; auto|].
      split; [discriminate|].
      split; [intros c H; injection H as <-; contradiction|].
      split; [reflexivity|].
      intros b _. rewrite Ef. simpl. split; reflexivity.
    + split; [split; [discriminate | intros (c & H); discriminate H]|].
      split; [discriminate|].
      split; [split; [discriminate|];
              intros [H|H]; [discriminate H | injection H as ->; contradiction]|].
      split; [discriminate|].
      split; [intros c H _; now injection H as <-|].
      split; [reflexivity | discriminate].
  - split; [split; [discriminate | intros (c & H); discriminate H]|].
    split; [discriminate|]. split; [split; auto|].
    split; [discriminate|]. split; [discriminate|]. split; [reflexivity|].
    intros b _. rewrite Ef. split; reflexivity.
Qed.

(** X5. Once a save has succeeded, every later save for the same
    directory succeeds as well, and a load then returns the state of the
    later save: the file holds exactly its text. *)
Theorem later_save_wins
  (now1 now2 : string) (s1 s2 : PersistedSessionState) (w w1 : World) :
  cwd s2 = cwd s1 ->
  savePersistedSession join now1 s1 w = (Returned tt, w1) ->
  exists w2,
    savePersistedSession join now2 s2 w1 = (Returned tt, w2)
    /\ files w2 = <[getSessionFilePath join (cwd s1) :=
                      File (JSON_stringify (sessionToJson (updatedState now2 s2)) 2)]>
                  (files w)
    /\ fst (loadPersistedSession join (cwd s1) w2)
       = Returned (Some (sessionToJson (updatedState now2 s2))).
Proof.
  intros Hcwd Hsave1.
  pose proof (lookup_session_file_after_save now1 s1 w w1 Hsave1) as Hf.
  assert (Hsave2 : exists w2, savePersistedSession join now2 s2 w1 = (Returned tt, w2)).
  { unfold savePersistedSession, writeFile. simpl. rewrite Hcwd, Hf. eauto. }
  destruct Hsave2 as (w2 & Hsave2). exists w2. split; [exact Hsave2|]. split.
  - rewrite (savePersistedSession_files join now2 s2 w1 w2 Hsave2).
    rewrite (savePersistedSession_files join now1 s1 w w1 Hsave1).
    rewrite Hcwd. apply insert_insert_eq.
  - rewrite <- Hcwd. exact (load_after_save join now2 s2 w1 w2 Hsave2).
Qed.

End SessionFilesProperties.

Lemma delete_after_save_witness :
  fst (hasPersistedSession posixJoin (cwd pausedSample)
         (snd (savePersistedSession posixJoin t2 pausedSample emptyWorld))) = true
  /\ exists w2,
       deletePersistedSession posixJoin (cwd pausedSample)
         (snd (savePersistedSession posixJoin t2 pausedSample emptyWorld))
       = (Returned true, w2)
       /\ fst (hasPersistedSession posixJoin (cwd pausedSample) w2) = false
       /\ fst (loadPersistedSession posixJoin (cwd pausedSample) w2) = Returned None
       /\ files w2
          = delete (getSessionFilePath posixJoin (cwd pausedSample)) (files emptyWorld).
Proof.
  apply (delete_after_save posixJoin t2 pausedSample emptyWorld
           (snd (savePersistedSession posixJoin t2 pausedSample emptyWorld))).
  reflexivity.
Defined.

Lemma later_save_wins_witness :
  exists w2,
    savePersistedSession posixJoin t2 pausedSample
      (snd (savePersistedSession posixJoin t1 sampleSession emptyWorld))
    = (Returned tt, w2)
    /\ files w2
       = <[getSessionFilePath posixJoin (cwd sampleSession) :=
             File (JSON_stringify (sessionToJson (updatedState t2 pausedSample)) 2)]>
         (files emptyWorld)
    /\ fst (loadPersistedSession posixJoin (cwd sampleSession) w2)
       = Returned (Some (sessionToJson (updatedState t2 pausedSample))).
Proof.
  apply (later_save_wins posixJoin t1 t2 sampleSession pausedSample emptyWorld
           (snd (savePersistedSession posixJoin t1 sampleSession emptyWorld)));
    reflexivity.
Defined.

(** ** Runs of the session store: what every reachable session satisfies *)

Lemma addSkippedTask_fields s t :
  version (addSkippedTask s t) = version s
  /\ status (addSkippedTask s t) = status s
  /\ isPaused (addSkippedTask s t) = isPaused s
  /\ pausedAt (addSkippedTask s t) = pausedAt s
  /\ startedAt (addSkippedTask s t) = startedAt s
  /\ iterations (addSkippedTask s t) = iterations s
  /\ trackerState (addSkippedTask s t) = trackerState s.
Proof. unfold addSkippedTask. destruct (includes _ _); repeat split. Qed.

(** X6. In every session reached from [createPersistedSession] by the
    mutators and saves: the schema version is 1; the status is never
    interrupted; [isPaused] is true exactly in status paused; a paused
    session has its [pausedAt]; a recorded [pausedAt] lies between
    [startedAt] and the current clock reading; and the session is resumable
    exactly when it is running or paused. *)
Theorem reachable_status (G : PersistedSessionState -> IterationResult -> Prop)
  (t : string) (s : PersistedSessionState) :
  reachable G t s ->
  version s = 1
  /\ status s <> Interrupted
  /\ (isPaused s = true <-> status s = Paused)
  /\ (status s = Paused -> is_Some (pausedAt s))
  /\ (forall at_, pausedAt s = Some at_ ->
        timeLe (startedAt s) at_ /\ timeLe at_ t)
  /\ (isSessionResumable s = true <-> status s = Running \/ status s = Paused).
Proof.
  intros Hr.
  assert (Hres : status s <> Interrupted ->
                 (isSessionResumable s = true
                  <-> status s = Running \/ status s = Paused)).
  { intros Hni. unfold isSessionResumable.
    destruct (status s); simpl; split; intros H; auto;
      try discriminate; try contradiction;
      destruct H as [H|H]; discriminate. }
  cut (version s = 1
       /\ status s <> Interrupted
       /\ (isPaused s = true <-> status s = Paused)
       /\ (status s = Paused -> is_Some (pausedAt s))
       /\ (forall at_, pausedAt s = Some at_ ->
             timeLe (startedAt s) at_ /\ timeLe at_ t)).
  { intros (H1 & H2 & H3 & H4 & H5). repeat split; try tauto; try apply H5; auto;
      apply Hres; auto. }
  clear Hres.
  induction Hr as [now options | t s r Hr IH Hit _ | t s now Hr IH Hle
                  | t s Hr IH | t s Hr IH | t s err Hr IH | t s taskId Hr IH
                  | t s now Hr IH Hle].
  - simpl. repeat split; try discriminate.
  - exact IH.
  - destruct (reachable_runInvariant _ _ _ Hr) as (Hst & _).
    destruct IH as (H1 & _).
    simpl. repeat split; try discriminate; eauto;
      match goal with H : Some _ = Some _ |- _ => inversion H; subst end.
    + eapply timeLe_trans; eassumption.
    + apply timeLe_refl.
  - destruct IH as (H1 & H2 & H3 & H4 & H5).
    simpl. repeat split; try discriminate; auto.
  - destruct IH as (H1 & H2 & H3 & H4 & H5).
    simpl. repeat split; try discriminate; try apply H5; auto.
  - destruct IH as (H1 & H2 & H3 & H4 & H5).
    simpl. repeat split; try discriminate; try apply H5; auto.
  - destruct (addSkippedTask_fields s taskId) as (E1 & E2 & E3 & E4 & E5 & _).
    rewrite E1, E2, E3, E4, E5. exact IH.
  - destruct IH as (H1 & H2 & H3 & H4 & H5).
    split; [exact H1|]. split; [exact H2|]. split; [exact H3|].
    split; [exact H4|].
    intros at_ E. destruct (H5 at_ E) as [Ha Hb]. split; [exact Ha|].
    eapply timeLe_trans; eassumption.
Qed.

Lemma reachable_status_witness :
  version pausedSample = 1
  /\ status pausedSample <> Interrupted
  /\ (isPaused pausedSample = true <-> status pausedSample = Paused)
  /\ (status pausedSample = Paused -> is_Some (pausedAt pausedSample))
  /\ (forall at_, pausedAt pausedSample = Some at_ ->
        timeLe (startedAt pausedSample) at_ /\ timeLe at_ t1)
  /\ (isSessionResumable pausedSample = true
      <-> status pausedSample = Running \/ status pausedSample = Paused).
Proof.
  apply (reachable_status openTaskResult t1 pausedSample).
  exact reachable_pausedSample.
Defined.

Lemma NoDup_snoc_fresh (l : list string) (x : string) :
  includes l x = false -> NoDup l -> NoDup (l ++ [x]).
Proof.
  intros Hx Hl. apply NoDup_app. split; [exact Hl|]. split.
  - intros y Hy Hin. apply list_elem_of_singleton in Hin. subst y.
    assert (includes l x = true) by (apply includes_In, list_elem_of_In, Hy).
    congruence.
  - apply NoDup_singleton.
Qed.

(** X7. The list of skipped tasks of a reachable session never holds a
    task id twice. *)
Theorem reachable_skipped_NoDup
  (G : PersistedSessionState -> IterationResult -> Prop)
  (t : string) (s : PersistedSessionState) :
  reachable G t s -> NoDup (skippedTaskIds s).
Proof.
  induction 1 as [now options | t s r _ IH _ _ | t s now _ IH _
                 | t s _ IH | t s _ IH | t s err _ IH | t s taskId _ IH
                 | t s now _ IH _]; simpl; try exact IH.
  - apply NoDup_nil_2.
  - unfold addSkippedTask.
    destruct (includes (skippedTaskIds s) taskId) eqn:E; [exact IH|].
    simpl. now apply NoDup_snoc_fresh.
Qed.

Lemma reachable_skippedSample : reachable anyResult t0 skippedSample.
Proof. apply reach_skip, reach_create. Qed.

Lemma reachable_skipped_NoDup_witness : NoDup (skippedTaskIds skippedSample).
Proof.
  apply (reachable_skipped_NoDup anyResult t0 skippedSample).
  exact reachable_skippedSample.
Defined.

Lemma numbersFrom_snoc first n :
  numbersFrom first (S n) = numbersFrom first n ++ [first + Z.of_nat n].
Proof.
  revert first. induction n as [|n IH]; intros first.
  - simpl. f_equal. lia.
  - change (numbersFrom first (S (S n)))
      with (first :: numbersFrom (first + 1) (S n)).
    rewrite IH. simpl. do 2 f_equal. f_equal. lia.
Qed.

(** X8. The iteration records of a reachable session are numbered
    1, 2, ..., in the order in which they were appended. *)
Theorem reachable_iterations_numbered
  (G : PersistedSessionState -> IterationResult -> Prop)
  (t : string) (s : PersistedSessionState) :
  reachable G t s ->
  map pir_iteration (iterations s) = numbersFrom 1 (length (iterations s)).
Proof.
  intros Hr.
  induction Hr as [now options | t s r Hr IH Hit _ | t s now _ IH _
                  | t s _ IH | t s _ IH | t s err _ IH | t s taskId _ IH
                  | t s now _ IH _]; simpl; try exact IH.
  - reflexivity.
  - destruct (reachable_runInvariant _ _ _ Hr) as (_ & _ & Hlen & _).
    rewrite map_app, length_app. simpl.
    rewrite Nat.add_1_r, numbersFrom_snoc, IH. do 2 f_equal. lia.
  - destruct (addSkippedTask_fields s taskId) as (_ & _ & _ & _ & _ & E & _).
    rewrite E. exact IH.
Qed.

Lemma reachable_lateTaskSession : reachable anyResult t0 lateTaskSession.
Proof.
  unfold lateTaskSession.
  apply reach_update; [apply reach_update; [apply reach_create | | ] | | ];
    reflexivity || exact I.
Qed.

Lemma reachable_iterations_numbered_witness :
  map pir_iteration (iterations lateTaskSession)
  = numbersFrom 1 (length (iterations lateTaskSession)).
Proof.
  apply (reachable_iterations_numbered anyResult t0 lateTaskSession).
  exact reachable_lateTaskSession.
Defined.

Lemma markTask_completed r task :
  completedInSession (markTask r task) = true
  <-> completedInSession task = true
      \/ (ir_taskCompleted r = true /\ snap_id task = task_id (ir_task r)).
Proof.
  unfold markTask.
  destruct (String.eqb_spec (snap_id task) (task_id (ir_task r))) as [E|E];
    destruct (ir_taskCompleted r); simpl; split; intros H; auto;
    destruct H as [H|[H1 H2]]; auto; try discriminate; contradiction.
Qed.

Lemma markTask_status r task :
  (completedInSession task = true -> snap_status task = "completed") ->
  completedInSession (markTask r task) = true ->
  snap_status (markTask r task) = "completed".
Proof.
  unfold markTask. destruct (String.eqb _ _ && _); simpl; auto.
Qed.

Lemma markTask_id r task : snap_id (markTask r task) = snap_id task.
Proof. unfold markTask. destruct (String.eqb _ _ && _); reflexivity. Qed.

(** X9. In a reachable session a task of the snapshot is marked
    [completedInSession] exactly when some recorded iteration completed a
    task of that id, and every task so marked has the status
    ['completed']. *)
Theorem reachable_completed_agree
  (G : PersistedSessionState -> IterationResult -> Prop)
  (t : string) (s : PersistedSessionState) :
  reachable G t s ->
  forall task, In task (tasks (trackerState s)) ->
    (completedInSession task = true
     <-> exists rec, In rec (iterations s)
                     /\ pir_taskCompleted rec = true
                     /\ pir_taskId rec = snap_id task)
    /\ (completedInSession task = true -> snap_status task = "completed").
Proof.
  induction 1 as [now options | t s r _ IH _ _ | t s now _ IH _
                 | t s _ IH | t s _ IH | t s err _ IH | t s taskId _ IH
                 | t s now _ IH _]; try exact IH.
  - simpl. intros task Hin. apply in_map_iff in Hin as (x & <- & _). simpl.
    split; [split|]; try discriminate. intros (rec & [] & _).
  - simpl. unfold updatedTasks. intros task' Hin.
    apply in_map_iff in Hin as (task & <- & Hin).
    destruct (IH task Hin) as [IH1 IH2]. split.
    + rewrite markTask_completed, markTask_id, IH1. split.
      * intros [(rec & Hrec & Hc & Hid) | (Hc & Hid)].
        -- exists rec. split; [apply in_or_app; now left | auto].
        -- exists (iterationRecord r). split; [apply in_or_app; right; now left|].
           simpl. auto.
      * intros (rec & Hrec & Hc & Hid). apply in_app_or in Hrec as [Hrec|Hrec].
        -- left. eauto.
        -- right. destruct Hrec as [<-|[]]. simpl in *. auto.
    + now apply markTask_status.
  - destruct (addSkippedTask_fields s taskId) as (_ & _ & _ & _ & _ & E1 & E2).
    rewrite E1, E2. exact IH.
Qed.

Lemma reachable_completed_agree_witness :
  (completedInSession (mkTaskStatusSnapshot "a" "first" "completed" true) = true
   <-> exists rec, In rec (iterations pausedSample)
                   /\ pir_taskCompleted rec = true
                   /\ pir_taskId rec
                      = snap_id (mkTaskStatusSnapshot "a" "first" "completed" true))
  /\ (completedInSession (mkTaskStatusSnapshot "a" "first" "completed" true) = true ->
      snap_status (mkTaskStatusSnapshot "a" "first" "completed" true) = "completed").
Proof.
  apply (reachable_completed_agree openTaskResult t1 pausedSample
           reachable_pausedSample
           (mkTaskStatusSnapshot "a" "first" "completed" true)).
  now left.
Defined.

(** X10. Recording an iteration, skipping a task and setting the status
    act on different fields: a status mutator commutes with
    [updateSessionAfterIteration] and with [addSkippedTask], and these two
    commute with each other. *)
Theorem mutations_commute
  (m : Mutation) (s : PersistedSessionState) (r : IterationResult) (t : string) :
  statusMutation m = true ->
  applyMutation m (updateSessionAfterIteration s r)
  = updateSessionAfterIteration (applyMutation m s) r
  /\ applyMutation m (addSkippedTask s t) = addSkippedTask (applyMutation m s) t
  /\ updateSessionAfterIteration (addSkippedTask s t) r
     = addSkippedTask (updateSessionAfterIteration s r) t.
Proof.
  intros Hm. repeat split.
  - destruct m; try discriminate Hm; reflexivity.
  - destruct m; try discriminate Hm; simpl; unfold addSkippedTask; simpl;
      destruct (includes (skippedTaskIds s) t); reflexivity.
  - unfold addSkippedTask. simpl.
    destruct (includes (skippedTaskIds s) t); reflexivity.
Qed.

Lemma mutations_commute_witness :
  applyMutation (MPause t1) (updateSessionAfterIteration sampleSession (resultFor 1 "a"))
  = updateSessionAfterIteration (applyMutation (MPause t1) sampleSession) (resultFor 1 "a")
  /\ applyMutation (MPause t1) (addSkippedTask sampleSession "b")
     = addSkippedTask (applyMutation (MPause t1) sampleSession) "b"
  /\ updateSessionAfterIteration (addSkippedTask sampleSession "b") (resultFor 1 "a")
     = addSkippedTask (updateSessionAfterIteration sampleSession (resultFor 1 "a")) "b".
Proof.
  apply (mutations_commute (MPause t1) sampleSession (resultFor 1 "a") "b").
  reflexivity.
Defined.

(** ** The Qwen output scanner on text that arrives in pieces *)

Lemma scanObject_shift s k i d st e :
  scanObject s (k + i) d st e = (fun x => k + x)%nat <$> scanObject s i d st e.
Proof.
  revert i d st e. induction s as [|c s IH]; intros i d st e; simpl; [reflexivity|].
  rewrite <- Nat.add_succ_r.
  destruct e; [apply IH|].
  destruct (Ascii.eqb c backslash); [apply IH|].
  destruct (Ascii.eqb c dquote); [apply IH|].
  destruct st; simpl; [apply IH|].
  destruct (_ =? 0); [reflexivity | apply IH].
Qed.

Lemma withObjects_app a b r :
  withObjects (a ++ b) r = withObjects a (withObjects b r).
Proof. destruct r as [[o rest]|]; simpl; [now rewrite app_assoc | reflexivity]. Qed.

Lemma withObjects_nil r : withObjects [] r = r.
Proof. now destruct r as [[o rest]|]. Qed.

Lemma extractLoop_acc fuel cur acc :
  extractLoop fuel cur acc = withObjects acc (extractLoop fuel cur []).
Proof.
  revert cur acc. induction fuel as [|fuel IH]; intros cur acc; [reflexivity|].
  cbn [extractLoop].
  destruct (indexOf "{" cur) as [start|];
    [|simpl; now rewrite List.app_nil_r].
  destruct (scanObject _ _ _ _ _) as [e|];
    [|simpl; now rewrite List.app_nil_r].
  destruct (JSON_parse _) as [obj|]; [|apply IH].
  rewrite (IH _ (acc ++ [obj])), (IH _ ([] ++ [obj])).
  simpl. apply withObjects_app.
Qed.

Lemma extractLoop_fuel f1 f2 cur acc :
  (String.length cur < f1)%nat -> (String.length cur < f2)%nat ->
  extractLoop f1 cur acc = extractLoop f2 cur acc.
Proof.
  revert f2 cur acc. induction f1 as [|f1 IH]; intros f2 cur acc H1 H2; [lia|].
  destruct f2 as [|f2]; [lia|]. cbn [extractLoop].
  destruct (indexOf "{" cur) as [start|] eqn:Ei; [|reflexivity].
  assert (Hne : cur <> EmptyString) by (intros ->; discriminate Ei).
  destruct (scanObject _ _ _ _ _) as [e|]; [|reflexivity].
  unfold substringFrom. rewrite !Nat.add_1_r.
  pose proof (length_dropStr_lt e cur Hne).
  pose proof (length_dropStr_lt start cur Hne).
  destruct (JSON_parse _); apply IH; lia.
Qed.

(** One round of the loop, without its fuel. *)
Lemma extractJsonObjects_unfold cur :
  extractJsonObjects cur
  = match indexOf "{" cur with
    | None => Some ([], EmptyString)
    | Some start =>
        match scanObject (dropStr start cur) start 0 false false with
        | Some e =>
            match JSON_parse (substring2 cur start (e + 1)) with
            | Some obj => withObjects [obj] (extractJsonObjects (dropStr (e + 1) cur))
            | None => extractJsonObjects (dropStr (start + 1) cur)
            end
        | None => Some ([], dropStr start cur)
        end
    end.
Proof.
  unfold extractJsonObjects at 1. cbn [extractLoop].
  destruct (indexOf "{" cur) as [start|] eqn:Ei; [|reflexivity].
  assert (Hne : cur <> EmptyString) by (intros ->; discriminate Ei).
  destruct (scanObject _ _ _ _ _) as [e|]; [|reflexivity].
  unfold substringFrom, extractJsonObjects. rewrite !Nat.add_1_r.
  pose proof (length_dropStr_lt e cur Hne).
  pose proof (length_dropStr_lt start cur Hne).
  destruct (JSON_parse _) as [obj|].
  - rewrite extractLoop_acc. simpl app. f_equal. apply extractLoop_fuel; lia.
  - apply extractLoop_fuel; lia.
Qed.

Lemma dropStr_add a b s : dropStr (a + b) s = dropStr b (dropStr a s).
Proof.
  revert s. induction a as [|a IH]; intros s; [reflexivity|].
  destruct s as [|c s]; simpl; [now destruct b | apply IH].
Qed.

Lemma indexOf_dropStr c s i :
  indexOf c s = Some i -> exists r, dropStr i s = String c r.
Proof.
  revert i. induction s as [|a s IH]; intros i; simpl; [discriminate|].
  destruct (Ascii.eqb_spec a c) as [->|Hne].
  - intros H. inversion H. simpl. eauto.
  - destruct (indexOf c s) as [j|]; [|discriminate].
    intros H. inversion H. simpl. now apply IH.
Qed.

Lemma indexOf_lt c s i : indexOf c s = Some i -> (i < String.length s)%nat.
Proof.
  revert i. induction s as [|a s IH]; intros i; simpl; [discriminate|].
  destruct (Ascii.eqb a c); [intros H; inversion H; lia|].
  destruct (indexOf c s) as [j|]; [|discriminate].
  intros H. inversion H. specialize (IH j eq_refl). lia.
Qed.

Lemma indexOf_app_Some c p q i :
  indexOf c p = Some i -> indexOf c (p +:+ q) = Some i.
Proof.
  revert i. induction p as [|a p IH]; intros i; simpl; [discriminate|].
  destruct (Ascii.eqb a c); [trivial|].
  destruct (indexOf c p) as [j|]; [|discriminate].
  intros H. now rewrite (IH j eq_refl).
Qed.

Lemma dropStr_app_le n p q :
  (n <= String.length p)%nat -> dropStr n (p +:+ q) = dropStr n p +:+ q.
Proof.
  revert p. induction n as [|n IH]; intros p H; [reflexivity|].
  destruct p as [|a p]; simpl in H |- *; [lia|]. apply IH. lia.
Qed.

Lemma takeStr_app_le n p q :
  (n <= String.length p)%nat -> takeStr n (p +:+ q) = takeStr n p.
Proof.
  revert p. induction n as [|n IH]; intros p H; [reflexivity|].
  destruct p as [|a p]; simpl in H |- *; [lia|]. rewrite IH; [reflexivity | lia].
Qed.

Lemma substring2_from cur start e :
  substring2 cur start (start + e + 1) = takeStr (e + 1) (dropStr start cur).
Proof.
  unfold substring2.
  replace (Nat.min start (start + e + 1)) with start by lia.
  replace (Nat.max start (start + e + 1) - start)%nat with (e + 1)%nat by lia.
  reflexivity.
Qed.

(** The text before the first opening brace plays no part. *)
Lemma extractJsonObjects_from_brace cur start :
  indexOf "{" cur = Some start ->
  extractJsonObjects cur = extractJsonObjects (dropStr start cur).
Proof.
  intros Ei. destruct (indexOf_dropStr _ _ _ Ei) as (r & Er).
  rewrite (extractJsonObjects_unfold cur), Ei.
  rewrite (extractJsonObjects_unfold (dropStr start cur)).
  replace (indexOf "{" (dropStr start cur)) with (Some O)
    by (rewrite Er; reflexivity).
  cbn [dropStr].
  rewrite <- (Nat.add_0_r start) at 2. rewrite scanObject_shift.
  destruct (scanObject (dropStr start cur) 0 0 false false) as [e|]; simpl;
    [|reflexivity].
  rewrite substring2_from.
  replace (substring2 (dropStr start cur) 0 (e + 1))
    with (takeStr (e + 1) (dropStr start cur))
    by (unfold substring2; simpl; now rewrite Nat.sub_0_r).
  rewrite <- !Nat.add_assoc, !dropStr_add. reflexivity.
Qed.

Lemma extractJsonObjects_app_aux n :
  forall p q, (String.length p <= n)%nat ->
    extractJsonObjects (p +:+ q) = scanMore (extractJsonObjects p) q.
Proof.
  induction n as [|n IH]; intros p q Hn.
  - destruct p; [|simpl in Hn; lia]. rewrite str_app_nil_l.
    unfold extractJsonObjects at 2. simpl. now rewrite withObjects_nil.
  - rewrite (extractJsonObjects_unfold p).
    destruct (indexOf "{" p) as [start|] eqn:Ei.
    + pose proof (indexOf_lt _ _ _ Ei) as Hlt.
      assert (Hne : p <> EmptyString) by (intros ->; discriminate Ei).
      destruct (scanObject (dropStr start p) start 0 false false) as [e|] eqn:Es.
      * pose proof (scanObject_bound _ _ _ _ _ _ Es) as Hb.
        assert (Hlen : String.length (dropStr start p) = (String.length p - start)%nat).
        { rewrite <- (takeStr_dropStr start p) at 2. rewrite str_length_app.
          rewrite length_takeStr by lia. lia. }
        rewrite (extractJsonObjects_unfold (p +:+ q)).
        rewrite (indexOf_app_Some _ _ _ _ Ei).
        rewrite dropStr_app_le by lia.
        rewrite (scanObject_ext _ q _ _ _ _ _ Es).
        assert (Hsub : substring2 (p +:+ q) start (e + 1) = substring2 p start (e + 1)).
        { unfold substring2.
          replace (Nat.min start (e + 1)) with start by lia.
          rewrite dropStr_app_le by lia. apply takeStr_app_le. lia. }
        rewrite Hsub.
        pose proof (length_dropStr_lt e p Hne) as H1.
        pose proof (length_dropStr_lt start p Hne) as H2.
        rewrite !Nat.add_1_r in *.
        destruct (JSON_parse _) as [obj|].
        -- rewrite dropStr_app_le by lia. rewrite IH by lia.
           destruct (extractJsonObjects (dropStr (S e) p)) as [[o r]|]; simpl;
             [|reflexivity].
           rewrite <- withObjects_app. reflexivity.
        -- rewrite dropStr_app_le by lia. apply IH. lia.
      * simpl. rewrite withObjects_nil.
        rewrite (extractJsonObjects_from_brace (p +:+ q) start)
          by (now apply indexOf_app_Some).
        rewrite dropStr_app_le by lia. reflexivity.
    + simpl. rewrite withObjects_nil.
      destruct (indexOf "{" q) as [j|] eqn:Eq.
      * rewrite (extractJsonObjects_from_brace (p +:+ q) (String.length p + j)).
        -- rewrite dropStr_length_app. symmetry.
           now apply extractJsonObjects_from_brace.
        -- rewrite indexOf_noBrace_app, Eq; [reflexivity|].
           unfold noBrace. now rewrite Ei.
      * rewrite (extractJsonObjects_unfold (p +:+ q)), (extractJsonObjects_unfold q).
        rewrite indexOf_noBrace_app, Eq; [reflexivity|].
        unfold noBrace. now rewrite Ei.
Qed.

(** X11. Scanning a text that arrives in two pieces: the objects of the
    first piece, then the objects found in what the first scan left over
    followed by the second piece; the remainder is that of the second
    scan.  Holds for every text, whatever it contains. *)
Theorem extractJsonObjects_app (first second : string) :
  extractJsonObjects (first +:+ second)
  = scanMore (extractJsonObjects first) second.
Proof. apply (extractJsonObjects_app_aux (String.length first)). lia. Qed.

Lemma JSON_parse_brace r v :
  JSON_parse (String "{" r) = Some v -> isObject v = true.
Proof.
  assert (Hm : forall fuel s acc v rest,
             parseMembers fuel s acc = POk v rest -> isObject v = true).
  { induction fuel as [|fuel IH]; intros s acc v0 rest; simpl; [discriminate|].
    destruct (skipWs s) as [|q r0]; [discriminate|].
    destruct (Ascii.eqb q dquote); [|discriminate].
    destruct (readStringBody r0) as [[key rest0]|]; [|discriminate].
    destruct (skipWs rest0) as [|c r1]; [discriminate|].
    destruct (Ascii.eqb c ":"); [|discriminate].
    destruct (parseValue fuel r1) as [v1 rest1| |]; try discriminate.
    destruct (skipWs rest1) as [|c2 r2]; [discriminate|].
    destruct (Ascii.eqb c2 ","); [apply IH|].
    destruct (Ascii.eqb c2 "}"); [|discriminate].
    intros H. inversion H. reflexivity. }
  unfold JSON_parse. cbn [parseValue skipWs].
  change (isWs "{") with false. cbn iota. change (Ascii.eqb "{" "{") with true.
  cbn iota.
  destruct (skipWs r) as [|c1 r1]; [discriminate|].
  destruct (Ascii.eqb c1 "}").
  - destruct (isEmpty _); [|discriminate]. intros H. inversion H. reflexivity.
  - destruct (parseMembers _ _ _) as [v1 rest1| |] eqn:E; try discriminate.
    destruct (isEmpty _); [|discriminate]. intros H. inversion H. subst.
    eapply Hm, E.
Qed.

Lemma takeStr_S_brace n s r :
  s = String "{" r -> takeStr (S n) s = String "{" (takeStr n r).
Proof. intros ->. reflexivity. Qed.

Lemma extractJsonObjects_shape_aux n :
  forall cur objects remaining, (String.length cur <= n)%nat ->
    extractJsonObjects cur = Some (objects, remaining) ->
    Forall (fun o => isObject o = true) objects
    /\ (exists before, cur = before +:+ remaining)
    /\ (remaining = EmptyString \/ startsWithBrace remaining = true).
Proof.
  induction n as [|n IH]; intros cur objects remaining Hn.
  - destruct cur; [|simpl in Hn; lia]. unfold extractJsonObjects. simpl.
    intros H. inversion H. split; [constructor|]. split; [now exists EmptyString | now left].
  - rewrite extractJsonObjects_unfold.
    destruct (indexOf "{" cur) as [start|] eqn:Ei.
    + assert (Hne : cur <> EmptyString) by (intros ->; discriminate Ei).
      destruct (indexOf_dropStr _ _ _ Ei) as (r & Er).
      destruct (scanObject (dropStr start cur) start 0 false false) as [e|] eqn:Es.
      * pose proof (scanObject_bound _ _ _ _ _ _ Es) as Hb.
        pose proof (length_dropStr_lt e cur Hne) as H1.
        pose proof (length_dropStr_lt start cur Hne) as H2.
        rewrite !Nat.add_1_r in *.
        assert (L1 : (String.length (dropStr (S e) cur) <= n)%nat) by lia.
        assert (L2 : (String.length (dropStr (S start) cur) <= n)%nat) by lia.
        destruct (JSON_parse _) as [obj|] eqn:Ep.
        -- destruct (extractJsonObjects (dropStr (S e) cur)) as [[o rem]|] eqn:Ee;
             [|discriminate].
           simpl. intros H. inversion H. subst.
           destruct (IH _ _ _ L1 Ee) as (Ho & (before & Hb') & Hr).
           split; [|split; [|exact Hr]].
           ++ constructor; [|exact Ho].
              unfold substring2 in Ep.
              replace (Nat.min start (S e)) with start in Ep by lia.
              replace (Nat.max start (S e) - start)%nat with (S (e - start)) in Ep by lia.
              rewrite (takeStr_S_brace _ _ _ Er) in Ep.
              eapply JSON_parse_brace, Ep.
           ++ exists (takeStr (S e) cur +:+ before).
              rewrite str_app_assoc, <- Hb'. symmetry. apply takeStr_dropStr.
        -- intros Ee.
           destruct (IH _ _ _ L2 Ee) as (Ho & (before & Hb') & Hr).
           split; [exact Ho|]. split; [|exact Hr].
           exists (takeStr (S start) cur +:+ before).
           rewrite str_app_assoc, <- Hb'. symmetry. apply takeStr_dropStr.
      * intros H. inversion H. subst. split; [constructor|]. split.
        -- exists (takeStr start cur). symmetry. apply takeStr_dropStr.
        -- right. rewrite Er. reflexivity.
    + intros H. inversion H. split; [constructor|]. split; [|now left].
      exists cur. now rewrite str_app_nil_r.
Qed.

Lemma extractJsonObjects_rescan str objects remaining :
  extractJsonObjects str = Some (objects, remaining) ->
  extractJsonObjects remaining = Some ([], remaining).
Proof.
  intros E.
  pose proof (extractJsonObjects_app_aux (String.length str) str EmptyString
                (Nat.le_refl _)) as H.
  rewrite str_app_nil_r, E in H. simpl in H. rewrite str_app_nil_r in H.
  destruct (extractJsonObjects remaining) as [[o r]|]; [|discriminate].
  simpl in H. inversion H as [[Ho Hr]].
  rewrite <- (List.app_nil_r objects) in Ho at 1.
  apply app_inv_head in Ho. now subst.
Qed.

(** X12. What [extractJsonObjects] returns, for every input: each value
    is an object (never an array, a string or a number); the remainder is
    a suffix of the input, empty or beginning with an opening brace; and
    scanning the remainder alone finds nothing and leaves it as it is. *)
Theorem extractJsonObjects_shape (str : string) (objects : list json)
  (remaining : string) :
  extractJsonObjects str = Some (objects, remaining) ->
  Forall (fun o => isObject o = true) objects
  /\ (exists before, str = before +:+ remaining)
  /\ (remaining = EmptyString \/ startsWithBrace remaining = true)
  /\ extractJsonObjects remaining = Some ([], remaining).
Proof.
  intros E.
  destruct (extractJsonObjects_shape_aux (String.length str) str objects remaining
              (Nat.le_refl _) E) as (H1 & H2 & H3).
  repeat split; auto. eapply extractJsonObjects_rescan, E.
Qed.

Lemma extractJsonObjects_shape_witness :
  Forall (fun o => isObject o = true) [assistantLine; toolLine]
  /\ (exists before,
         wholeOutput samplePieces
         = before +:+ takeStr 12 (JSON_stringify assistantLine 0))
  /\ (takeStr 12 (JSON_stringify assistantLine 0) = EmptyString
      \/ startsWithBrace (takeStr 12 (JSON_stringify assistantLine 0)) = true)
  /\ extractJsonObjects (takeStr 12 (JSON_stringify assistantLine 0))
     = Some ([], takeStr 12 (JSON_stringify assistantLine 0)).
Proof.
  apply (extractJsonObjects_shape (wholeOutput samplePieces)).
  vm_compute. reflexivity.
Defined.

(** ** The Qwen plugin: the output stream of [execute] *)

Lemma jsonlMessages_app a b :
  jsonlMessages (a ++ b) = jsonlMessages a ++ jsonlMessages b.
Proof.
  induction a as [|[] a IH]; simpl; try exact IH; [reflexivity | now rewrite IH].
Qed.

Lemma stdoutEvents_app a b :
  stdoutEvents (a ++ b) = stdoutEvents a ++ stdoutEvents b.
Proof.
  induction a as [|[] a IH]; simpl; try exact IH; [reflexivity|].
  now rewrite IH, app_assoc.
Qed.

Lemma segmentEvents_app a b :
  segmentEvents (a ++ b) = segmentEvents a ++ segmentEvents b.
Proof.
  induction a as [|[] a IH]; simpl; try exact IH; [reflexivity|].
  now rewrite IH, app_assoc.
Qed.

Lemma collectEvents_acc objects acc :
  collectEvents objects acc
  = match collectEvents objects [] with
    | Returned evs => Returned (acc ++ evs)
    | Thrown e => Thrown e
    end.
Proof.
  revert acc. induction objects as [|o objects IH]; intros acc; simpl.
  - now rewrite List.app_nil_r.
  - destruct (parseQwenEvent o) as [evs|e]; [|reflexivity].
    rewrite (IH (acc ++ evs)), (IH evs).
    destruct (collectEvents objects []); [now rewrite app_assoc | reflexivity].
Qed.

Lemma collectEvents_app a b :
  collectEvents (a ++ b) []
  = match collectEvents a [] with
    | Returned evs => collectEvents b evs
    | Thrown e => Thrown e
    end.
Proof.
  generalize (@nil AgentDisplayEvent) as acc.
  induction a as [|o a IH]; intros acc; simpl; [reflexivity|].
  destruct (parseQwenEvent o); [apply IH | reflexivity].
Qed.

(** What the caller has received: the objects and the events, in order. *)
Lemma processObjects_spec options objects acc st allEvents st' :
  processObjects options objects acc st = (Returned allEvents, st') ->
  collectEvents objects acc = Returned allEvents
  /\ internalBuffer st' = internalBuffer st
  /\ jsonlMessages (effects st')
     = jsonlMessages (effects st) ++ (if onJsonlMessage options then objects else [])
  /\ stdoutEvents (effects st') = stdoutEvents (effects st)
  /\ segmentEvents (effects st') = segmentEvents (effects st).
Proof.
  revert acc st. induction objects as [|o objects IH]; intros acc st; simpl.
  - intros H. inversion H. subst. repeat split.
    destruct (onJsonlMessage options); simpl; now rewrite List.app_nil_r.
  - destruct (parseQwenEvent o) as [evs|e]; [|discriminate].
    intros H. apply IH in H as (H1 & H2 & H3 & H4 & H5).
    split; [exact H1|]. rewrite H2, H3, H4, H5. unfold emit.
    destruct (onJsonlMessage options); simpl;
      rewrite ?jsonlMessages_app, ?stdoutEvents_app, ?segmentEvents_app; simpl;
      rewrite ?List.app_nil_r, <- ?app_assoc; repeat split; reflexivity.
Qed.

Lemma processBuffer_spec options st st' objects remaining :
  extractJsonObjects (internalBuffer st) = Some (objects, remaining) ->
  processBuffer options st = (Returned tt, st') ->
  exists evs,
    collectEvents objects [] = Returned evs
    /\ internalBuffer st' = remaining
    /\ jsonlMessages (effects st')
       = jsonlMessages (effects st) ++ (if onJsonlMessage options then objects else [])
    /\ stdoutEvents (effects st')
       = stdoutEvents (effects st) ++ (if onStdout options then evs else [])
    /\ segmentEvents (effects st')
       = segmentEvents (effects st) ++ (if onStdoutSegments options then evs else []).
Proof.
  intros Ex. unfold processBuffer.
  destruct (isEmpty (internalBuffer st)) eqn:Eb.
  - destruct (internalBuffer st) eqn:Ebuf; [|discriminate].
    unfold extractJsonObjects in Ex. simpl in Ex. inversion Ex. subst.
    intros H. inversion H. subst. exists []. rewrite Ebuf.
    destruct (onJsonlMessage options), (onStdout options), (onStdoutSegments options);
      rewrite <- ?app_assoc, ?List.app_nil_r; auto.
  - rewrite Ex. destruct objects as [|o objects].
    + intros E. inversion E. subst. exists []. simpl.
      destruct (onJsonlMessage options), (onStdout options), (onStdoutSegments options);
      rewrite <- ?app_assoc, ?List.app_nil_r; auto.
    + destruct (processObjects _ _ _ _) as [[allEvents|e] st1] eqn:Ep; [|discriminate].
      intros Hret.
      apply processObjects_spec in Ep as (H1 & H2 & H3 & H4 & H5).
      simpl in H2, H3, H4, H5.
      exists allEvents. split; [exact H1|].
      destruct allEvents as [|ev allEvents].
      * inversion Hret. subst. rewrite H3, H4, H5.
        destruct (onStdout options), (onStdoutSegments options);
          rewrite ?List.app_nil_r; auto.
      * inversion Hret. subst. clear Hret. unfold emit.
        destruct (onStdoutSegments options), (onStdout options); simpl;
          rewrite ?stdoutEvents_app, ?segmentEvents_app, ?jsonlMessages_app;
          simpl; rewrite ?List.app_nil_r, ?H2, ?H3, ?H4, ?H5; auto.
Qed.

Lemma wholeOutput_cons data pieces :
  wholeOutput (data :: pieces) = data +:+ wholeOutput pieces.
Proof. reflexivity. Qed.

Lemma feed_spec options :
  handlesStdout options = true ->
  forall pieces seen objects0 st st',
    extractJsonObjects seen = Some (objects0, internalBuffer st) ->
    feed options pieces st = (Returned tt, st') ->
    exists objects evs,
      extractJsonObjects (seen +:+ wholeOutput pieces)
      = Some (objects0 ++ objects, internalBuffer st')
      /\ collectEvents objects [] = Returned evs
      /\ jsonlMessages (effects st')
         = jsonlMessages (effects st) ++ (if onJsonlMessage options then objects else [])
      /\ stdoutEvents (effects st')
         = stdoutEvents (effects st) ++ (if onStdout options then evs else [])
      /\ segmentEvents (effects st')
         = segmentEvents (effects st) ++ (if onStdoutSegments options then evs else []).
Proof.
  intros Hh. induction pieces as [|data pieces IH]; intros seen objects0 st st' Hseen.
  - simpl. intros H. inversion H. subst. exists [], [].
    rewrite str_app_nil_r, !List.app_nil_r. split; [exact Hseen|].
    destruct (onJsonlMessage options), (onStdout options), (onStdoutSegments options);
      rewrite <- ?app_assoc, ?List.app_nil_r; auto.
  - cbn [feed]. rewrite Hh.
    destruct (stdoutHandler options data st) as [[[]|e] st1] eqn:Eh; [|discriminate].
    intros Hfeed. unfold stdoutHandler in Eh. simpl in Eh.
    pose proof (extractJsonObjects_app_aux (String.length seen) seen data
                  (Nat.le_refl _)) as Happ.
    rewrite Hseen in Happ. simpl in Happ.
    destruct (extractJsonObjects (internalBuffer st +:+ data)) as [[o1 r1]|] eqn:E1.
    2:{ destruct (extractJsonObjects_total (internalBuffer st +:+ data)) as (x & Hx).
        rewrite Hx in E1. discriminate. }
    simpl in Happ.
    apply (processBuffer_spec _ _ _ o1 r1) in Eh; [|exact E1].
    destruct Eh as (evs1 & C1 & B1 & J1 & S1 & G1). simpl in J1, S1, G1.
    rewrite jsonlMessages_app in J1. rewrite stdoutEvents_app in S1.
    rewrite segmentEvents_app in G1. simpl in J1, S1, G1.
    rewrite List.app_nil_r in J1, S1, G1.
    rewrite <- B1 in Happ.
    destruct (IH (seen +:+ data) (objects0 ++ o1) st1 st' Happ Hfeed)
      as (o2 & evs2 & X2 & C2 & J2 & S2 & G2).
    exists (o1 ++ o2), (evs1 ++ evs2).
    rewrite wholeOutput_cons, <- str_app_assoc, X2, app_assoc.
    split; [reflexivity|]. split.
    { rewrite collectEvents_app, C1, collectEvents_acc, C2. reflexivity. }
    rewrite J2, S2, G2, J1, S1, G1.
    destruct (onJsonlMessage options), (onStdout options), (onStdoutSegments options);
      rewrite <- ?app_assoc, ?List.app_nil_r; auto.
Qed.

(** X13. The objects and events that reach the caller do not depend on how
    the output is cut into pieces.  When every call of the [onStdout]
    handler returns, the buffer holds the remainder of one scan of the whole
    output, the objects passed to [onJsonlMessage] are those of that scan,
    in order, and the events passed to [onStdout] and to
    [onStdoutSegments] are, taken together, the events of these objects. *)
Theorem feed_whole (options : ExecuteOptions) (pieces : list string)
  (st : ExecState) :
  handlesStdout options = true ->
  feed options pieces initialExecState = (Returned tt, st) ->
  exists objects evs,
    extractJsonObjects (wholeOutput pieces) = Some (objects, internalBuffer st)
    /\ parseQwenOutputToEvents (wholeOutput pieces) = Some (Returned evs)
    /\ jsonlMessages (effects st) = (if onJsonlMessage options then objects else [])
    /\ stdoutEvents (effects st) = (if onStdout options then evs else [])
    /\ segmentEvents (effects st) = (if onStdoutSegments options then evs else []).
Proof.
  intros Hh Hfeed.
  destruct (feed_spec options Hh pieces EmptyString [] initialExecState st
              eq_refl Hfeed) as (objects & evs & X & C & J & S & G).
  rewrite str_app_nil_l in X. simpl in X, J, S, G.
  exists objects, evs. unfold parseQwenOutputToEvents. rewrite X, C. auto.
Qed.

Lemma feed_whole_witness :
  exists objects evs,
    extractJsonObjects (wholeOutput samplePieces)
    = Some (objects, internalBuffer (snd (feed allOptions samplePieces initialExecState)))
    /\ parseQwenOutputToEvents (wholeOutput samplePieces) = Some (Returned evs)
    /\ jsonlMessages (effects (snd (feed allOptions samplePieces initialExecState)))
       = (if onJsonlMessage allOptions then objects else [])
    /\ stdoutEvents (effects (snd (feed allOptions samplePieces initialExecState)))
       = (if onStdout allOptions then evs else [])
    /\ segmentEvents (effects (snd (feed allOptions samplePieces initialExecState)))
       = (if onStdoutSegments allOptions then evs else []).
Proof.
  apply (feed_whole allOptions samplePieces
           (snd (feed allOptions samplePieces initialExecState))).
  - reflexivity.
  - vm_compute. reflexivity.
Defined.

(** X14. The [processBuffer()] of the [onEnd] handler delivers nothing:
    after output whose handler calls all returned, the buffer holds at most
    the beginning of an object that never closed, and it is left there. *)
Theorem endHandler_delivers_nothing (options : ExecuteOptions)
  (pieces : list string) (st : ExecState) :
  feed options pieces initialExecState = (Returned tt, st) ->
  endHandler options st = (Returned tt, st).
Proof.
  intros Hfeed. unfold endHandler.
  destruct (handlesStdout options) eqn:Hh.
  - destruct (feed_spec options Hh pieces EmptyString [] initialExecState st
                eq_refl Hfeed) as (objects & evs & X & _).
    apply extractJsonObjects_rescan in X.
    unfold processBuffer. rewrite X.
    destruct (isEmpty (internalBuffer st)); [reflexivity|]. now destruct st.
  - assert (Hst : st = initialExecState).
    { revert Hfeed. generalize initialExecState as st0.
      induction pieces as [|d pieces IH]; intros st0; simpl.
      - intros H. now inversion H.
      - rewrite Hh. apply IH. }
    subst. reflexivity.
Qed.

Lemma endHandler_delivers_nothing_witness :
  endHandler allOptions (snd (feed allOptions samplePieces initialExecState))
  = (Returned tt, snd (feed allOptions samplePieces initialExecState)).
Proof.
  apply (endHandler_delivers_nothing allOptions samplePieces).
  vm_compute. reflexivity.
Defined.

(** ** The Qwen plugin: display events *)

Lemma isStr_eq v lit : isStr v lit = true -> v = Some (JStr lit).
Proof.
  destruct v as [[]|]; simpl; try discriminate.
  intros H. apply String.eqb_eq in H. now subst.
Qed.

Lemma isEmpty_false s : isEmpty s = false <-> s <> EmptyString.
Proof. destruct s; simpl; split; congruence. Qed.

Lemma textEvents_shape content e :
  In e (textEvents content) -> exists c, e = EvText c /\ c <> EmptyString.
Proof.
  unfold textEvents. destruct content as [[]|]; try contradiction.
  destruct (isEmpty s) eqn:E; [contradiction|].
  intros [<-|[]]. exists s. split; [reflexivity | now apply isEmpty_false].
Qed.

Lemma textEvents_length content : (length (textEvents content) <= 1)%nat.
Proof.
  unfold textEvents. destruct content as [[]|]; simpl; try lia.
  destruct (isEmpty s); simpl; lia.
Qed.

Lemma jsOrElse_truthy a d :
  truthy (Some d) = true -> truthy (Some (jsOrElse a d)) = true.
Proof.
  unfold jsOrElse. destruct a as [x|]; [|trivial].
  destruct (truthy (Some x)) eqn:E; trivial.
Qed.

Lemma itemText_cases x :
  (x = JNull /\ itemText x = Thrown TypeError)
  \/ (x <> JNull /\ exists y, itemText x = Returned y).
Proof. destruct x; simpl; [left; auto | right; split; [discriminate | eauto] ..]. Qed.

Lemma mapItems_thrown items e :
  mapItems items = Thrown e <-> e = TypeError /\ In JNull items.
Proof.
  revert e. induction items as [|x items IH]; intros e; cbn [mapItems].
  - split; [discriminate | intros [_ []]].
  - destruct (itemText_cases x) as [[-> E]|[Hx (y & E)]]; rewrite E.
    + split; [intros H; inversion H; split; [reflexivity | now left]
             | intros [-> _]; reflexivity].
    + destruct (mapItems items) as [xs|e'].
      * split; [discriminate|]. intros [He [Hin|Hin]]; [congruence|].
        assert (Ht : Returned xs = Thrown e) by (apply IH; auto). discriminate.
      * split.
        -- intros H. inversion H. subst. destruct (proj1 (IH e) eq_refl).
           split; auto. now right.
        -- intros [-> _]. destruct (proj1 (IH e') eq_refl) as [-> _]. reflexivity.
Qed.

(** X15. The events of one Qwen event object, whenever the call returns:
    at most two; two only as an error followed by a tool result; a text
    event never has empty content; and the name of a tool use is never a
    falsy value (a missing name becomes ['unknown']). *)
Theorem parseQwenEvent_events (event : json) (evs : list AgentDisplayEvent) :
  parseQwenEvent event = Returned evs ->
  (length evs <= 2)%nat
  /\ (length evs = 2%nat -> exists m, evs = [EvError m; EvToolResult])
  /\ (forall c, In (EvText c) evs -> c <> EmptyString)
  /\ (forall n i, In (EvToolUse n i) evs -> truthy (Some n) = true).
Proof.
  assert (Hret : forall content,
             Returned (textEvents content) = Returned evs ->
             (length evs <= 2)%nat
             /\ (length evs = 2%nat -> exists m, evs = [EvError m; EvToolResult])
             /\ (forall c, In (EvText c) evs -> c <> EmptyString)
             /\ (forall n i, In (EvToolUse n i) evs -> truthy (Some n) = true)).
  { intros content H. injection H as <-.
    pose proof (textEvents_length content) as Hl.
    split; [lia|]. split; [intros; lia|]. split.
    - intros c Hin. apply textEvents_shape in Hin as (c' & E & Hc). now inversion E.
    - intros n i Hin. apply textEvents_shape in Hin as (c' & E & _). discriminate. }
  unfold parseQwenEvent.
  destruct (negb (truthy (Some event)) || negb (typeofObject event)).
  { intros H. injection H as <-. simpl. split; [lia|]. split; [discriminate|].
    split; intros; contradiction. }
  destruct (isAssistant event && negb (isUser event)).
  { destruct (negb _ && truthy _); [|apply Hret].
    destruct (getOpt "content" (getProp "message" event)) as [[ | | | | items | ]|];
      try apply Hret.
    destruct (mapItems items); [apply Hret | discriminate]. }
  destruct (isStr _ "tool_call" || _).
  { intros H. injection H as <-. simpl. split; [lia|]. split; [discriminate|].
    split; [intros c [E|[]]; discriminate|].
    intros n i [E|[]]. inversion E. now apply jsOrElse_truthy. }
  destruct (isStr _ "tool_result" || _).
  { destruct (_ || _); intros H; injection H as <-; simpl.
    - split; [lia|]. split; [eauto|].
      split; [intros c [E|[E|[]]]; discriminate|].
      intros n i [E|[E|[]]]; discriminate.
    - split; [lia|]. split; [discriminate|].
      split; [intros c [E|[]]; discriminate|].
      intros n i [E|[]]; discriminate. }
  destruct (isStr _ "error"); intros H; injection H as <-; simpl.
  - split; [lia|]. split; [discriminate|].
    split; [intros c [E|[]]; discriminate|].
    intros n i [E|[]]; discriminate.
  - split; [lia|]. split; [discriminate|]. split; intros; contradiction.
Qed.

Lemma parseQwenEvent_events_witness :
  (length [EvError "rate limit"] <= 2)%nat
  /\ (length [EvError "rate limit"] = 2%nat ->
      exists m, [EvError "rate limit"] = [EvError m; EvToolResult])
  /\ (forall c, In (EvText c) [EvError "rate limit"] -> c <> EmptyString)
  /\ (forall n i, In (EvToolUse n i) [EvError "rate limit"] -> truthy (Some n) = true).
Proof.
  apply (parseQwenEvent_events errorLine). reflexivity.
Defined.

(** X16. An event of type ['error'] yields exactly one error event, and its
    message is never empty, unless the event also carries the role
    ['assistant']: then it is read as an assistant message and no error
    event comes out of it. *)
Theorem parseQwenEvent_error (event : json) :
  isStr (getProp "type" event) "error" = true ->
  (isStr (getProp "role" event) "assistant" = false ->
   exists m, parseQwenEvent event = Returned [EvError m] /\ m <> EmptyString)
  /\ (isStr (getProp "role" event) "assistant" = true ->
      forall evs m, parseQwenEvent event = Returned evs -> ~ In (EvError m) evs).
Proof.
  intros Ht. pose proof (isStr_eq _ _ Ht) as Etype.
  assert (Hobj : negb (truthy (Some event)) || negb (typeofObject event) = false).
  { destruct event; try discriminate Etype. reflexivity. }
  split; intros Hrole.
  - unfold parseQwenEvent, isAssistant, isUser. rewrite Hobj, Etype, Hrole. simpl.
    eexists. split; [reflexivity|].
    destruct (isEmpty (extractErrorMessage (getProp "error" event))) eqn:E1; simpl.
    + destruct (isEmpty (extractErrorMessage (getProp "message" event))) eqn:E2; simpl.
      * discriminate.
      * now apply isEmpty_false.
    + now apply isEmpty_false.
  - intros evs m. pose proof (isStr_eq _ _ Hrole) as Erole.
    assert (Hcond : isAssistant event && negb (isUser event) = true).
    { unfold isAssistant, isUser. rewrite Etype, Erole. reflexivity. }
    unfold parseQwenEvent. rewrite Hobj, Hcond.
    assert (Hno : forall content, ~ In (EvError m) (textEvents content)).
    { intros content Hin. apply textEvents_shape in Hin as (c & E & _). discriminate. }
    assert (Hret : forall content,
               Returned (textEvents content) = Returned evs -> ~ In (EvError m) evs).
    { intros content H. injection H as <-. apply Hno. }
    destruct (negb _ && truthy _); [|apply Hret].
    destruct (getOpt "content" (getProp "message" event)) as [[ | | | | items | ]|];
      try apply Hret.
    destruct (mapItems items); [apply Hret | discriminate].
Qed.

Lemma parseQwenEvent_error_witness :
  (isStr (getProp "role" errorLine) "assistant" = false ->
   exists m, parseQwenEvent errorLine = Returned [EvError m] /\ m <> EmptyString)
  /\ (isStr (getProp "role" errorLine) "assistant" = true ->
      forall evs m, parseQwenEvent errorLine = Returned evs -> ~ In (EvError m) evs).
Proof.
  apply (parseQwenEvent_error errorLine). reflexivity.
Defined.

(** X17. [parseQwenEvent] throws in one case only, and then a TypeError:
    an assistant event that is not a user event, with no truthy [content],
    [text] or [delta.content], whose [message.content] is an array with a
    [null] among its entries. *)
Theorem parseQwenEvent_throws (event : json) (e : exn) :
  parseQwenEvent event = Thrown e
  <-> e = TypeError
      /\ isAssistant event = true
      /\ isUser event = false
      /\ truthy (jsOr (jsOr (getProp "content" event) (getProp "text" event))
                      (getOpt "content" (getProp "delta" event))) = false
      /\ exists items,
           getOpt "content" (getProp "message" event) = Some (JArr items)
           /\ In JNull items.
Proof.
  unfold parseQwenEvent.
  destruct (negb (truthy (Some event)) || negb (typeofObject event)) eqn:Hobj.
  { split; [discriminate|]. intros (_ & Ha & _).
    destruct event; try discriminate Hobj; discriminate Ha. }
  destruct (isAssistant event) eqn:Ha; simpl.
  2:{ split; [|intros (_ & H & _); discriminate].
      repeat match goal with
             | |- context [if ?c then _ else _] => destruct c
             end; discriminate. }
  destruct (isUser event) eqn:Hu; simpl.
  { split; [|intros (_ & _ & H & _); discriminate].
    repeat match goal with
           | |- context [if ?c then _ else _] => destruct c
           end; discriminate. }
  destruct (truthy (jsOr _ _)) eqn:Hc; simpl.
  { split; [discriminate | intros (_ & _ & _ & H & _); discriminate]. }
  destruct (getOpt "content" (getProp "message" event)) as [[ | | | | items | ]|] eqn:Hm;
    simpl; try (split; [try discriminate;
                        destruct (negb (isEmpty _)); discriminate
                       | intros (_ & _ & _ & _ & items' & E & _); discriminate]).
  - destruct b; (split; [discriminate
                        | intros (_ & _ & _ & _ & items' & E & _); discriminate]).
  - destruct (negb (n =? 0)); (split; [discriminate
                        | intros (_ & _ & _ & _ & items' & E & _); discriminate]).
  - destruct (mapItems items) as [texts|e'] eqn:Emap.
    + split; [discriminate|]. intros (He & _ & _ & _ & items' & E & Hin).
      injection E as <-.
      assert (Ht : mapItems items = Thrown e) by (apply mapItems_thrown; auto).
      congruence.
    + split.
      * intros H. injection H as ->. apply mapItems_thrown in Emap as [-> Hin].
        repeat split; eauto.
      * intros (-> & _ & _ & _ & items' & E & Hin). injection E as <-.
        apply mapItems_thrown in Emap as [-> _]. reflexivity.
Qed.

(** X18. An event of type or role ['user'] never yields a text event, even
    when it also says ['assistant'], and the call returns. *)
Theorem parseQwenEvent_user (event : json) :
  isUser event = true ->
  exists evs,
    parseQwenEvent event = Returned evs
    /\ forall c, ~ In (EvText c) evs.
Proof.
  intros Hu. unfold parseQwenEvent. rewrite Hu, andb_false_r.
  destruct (negb (truthy (Some event)) || negb (typeofObject event)).
  { eexists. split; [reflexivity|]. intros c []. }
  cbn [negb].
  repeat match goal with
         | |- context [if ?c then _ else _] => destruct c
         end;
    (eexists; split; [reflexivity|]; simpl; intros c H;
     intuition discriminate).
Qed.

Lemma parseQwenEvent_user_witness :
  exists evs,
    parseQwenEvent (JObj [("type", JStr "assistant"); ("role", JStr "user");
                          ("content", JStr "echo")]) = Returned evs
    /\ forall c, ~ In (EvText c) evs.
Proof.
  apply (parseQwenEvent_user
           (JObj [("type", JStr "assistant"); ("role", JStr "user");
                  ("content", JStr "echo")])).
  reflexivity.
Defined.

(** X19. For an error that is an object or an array with neither a
    [message] nor an [error] that is a string, [extractErrorMessage] is the
    JSON text of the error: it is not empty, and [JSON.parse] gives the
    error back. *)
Theorem extractErrorMessage_json (err : json) :
  typeofObject err = true ->
  truthy (Some err) = true ->
  uniqueKeys err = true ->
  asStr (getProp "message" err) = None ->
  asStr (getProp "error" err) = None ->
  JSON_parse (extractErrorMessage (Some err)) = Some err
  /\ extractErrorMessage (Some err) <> EmptyString.
Proof.
  intros Hobj Htr Hu Hm He.
  assert (E : extractErrorMessage (Some err) = JSON_stringify err 0).
  { unfold extractErrorMessage. rewrite Htr, Hobj. simpl.
    destruct err; try discriminate Hobj; try discriminate Htr.
    - reflexivity.
    - destruct (getProp "message" (JObj members)) as [[]|]; try discriminate Hm;
        destruct (getProp "error" (JObj members)) as [[]|]; try discriminate He;
        reflexivity. }
  rewrite E. pose proof (JSON_parse_stringify err 0 Hu) as Hp.
  split; [exact Hp|]. intros Hempty. rewrite Hempty in Hp. discriminate Hp.
Qed.

Lemma extractErrorMessage_json_witness :
  JSON_parse (extractErrorMessage (Some codeOnlyError)) = Some codeOnlyError
  /\ extractErrorMessage (Some codeOnlyError) <> EmptyString.
Proof.
  apply (extractErrorMessage_json codeOnlyError); reflexivity.
Defined.

(** *** Lines *)

Lemma trimStart_spaces ws s :
  allTrimSpace ws = true -> trimStart (ws +:+ s) = trimStart s.
Proof.
  unfold allTrimSpace. induction ws as [|c ws IH]; simpl; [reflexivity|].
  intros H. apply andb_true_iff in H as [Hc Hws]. rewrite Hc. now apply IH.
Qed.

Lemma trimEnd_spaces ws : allTrimSpace ws = true -> trimEnd ws = EmptyString.
Proof.
  unfold allTrimSpace. induction ws as [|c ws IH]; simpl; [reflexivity|].
  intros H. apply andb_true_iff in H as [Hc Hws]. now rewrite IH, Hc.
Qed.

Lemma trimEnd_brace x ws :
  allTrimSpace ws = true -> trimEnd (x +:+ String "}" ws) = x +:+ "}".
Proof.
  intros Hws. induction x as [|c x IH]; simpl.
  - rewrite (trimEnd_spaces ws Hws). reflexivity.
  - rewrite IH. destruct x; reflexivity.
Qed.

Lemma stringify_object_end o :
  isObject o = true -> exists x, JSON_stringify o 0 = x +:+ "}".
Proof.
  destruct o as [ | | | | | [|m ms]]; try discriminate; intros _.
  - exists "{". reflexivity.
  - unfold JSON_stringify. simpl spaces. rewrite serializeJSON_obj.
    cbv zeta. simpl isEmpty. cbv iota. rewrite str_app_nil_l.
    eexists (String "{" _). simpl. reflexivity.
Qed.

(** X20. A line that is the [JSON.stringify] text of an object, with any
    white space that [trim] strips around it, gives the events of that
    object; where [parseQwenEvent] throws, the line gives no events. *)
Theorem parseQwenJsonLine_stringify (before after : string) (event : json) :
  isObject event = true ->
  uniqueKeys event = true ->
  allTrimSpace before = true ->
  allTrimSpace after = true ->
  parseQwenJsonLine (before +:+ JSON_stringify event 0 +:+ after)
  = orNoEvents (parseQwenEvent event).
Proof.
  intros Ho Hu Hb Ha.
  destruct (stringify_object_start event Ho) as (r & Er).
  destruct (stringify_object_end event Ho) as (x & Ex).
  assert (Et : trim (before +:+ JSON_stringify event 0 +:+ after)
               = JSON_stringify event 0).
  { unfold trim. rewrite trimStart_spaces by exact Hb.
    assert (E2 : trimStart (JSON_stringify event 0 +:+ after)
                 = JSON_stringify event 0 +:+ after) by (rewrite Er; reflexivity).
    rewrite E2, Ex, str_app_assoc. apply trimEnd_brace, Ha. }
  unfold parseQwenJsonLine. rewrite Et, JSON_parse_stringify by exact Hu.
  replace (isEmpty (before +:+ JSON_stringify event 0 +:+ after)) with false.
  - rewrite Er. reflexivity.
  - rewrite Er. destruct before; reflexivity.
Qed.

Lemma parseQwenJsonLine_stringify_witness :
  parseQwenJsonLine ("  " +:+ JSON_stringify nullContentLine 0 +:+ str1 newline)
  = orNoEvents (parseQwenEvent nullContentLine).
Proof.
  apply (parseQwenJsonLine_stringify "  " (str1 newline) nullContentLine);
    reflexivity.
Defined.

(** X21. The events of a stream of [JSON.stringify] texts of objects, each
    after a piece of text without an opening brace, are the events of the
    objects, in order; an object on which [parseQwenEvent] throws makes the
    whole call throw, at that object. *)
Theorem parseQwenOutputToEvents_stream
  (chunks : list (string * json)) (trailing : string) :
  forallb goodChunk chunks = true ->
  noBrace trailing = true ->
  parseQwenOutputToEvents (interleave chunks trailing)
  = Some (collectEvents (map snd chunks) []).
Proof.
  intros Hg Htr. unfold parseQwenOutputToEvents, extractJsonObjects.
  pose proof (length_interleave chunks trailing Hg) as Hlen.
  replace (S (String.length (interleave chunks trailing)))
    with (length chunks
          + S (String.length (interleave chunks trailing) - length chunks))%nat
    by lia.
  rewrite extractLoop_chunks by exact Hg.
  now rewrite extractLoop_noBrace.
Qed.

Lemma parseQwenOutputToEvents_stream_witness :
  parseQwenOutputToEvents
    (interleave [("log: ", assistantLine); (str1 newline, nullContentLine)] EmptyString)
  = Some (collectEvents [assistantLine; nullContentLine] []).
Proof.
  apply (parseQwenOutputToEvents_stream
           [("log: ", assistantLine); (str1 newline, nullContentLine)] EmptyString);
    reflexivity.
Defined.

(** ** The Qwen plugin: configuration *)

(** X22. [validateSetup] accepts the answers exactly when [validateModel]
    accepts the model they give as a string (answers without such a model
    are accepted), and both accept every model that the setup question
    offers. *)
Theorem validateSetup_validateModel (answers : json) :
  (validateSetup answers = None
   <-> forall m, getProp "model" answers = Some (JStr m) -> validateModel m = None)
  /\ (forall choice, In choice modelChoices ->
        validateModel choice = None
        /\ validateSetup (JObj [("model", JStr choice)]) = None).
Proof.
  split.
  - unfold validateSetup, validateModel.
    destruct (getProp "model" answers) as [[ | | | m | | ]|];
      try (split; [intros _ m' H; discriminate H | reflexivity]).
    split.
    + intros H m' E. injection E as <-.
      destruct (isEmpty m), (includes _ m), (startsWithQwen m); simpl in *;
        try reflexivity; discriminate H.
    + intros H. specialize (H m eq_refl).
      destruct (isEmpty m), (includes _ m), (startsWithQwen m); simpl in *;
        try reflexivity; discriminate H.
  - intros choice [<-|[<-|[<-|[]]]]; split; reflexivity.
Qed.

Lemma initializeAll_snoc configs c p :
  initializeAll (configs ++ [c]) p = initialize c (initializeAll configs p).
Proof. unfold initializeAll. now rewrite fold_left_app. Qed.

Lemma initialize_model c p m :
  q_model (initialize c p) = Some m ->
  (getProp "model" c = Some (JStr m) /\ m <> EmptyString) \/ q_model p = Some m.
Proof.
  unfold initialize.
  destruct (getProp "model" c) as [[ | | | m' | | ]|];
    destruct (getProp "yoloMode" c) as [[ | yolo | | | | ]|]; simpl; auto.
  all: destruct m'; simpl; auto; intros H; injection H as <-; left;
    split; [reflexivity | discriminate].
Qed.

Lemma initialize_model_kept c p m :
  q_model p = Some m -> m <> EmptyString ->
  exists m', q_model (initialize c p) = Some m' /\ m' <> EmptyString.
Proof.
  intros Hp Hm. unfold initialize.
  destruct (getProp "model" c) as [[ | | | m' | | ]|];
    destruct (getProp "yoloMode" c) as [[ | yolo | | | | ]|]; simpl;
    try (exists m; split; assumption).
  all: destruct m'; simpl; try (exists m; split; assumption);
    eexists; split; [reflexivity | discriminate].
Qed.

Lemma initialize_model_set c p m :
  getProp "model" c = Some (JStr m) -> m <> EmptyString ->
  q_model (initialize c p) = Some m.
Proof.
  intros Hc Hm. unfold initialize. rewrite Hc.
  destruct m; [contradiction|]. simpl.
  destruct (getProp "yoloMode" c) as [[ | yolo | | | | ]|]; reflexivity.
Qed.

Lemma initializeAll_model configs m :
  q_model (initializeAll configs createQwenCliAgent) = Some m ->
  exists c, In c configs /\ getProp "model" c = Some (JStr m) /\ m <> EmptyString.
Proof.
  induction configs as [|c configs IH] using rev_ind; [discriminate|].
  rewrite initializeAll_snoc. intros H.
  apply initialize_model in H as [[Hc Hm]|H].
  - exists c. split; [apply in_or_app; right; now left | auto].
  - destruct (IH H) as (c' & Hin & Hc'). exists c'.
    split; [apply in_or_app; now left | exact Hc'].
Qed.

Lemma initializeAll_model_set configs c m :
  In c configs -> getProp "model" c = Some (JStr m) -> m <> EmptyString ->
  exists m', q_model (initializeAll configs createQwenCliAgent) = Some m'
             /\ m' <> EmptyString.
Proof.
  induction configs as [|c' configs IH] using rev_ind; [contradiction|].
  rewrite initializeAll_snoc. intros Hin Hc Hm.
  apply in_app_or in Hin as [Hin|[<-|[]]].
  - destruct (IH Hin Hc Hm) as (m' & E & Hne).
    eapply initialize_model_kept; eassumption.
  - exists m. split; [now apply initialize_model_set | exact Hm].
Qed.

Lemma validateModel_not_flag m :
  validateModel m = None -> m <> "--yolo" /\ m <> "-m".
Proof. split; intros ->; discriminate. Qed.

(** X23. The arguments built after any sequence of [initialize] calls on a
    new plugin: none of them is empty; [-m] is among them exactly when some
    configuration gave a non-empty string as model; and when the model in
    use passes [validateModel], [--yolo] is among them exactly when
    [yoloMode] is on.  Without that check the last part fails: a model
    ['--yolo'] puts the flag among the arguments whatever [yoloMode]
    says. *)
Theorem buildArgs_after_initialize (configs : list json) :
  let this := initializeAll configs createQwenCliAgent in
  (forall m, q_model this = Some m -> validateModel m = None) ->
  ~ In EmptyString (buildArgs this)
  /\ (In "-m" (buildArgs this)
      <-> exists c m, In c configs /\ getProp "model" c = Some (JStr m)
                      /\ m <> EmptyString)
  /\ (In "--yolo" (buildArgs this) <-> q_yoloMode this = true)
  /\ (forall b, In "--yolo" (buildArgs {| q_model := Some "--yolo"; q_yoloMode := b |})).
Proof.
  intros this Hvalid.
  assert (Hmodel : forall m, q_model this = Some m ->
             m <> "--yolo" /\ m <> "-m" /\ m <> EmptyString).
  { intros m E. destruct (validateModel_not_flag m (Hvalid m E)) as [H1 H2].
    destruct (initializeAll_model configs m E) as (_ & _ & _ & H3). auto. }
  split; [|split; [|split]].
  - unfold buildArgs. destruct (q_model this) as [m|] eqn:Em.
    + destruct (Hmodel m eq_refl) as (_ & _ & Hne).
      destruct m; [contradiction|]. simpl.
      destruct (q_yoloMode this); simpl; intuition discriminate.
    + destruct (q_yoloMode this); simpl; intuition discriminate.
  - split.
    + unfold buildArgs. destruct (q_model this) as [m|] eqn:Em.
      * intros _. destruct (initializeAll_model configs m Em) as (c & Hc). eauto.
      * destruct (q_yoloMode this); simpl; intuition discriminate.
    + intros (c & m & Hin & Hc & Hm).
      destruct (initializeAll_model_set configs c m Hin Hc Hm) as (m' & E & Hne).
      unfold buildArgs. fold this in E. rewrite E.
      destruct m'; [contradiction|]. simpl.
      destruct (q_yoloMode this); simpl; auto.
  - unfold buildArgs. destruct (q_model this) as [m|] eqn:Em.
    + destruct (Hmodel m eq_refl) as (Hy & _ & Hne).
      destruct m; [contradiction|].
      destruct (q_yoloMode this); simpl; split; intros H;
        try reflexivity; try discriminate H; auto 10.
      exfalso. intuition (discriminate || congruence).
    + destruct (q_yoloMode this); simpl; split; intros H;
        try reflexivity; try discriminate H; auto 10.
      exfalso. intuition discriminate.
  - intros []; simpl; auto.
Qed.

Lemma buildArgs_after_initialize_witness :
  ~ In EmptyString (buildArgs (initializeAll [coderConfig; JObj []] createQwenCliAgent))
  /\ (In "-m" (buildArgs (initializeAll [coderConfig; JObj []] createQwenCliAgent))
      <-> exists c m, In c [coderConfig; JObj []]
                      /\ getProp "model" c = Some (JStr m) /\ m <> EmptyString)
  /\ (In "--yolo" (buildArgs (initializeAll [coderConfig; JObj []] createQwenCliAgent))
      <-> q_yoloMode (initializeAll [coderConfig; JObj []] createQwenCliAgent) = true)
  /\ (forall b, In "--yolo" (buildArgs {| q_model := Some "--yolo"; q_yoloMode := b |})).
Proof.
  apply (buildArgs_after_initialize [coderConfig; JObj []]).
  intros m H. vm_compute in H. injection H as <-. reflexivity.
Defined.

(** ** The status command: finding the session *)

(** X24. The working directory that the status command uses is
    [process.cwd()] or the argument after a [--cwd], which is then not
    empty; arguments without [--cwd] leave [process.cwd()]; and the first
    [--cwd] decides when a non-empty argument follows it, whatever that
    argument is and whatever comes later. *)
Theorem parseCwd_spec (args : list string) (processCwd : string) :
  (parseCwd args processCwd = processCwd
   \/ exists before after,
        args = before ++ "--cwd" :: parseCwd args processCwd :: after
        /\ parseCwd args processCwd <> EmptyString)
  /\ (~ In "--cwd" args -> parseCwd args processCwd = processCwd)
  /\ (forall value after,
        ~ In "--cwd" args -> value <> EmptyString ->
        parseCwd (args ++ "--cwd" :: value :: after) processCwd = value).
Proof.
  split; [|split].
  - induction args as [|a rest IH]; [now left|].
    cbn [parseCwd]. destruct rest as [|next rest']; [now left|].
    destruct (String.eqb_spec a "--cwd") as [->|Hne]; simpl.
    + destruct (isEmpty next) eqn:En; simpl.
      * destruct IH as [IH|(before & after & E & Hn)]; [now left|].
        right. exists ("--cwd" :: before), after. split; [|exact Hn].
        rewrite <- app_comm_cons. f_equal. exact E.
      * right. exists [], rest'. split; [reflexivity | now apply isEmpty_false].
    + destruct IH as [IH|(before & after & E & Hn)]; [now left|].
      right. exists (a :: before), after. split; [|exact Hn].
      rewrite <- app_comm_cons. f_equal. exact E.
  - induction args as [|a rest IH]; intros Hnot; [reflexivity|].
    cbn [parseCwd]. destruct rest as [|next rest']; [reflexivity|].
    destruct (String.eqb_spec a "--cwd") as [->|Hne]; [exfalso; apply Hnot; now left|].
    simpl. apply IH. intros Hin. apply Hnot. now right.
  - intros value after Hnot Hvalue.
    induction args as [|a rest IH].
    + simpl. destruct value; [contradiction | reflexivity].
    + assert (Ha : String.eqb a "--cwd" = false).
      { apply String.eqb_neq. intros ->. apply Hnot. now left. }
      assert (Hrest : ~ In "--cwd" rest) by (intros Hin; apply Hnot; now right).
      rewrite <- app_comm_cons. cbn [parseCwd].
      destruct (rest ++ "--cwd" :: value :: after) as [|next l] eqn:El.
      * destruct rest; discriminate El.
      * rewrite Ha. cbn [andb]. now apply IH.
Qed.

Section StatusProperties.

Variable join : string -> string -> string.

(** X25. After a successful save of a session of schema version 1, the
    status command run for that session's directory finds the file, loads
    it and goes on to show the session that was saved, with its new
    [updatedAt]; before the display it prints nothing and changes no
    file. *)
Theorem status_after_save (now : string) (s : PersistedSessionState)
  (args : list string) (processCwd : string) (w w1 : World) :
  savePersistedSession join now s w = (Returned tt, w1) ->
  parseCwd args processCwd = cwd s ->
  version s = 1 ->
  fst (executeStatusCommand join args processCwd w1)
  = Returned (Display (sessionToJson (updatedState now s)))
  /\ readSession (sessionToJson (updatedState now s)) = Some (updatedState now s)
  /\ sum_updatedAt (getSessionSummary (updatedState now s)) = now
  /\ sum_isResumable (getSessionSummary (updatedState now s)) = isSessionResumable s
  /\ console (snd (executeStatusCommand join args processCwd w1)) = console w1
  /\ files (snd (executeStatusCommand join args processCwd w1)) = files w1.
Proof.
  intros Hsave Hcwd Hv.
  pose proof (lookup_session_file_after_save join now s w w1 Hsave) as Hfile.
  assert (Hload : loadPersistedSession join (cwd s)
                    (logCall (CallAccess (getSessionFilePath join (cwd s))) w1)
                  = (Returned (Some (sessionToJson (updatedState now s))),
                     logCall (CallReadFile (getSessionFilePath join (cwd s)))
                       (logCall (CallAccess (getSessionFilePath join (cwd s))) w1))).
  { rewrite (loadTry_file join (cwd s) _
               (JSON_stringify (sessionToJson (updatedState now s)) 2)
               (sessionToJson (updatedState now s)) (Some (JNum 1))).
    - reflexivity.
    - exact Hfile.
    - apply JSON_parse_stringify, uniqueKeys_session.
    - simpl. rewrite Hv. reflexivity. }
  unfold executeStatusCommand, hasPersistedSession, access. rewrite Hcwd.
  simpl. rewrite Hfile. simpl. rewrite Hload. simpl.
  repeat split; try reflexivity. apply readSession_toJson.
Qed.

Lemma executeStatusCommand_cases args processCwd w :
  fst (executeStatusCommand join args processCwd w)
  = match files w !! getSessionFilePath join (parseCwd args processCwd) with
    | None | Some (Unreachable _) => Returned NoSession
    | Some Directory => Thrown (ErrnoException "EISDIR")
    | Some (File content) =>
        match JSON_parse content with
        | None => Thrown SyntaxError
        | Some JNull => Thrown TypeError
        | Some parsed =>
            if isNot1 (getProp "version" parsed) then
              match versionWarning (getProp "version" parsed) with
              | Thrown e => Thrown TypeError
              | Returned _ =>
                  if truthy (Some parsed) then Returned (Display parsed)
                  else Returned NoSession
              end
            else Returned (Display parsed)
        end
    end.
Proof.
  unfold executeStatusCommand, hasPersistedSession, access, loadPersistedSession,
    loadTry, readFile.
  simpl.
  destruct (files w !! getSessionFilePath join (parseCwd args processCwd))
    as [[content| |code]|] eqn:Ef; simpl; rewrite ?Ef; simpl; try reflexivity.
  destruct (JSON_parse content) as [parsed|]; simpl; [|reflexivity].
  assert (Hw : forall ver e, versionWarning ver = Thrown e -> e = TypeError)
    by apply versionWarning_thrown.
  destruct parsed as [ | [] | n | str | items | members]; simpl; try reflexivity.
  - destruct (n =? 0) eqn:En; simpl; [reflexivity|]. now destruct n.
  - destruct str; reflexivity.
  - destruct (isNot1 (lookupMember "version" members)) eqn:E1; simpl; [|].
    + destruct (versionWarning (lookupMember "version" members)) as [msg|e] eqn:Ew;
        simpl; [reflexivity|].
      apply Hw in Ew as ->. reflexivity.
    + destruct (lookupMember "version" members) as [[ | | k | | | ]|];
        try discriminate E1. reflexivity.
Qed.

(** X26. The status command ends with [No session found.] exactly when
    the look-up of the session file fails (the file is absent or its path
    cannot be reached) or the file holds a falsy JSON value other than
    [null].  A session file that is not JSON makes the command throw a
    SyntaxError, the content [null] a TypeError, and a directory in its
    place EISDIR. *)
Theorem status_no_session (args : list string) (processCwd : string) (w : World) :
  let path := getSessionFilePath join (parseCwd args processCwd) in
  (fst (executeStatusCommand join args processCwd w) = Returned NoSession
   <-> files w !! path = None
       \/ (exists code, files w !! path = Some (Unreachable code))
       \/ exists content parsed,
            files w !! path = Some (File content)
            /\ JSON_parse content = Some parsed
            /\ parsed <> JNull
            /\ truthy (Some parsed) = false)
  /\ (forall content,
        files w !! path = Some (File content) -> JSON_parse content = None ->
        fst (executeStatusCommand join args processCwd w) = Thrown SyntaxError)
  /\ (forall content,
        files w !! path = Some (File content) -> JSON_parse content = Some JNull ->
        fst (executeStatusCommand join args processCwd w) = Thrown TypeError)
  /\ (files w !! path = Some Directory ->
      fst (executeStatusCommand join args processCwd w)
      = Thrown (ErrnoException "EISDIR")).
Proof.
  intros path. subst path. rewrite executeStatusCommand_cases.
  destruct (files w !! getSessionFilePath join (parseCwd args processCwd))
    as [[content| |code]|].
  - split; [|split; [|split]]; try discriminate.
    + destruct (JSON_parse content) as [parsed|] eqn:Ep.
      * split.
        -- intros H. right. right. exists content, parsed.
           split; [reflexivity|]. split; [exact Ep|].
           destruct parsed as [ | b | n | str | items | members];
             try discriminate H; (split; [discriminate|]).
           ++ destruct b; [discriminate H | reflexivity].
           ++ simpl in H |- *. destruct (n =? 0); [reflexivity|].
              simpl in H. discriminate H.
           ++ destruct str; [reflexivity | discriminate H].
           ++ simpl in H.
              destruct (isNot1 (lookupMember "version" members));
                [|discriminate H].
              destruct (versionWarning _); discriminate H.
        -- intros [H|[(c & H)|(c & p' & E1 & E2 & E3 & E4)]]; try discriminate H.
           injection E1 as <-. rewrite Ep in E2. injection E2 as <-.
           destruct parsed as [ | b | n | str | items | members];
             try contradiction; try discriminate E4.
           ++ destruct b; [discriminate E4 | reflexivity].
           ++ simpl in E4. destruct (n =? 0) eqn:En; [|discriminate E4].
              apply Z.eqb_eq in En as ->. reflexivity.
           ++ destruct str; [reflexivity | discriminate E4].
      * split; [discriminate|].
        intros [H|[(c & H)|(c & p' & E1 & E2 & _)]]; try discriminate H.
        injection E1 as <-. rewrite Ep in E2. discriminate.
    + intros c E. injection E as <-. now intros ->.
    + intros c E. injection E as <-. now intros ->.
  - split; [|split; [|split]]; try discriminate; try reflexivity.
    split; [discriminate|].
    intros [H|[(c & H)|(c & p' & E1 & _)]]; discriminate.
  - split; [|split; [|split]]; try discriminate.
    split; [intros _; right; left; eauto | reflexivity].
  - split; [|split; [|split]]; try discriminate.
    split; [intros _; now left | reflexivity].
Qed.

End StatusProperties.

Lemma status_after_save_witness :
  fst (executeStatusCommand posixJoin ["status"; "--cwd"; "/w"] "/home"
         (snd (savePersistedSession posixJoin t2 pausedSample emptyWorld)))
  = Returned (Display (sessionToJson (updatedState t2 pausedSample)))
  /\ readSession (sessionToJson (updatedState t2 pausedSample))
     = Some (updatedState t2 pausedSample)
  /\ sum_updatedAt (getSessionSummary (updatedState t2 pausedSample)) = t2
  /\ sum_isResumable (getSessionSummary (updatedState t2 pausedSample))
     = isSessionResumable pausedSample
  /\ console (snd (executeStatusCommand posixJoin ["status"; "--cwd"; "/w"] "/home"
                     (snd (savePersistedSession posixJoin t2 pausedSample emptyWorld))))
     = console (snd (savePersistedSession posixJoin t2 pausedSample emptyWorld))
  /\ files (snd (executeStatusCommand posixJoin ["status"; "--cwd"; "/w"] "/home"
                   (snd (savePersistedSession posixJoin t2 pausedSample emptyWorld))))
     = files (snd (savePersistedSession posixJoin t2 pausedSample emptyWorld)).
Proof.
  apply (status_after_save posixJoin t2 pausedSample ["status"; "--cwd"; "/w"] "/home"
           emptyWorld).
  - reflexivity.
  - reflexivity.
  - reflexivity.
Defined.
